(** * pypdl/utls.py: segment planning, merging and the download workers

    A shallow embedding of [src/pypdl/utls.py] and the properties of its
    segment table, merge step and workers.

    - Python [int] is [Z]; Python [float] is IEEE 754 binary64, taken from
      the executable specification [SpecFloat] of the Standard Library at
      precision 53 and maximal exponent 1024.
    - Exceptions are an explicit [result].
    - Files are a finite map from paths to contents; Python objects that
      are shared by reference live in a heap. *)

From Stdlib Require Import ZArith Lia Bool List SpecFloat.
From Stdlib.Strings Require Import Byte Ascii.
From Equations Require Import Equations.
From stdpp Require Import gmap strings list pretty.

Local Open Scope Z_scope.

(** ** Exceptions *)

Inductive exn : Type :=
| ZeroDivisionError
| OverflowError
| ValueError
| KeyError
| AttributeError
| RecursionError
| FileNotFoundError
| TypeError.

Inductive result (A : Type) : Type :=
| Ok (a : A)
| Raise (e : exn).
Arguments Ok {A} a.
Arguments Raise {A} e.

Definition rbind {A B} (r : result A) (k : A -> result B) : result B :=
  match r with
  | Ok a => k a
  | Raise e => Raise e
  end.

Notation "'do' x <- r ; k" := (rbind r (fun x => k))
  (at level 10, x name, r at level 99, k at level 200,
   format "'[v' 'do'  x  <-  r ; '/' k ']'").
Notation "'do' ' p <- r ; k" := (rbind r (fun x => let 'p := x in k))
  (at level 10, p strict pattern, r at level 99, k at level 200,
   format "'[v' 'do'  ' p  <-  r ; '/' k ']'").

(** [for x in xs] with a body that may raise: the first exception ends the
    loop. *)
Fixpoint rmap {A B} (f : A -> result B) (xs : list A) : result (list B) :=
  match xs with
  | [] => Ok []
  | x :: xs' => do y <- f x; do ys <- rmap f xs'; Ok (y :: ys)
  end.

(** ** Python numbers *)

Module PyFloat.

Definition prec : Z := 53.
Definition emax : Z := 1024.

Definition float : Type := spec_float.

Definition is_infinity (f : float) : bool :=
  match f with S754_infinity _ => true | _ => false end.

(** The integer [z] with mantissa [|z|] and exponent 0: an operand of
    [int / int], which Python rounds once, from the exact quotient. *)
Definition exact (z : Z) : float :=
  match z with
  | Z0 => S754_zero false
  | Zpos m => S754_finite false m 0
  | Zneg m => S754_finite true m 0
  end.

(** [a / b] on two [int]s: the correctly rounded quotient. *)
Definition int_truediv (a b : Z) : result float :=
  if b =? 0 then Raise ZeroDivisionError
  else
    let q := SFdiv prec emax (exact a) (exact b) in
    if is_infinity q then Raise OverflowError else Ok q.

(** The conversion of the [int] operand of [float * int]. *)
Definition float_of_int (z : Z) : result float :=
  let f := binary_normalize prec emax z 0 false in
  if is_infinity f then Raise OverflowError else Ok f.

(** [x * z] with [x] a [float] and [z] an [int]. *)
Definition mul_int (x : float) (z : Z) : result float :=
  do y <- float_of_int z; Ok (SFmul prec emax x y).

(** [x < z] with [x] a [float] and [z] a small [int]. *)
Definition lt_int (x : float) (z : Z) : bool :=
  SFltb x (binary_normalize prec emax z 0 false).

(** [int(x)]: truncation towards zero. *)
Definition int_of_float (x : float) : result Z :=
  match x with
  | S754_zero _ => Ok 0
  | S754_infinity _ => Raise OverflowError
  | S754_nan => Raise ValueError
  | S754_finite s m e =>
      let a := match e with
               | Z0 => Zpos m
               | Zpos k => Zpos m * 2 ^ Zpos k
               | Zneg k => Zpos m / 2 ^ Zpos k
               end in
      Ok (if s then - a else a)
  end.

End PyFloat.

(** ** Rounding to nearest, ties to even, as a function on fractions

    The specification against which the operations of [PyFloat] are
    proved.  Values are scaled by [2^K], which makes every binary64 number
    and every product of two of them an integer. *)

Module Rounding.

Definition K : Z := 1200.

(** Where the fraction [a / d] lies between [a `div` d] and the next
    integer. *)
Definition loc_frac (a d : Z) : location :=
  let r := a mod d in
  if r =? 0 then loc_Exact else loc_Inexact (2 * r ?= d).

(** The integer nearest to [a / d], ties to even. *)
Definition rne_frac (a d : Z) : Z :=
  round_nearest_even (a / d) (loc_frac a d).

(** The exponent of the last of the 53 bits of [a / b]. *)
Definition cexp (a b : Z) : Z := Zdigits2 (a / b) - 53.

(** [a / b] rounded to 53 bits. *)
Definition rnd (a b : Z) : Z :=
  rne_frac a (b * 2 ^ cexp a b) * 2 ^ cexp a b.

(** The value of a positive finite number, scaled by [2^K]. *)
Definition fval (f : spec_float) : Z :=
  match f with
  | S754_finite false m e => Z.pos m * 2 ^ (e + K)
  | _ => 0
  end.

(** Positive normal numbers. *)
Definition fnormal (f : spec_float) : Prop :=
  match f with
  | S754_finite false m e => 2 ^ 52 <= Z.pos m < 2 ^ 53 /\ -1074 <= e <= 971
  | _ => False
  end.

(** [size / n] as the source computes it, scaled by [2^K]. *)
Definition partition_value (size n : Z) : Z := rnd (size * 2 ^ K) n.

(** [int(partition_size * i)] as the source computes it. *)
Definition boundary (size n i : Z) : Z :=
  if i =? 0 then 0 else rnd (partition_value size n * i) 1 / 2 ^ K.

End Rounding.
Import Rounding.

(** ** Constants *)

Definition MEGABYTE : Z := 1048576.
Definition BLOCKSIZE : Z := 4096.
Definition BLOCKS : Z := 1024.
Definition CHUNKSIZE : Z := BLOCKSIZE * BLOCKS.

Definition to_mb (size_in_bytes : Z) : result PyFloat.float :=
  PyFloat.int_truediv size_in_bytes MEGABYTE.

(** ** The segment table *)

(** The [etag] argument: a string, a boolean, or [None]. *)
Inductive etag_t : Type :=
| EtagNone
| EtagBool (b : bool)
| EtagStr (s : string).

Global Instance etag_eq_dec : EqDecision etag_t.
Proof. solve_decision. Defined.

(** The truth value of [etag] in [if etag and ...]. *)
Definition truthy (etag : etag_t) : bool :=
  match etag with
  | EtagNone => false
  | EtagBool b => b
  | EtagStr s => negb (bool_decide (s = ""))
  end.

(** The manifest [{"url": .., "etag": .., "segments": ..}]. *)
Record manifest : Type := Manifest {
  m_url : string;
  m_etag : etag_t;
  m_segments : Z
}.

Record segment : Type := Segment {
  start : Z;
  end_ : Z;
  segment_size : Z;
  path : string
}.

(** The returned [dic]: [dic["url"]], [dic["segments"]], and the entries
    [dic[0]], [dic[1]], ... in [dic_rows]. *)
Record table : Type := Table {
  dic_url : string;
  dic_segments : Z;
  dic_rows : list segment
}.

Definition segment_path (filepath : string) (i : Z) : string :=
  filepath +:+ "." +:+ pretty i +:+ ".bin".

Definition progress_path (filepath : string) : string := filepath +:+ ".json".

(** Line 49. *)
Definition clamp (segments size : Z) : result Z :=
  if 5 <? segments then
    do mb <- to_mb size;
    Ok (if PyFloat.lt_int mb 50 then 5 else segments)
  else Ok segments.

(** Lines 52-57.  [progress] is the manifest read from disk; [None] stands
    for a file that is missing or that [json.loads] rejects, which both end
    in the [except Exception: pass] of the source. *)
Definition resume (url : string) (etag : etag_t) (segments : Z)
    (progress : option manifest) : Z :=
  match progress with
  | Some p =>
      if truthy etag && bool_decide (m_url p = url)
         && bool_decide (m_etag p = etag)
      then m_segments p
      else segments
  | None => segments
  end.

(** The body of the loop of lines 70-83. *)
Definition segment_entry (filepath : string) (segments : Z)
    (partition_size : PyFloat.float) (i : Z) : result segment :=
  do s <- PyFloat.mul_int partition_size i;
  do start <- PyFloat.int_of_float s;
  do e <- PyFloat.mul_int partition_size (i + 1);
  do end0 <- PyFloat.int_of_float e;
  let segment_size := end0 - start in
  let end1 := if bool_decide (i <> segments - 1) then end0 - 1 else end0 in
  Ok {| start := start; end_ := end1; segment_size := segment_size;
        path := segment_path filepath i |}.

(** Lines 66-85. *)
Definition build_table (url filepath : string) (segments size : Z)
    : result table :=
  do partition_size <- PyFloat.int_truediv size segments;
  do rows <- rmap (segment_entry filepath segments partition_size)
                  (seqZ 0 segments);
  Ok {| dic_url := url; dic_segments := segments; dic_rows := rows |}.

(** The manifests on disk are a map from paths to manifests. *)
Definition create_segment_table (url filepath : string) (segments size : Z)
    (etag : etag_t) (fs : gmap string manifest)
    : gmap string manifest * result table :=
  match clamp segments size with
  | Raise e => (fs, Raise e)
  | Ok segments1 =>
      let progress_file := progress_path filepath in
      let segments2 := resume url etag segments1 (fs !! progress_file) in
      let fs' := <[progress_file := Manifest url etag segments2]> fs in
      (fs', build_table url filepath segments2 size)
  end.

(** The segment count that [create_segment_table] works with. *)
Definition effective_segments (url filepath : string) (segments size : Z)
    (etag : etag_t) (fs : gmap string manifest) : result Z :=
  do segments1 <- clamp segments size;
  Ok (resume url etag segments1 (fs !! progress_path filepath)).

(** [dic[i]]. *)
Definition table_row (dic : table) (i : Z) : option segment :=
  if i <? 0 then None else dic_rows dic !! Z.to_nat i.

(** The row of segment [i] in terms of the rounded boundaries. *)
Definition planned_row (filepath : string) (size n i : Z) : segment :=
  {| start := boundary size n i;
     end_ := if bool_decide (i <> n - 1)
             then boundary size n (i + 1) - 1
             else boundary size n (i + 1);
     segment_size := boundary size n (i + 1) - boundary size n i;
     path := segment_path filepath i |}.

(** The row of segment [i] of [n] for an empty resource. *)
Definition empty_row (filepath : string) (n i : Z) : segment :=
  {| start := 0;
     end_ := if bool_decide (i <> n - 1) then -1 else 0;
     segment_size := 0;
     path := segment_path filepath i |}.

(** The byte ranges of the rows, the last one taken up to the true last
    byte [size - 1] of the resource. *)
Fixpoint byte_ranges (size : Z) (rows : list segment) : list (Z * Z) :=
  match rows with
  | [] => []
  | r :: rows' =>
      match rows' with
      | [] => [(start r, size - 1)]
      | _ => (start r, end_ r) :: byte_ranges size rows'
      end
  end.

Definition in_range (r : Z * Z) (b : Z) : Prop := r.1 <= b <= r.2.

(** The ranges tile [[0, size - 1]]: every byte is in a range, no range
    leaves the resource, no byte is in two ranges. *)
Definition tiles (size : Z) (ranges : list (Z * Z)) : Prop :=
  (forall b, 0 <= b <= size - 1 ->
     exists i r, ranges !! i = Some r /\ in_range r b) /\
  (forall (i : nat) r b, ranges !! i = Some r -> in_range r b ->
     0 <= b <= size - 1) /\
  (forall (i j : nat) r r' b,
     ranges !! i = Some r -> ranges !! j = Some r' ->
     in_range r b -> in_range r' b -> i = j).

(** The same as a check: each range starts where the one before it ended,
    the first at [lo], the last ends at [hi - 1]; a range may be empty. *)
Fixpoint chained (lo hi : Z) (ranges : list (Z * Z)) : bool :=
  match ranges with
  | [] => bool_decide (lo = hi)
  | r :: ranges' =>
      bool_decide (r.1 = lo) && bool_decide (lo <= r.2 + 1)
      && chained (r.2 + 1) hi ranges'
  end.

(** ** Files and the merge step *)

(** [f.read(k)]: at most [k] bytes from the reading position, and what is
    left to read. *)
Fixpoint read (k : Z) (rest : list byte) : list byte * list byte :=
  match rest with
  | [] => ([], [])
  | b :: rest' =>
      if k <=? 0 then ([], rest)
      else let '(chunk, rest'') := read (k - 1) rest' in (b :: chunk, rest'')
  end.

(** [f.write(chunk)] on the file opened at [path]. *)
Definition write (path : string) (chunk : list byte)
    (fs : gmap string (list byte)) : gmap string (list byte) :=
  alter (fun content => content ++ chunk) path fs.

(** [Path(path).unlink()]. *)
Definition unlink (path : string) (fs : gmap string (list byte))
    : gmap string (list byte) * result unit :=
  match fs !! path with
  | Some _ => (delete path fs, Ok tt)
  | None => (fs, Raise FileNotFoundError)
  end.

Definition inspect {A} (a : A) : {b : A | a = b} := exist _ a eq_refl.

(** The loop of lines 96-101: [src] is what is left to read of the segment
    file, [dest] the path of the destination. *)
Equations? copy_chunks (dest : string) (src : list byte)
    (fs : gmap string (list byte)) : gmap string (list byte)
    by wf (length src) lt :=
  copy_chunks dest src fs with inspect (read CHUNKSIZE src) := {
    | exist _ ([], _) _ => fs
    | exist _ (b :: chunk, rest) Heq =>
        copy_chunks dest rest (write dest (b :: chunk) fs) }.
Proof.
  clear copy_chunks fs dest.
  enough (forall k c r, read k src = (c, r) -> c <> [] ->
            (length r < length src)%nat) as H by (by eapply H).
  clear. induction src as [|b src IH]; intros k c r; simpl.
  - intros [= <- <-]. done.
  - destruct (k <=? 0); [by intros [= <- <-]|].
    destruct (read (k - 1) src) as [c' r'] eqn:E. intros [= <- <-] _.
    destruct c' as [|b' c'].
    + destruct src as [|b' src]; simpl in E.
      * injection E as <-. simpl. lia.
      * destruct (k - 1 <=? 0).
        -- injection E as <-. simpl. lia.
        -- by destruct (read (k - 1 - 1) src).
    + specialize (IH _ _ _ E ltac:(done)). lia.
Defined.

(** The loop of lines 93-102. *)
Fixpoint merge_segments (filepath : string) (indices : list Z)
    (fs : gmap string (list byte)) : gmap string (list byte) * result unit :=
  match indices with
  | [] => (fs, Ok tt)
  | i :: indices' =>
      let segment_file := segment_path filepath i in
      match fs !! segment_file with
      | None => (fs, Raise FileNotFoundError)
      | Some src =>
          let fs := copy_chunks filepath src fs in
          match unlink segment_file fs with
          | (fs, Raise e) => (fs, Raise e)
          | (fs, Ok _) => merge_segments filepath indices' fs
          end
      end
  end.

Definition combine_files (filepath : string) (segments : Z)
    (fs : gmap string (list byte)) : gmap string (list byte) * result unit :=
  let fs := <[filepath := []]> fs in
  match merge_segments filepath (seqZ 0 segments) fs with
  | (fs, Raise e) => (fs, Raise e)
  | (fs, Ok _) => unlink (progress_path filepath) fs
  end.

(** The contents of the segment files [0 .. segments - 1], in this order. *)
Definition segment_contents (filepath : string) (segments : Z)
    (fs : gmap string (list byte)) : list (list byte) :=
  (fun i => default [] (fs !! segment_path filepath i)) <$> seqZ 0 segments.


(** ** The workers *)

(** *** Python objects

    Keyword arguments are a [dict] whose values may be shared with other
    workers, so objects live in a heap and are referred to by location. *)

Inductive val : Type :=
| VNone
| VBool (b : bool)
| VInt (z : Z)
| VStr (s : string)
| VRef (l : positive).

(** The world a worker runs in: the files, the heap of [dict] objects, and
    the shared [error] event as this worker leaves it. *)
Record world : Type := World {
  files : gmap string (list byte);
  heap : gmap positive (gmap string val);
  error_set : bool
}.

Definition with_files (f : gmap string (list byte) -> gmap string (list byte))
    (w : world) : world :=
  {| files := f (files w); heap := heap w; error_set := error_set w |}.

Definition with_heap (h : gmap positive (gmap string val)) (w : world)
    : world :=
  {| files := files w; heap := h; error_set := error_set w |}.

(** [self.error.set()]. *)
Definition set_error (w : world) : world :=
  {| files := files w; heap := heap w; error_set := true |}.

(** What the transport and the other threads do during one [download]:
    - [Chunk data stop error]: [iter_content] yields [data], and once it is
      handled [self.stop.is_set()] and [self.error.is_set()] read [stop]
      and [error];
    - [Fail]: the next step raises an exception ([requests.get], the
      iteration, or [f.write]);
    the stream has ended when the steps are used up. *)
Inductive step : Type :=
| Chunk (data : list byte) (stop_is_set error_is_set : bool)
| Fail.

Record trace : Type := Trace {
  open_ok : bool;     (* [open(path, mode)] succeeds *)
  steps : list step
}.

(** The fields of [Basicdown] that the workers change. *)
Record basicdown : Type := Basicdown {
  curr : Z;
  completed : Z
}.

Definition init : basicdown := {| curr := 0; completed := 0 |}.

Inductive open_mode : Type := WB | AB.

Definition open_file (path : string) (mode : open_mode)
    (fs : gmap string (list byte)) : gmap string (list byte) :=
  match mode with
  | WB => <[path := []]> fs
  | AB => match fs !! path with
          | Some _ => fs
          | None => <[path := []]> fs
          end
  end.

(** The loop of lines 127-132. *)
Fixpoint iter_content (todo : list step) (path : string)
    (self : basicdown) (w : world) : basicdown * world :=
  match todo with
  | [] => (self, w)
  | Fail :: _ => (self, set_error w)
  | Chunk chunk stop_is_set error_is_set :: todo' =>
      let '(self, w) :=
        if bool_decide (chunk <> []) then
          ({| curr := curr self + Z.of_nat (length chunk);
              completed := completed self |},
           with_files (write path chunk) w)
        else (self, w) in
      if negb (bool_decide (chunk <> [])) || stop_is_set || error_is_set
      then (self, w)
      else iter_content todo' path self w
  end.

(** [Basicdown.download]; [kwargs] are the keyword arguments passed on to
    [requests.get(url, stream=True, timeout=20, **kwargs)], which raises
    [TypeError] when they repeat [stream] or [timeout]. *)
Definition download (t : trace) (url path : string) (mode : open_mode)
    (kwargs : gmap string val) (self : basicdown) (w : world)
    : basicdown * world :=
  if negb (open_ok t) then (self, set_error w)
  else
    let w := with_files (open_file path mode) w in
    if bool_decide (is_Some (kwargs !! "stream"))
       || bool_decide (is_Some (kwargs !! "timeout"))
    then (self, set_error w)
    else iter_content (steps t) path self w.

Record simpledown : Type := Simpledown {
  sd_url : string;
  sd_path : string;
  sd_kwargs : gmap string val
}.

(** A call [self.download(url, path, mode, **kwargs)] binds the parameters
    [self], [url], [path] and [mode] of [download]: keyword arguments that
    name one of them make the call raise [TypeError], before the body of
    [download] and its [try] are entered. *)
Definition binds_parameter (kwargs : gmap string val) : bool :=
  bool_decide (is_Some (kwargs !! "self"))
  || bool_decide (is_Some (kwargs !! "url"))
  || bool_decide (is_Some (kwargs !! "path"))
  || bool_decide (is_Some (kwargs !! "mode")).

(** [Simpledown.worker]. *)
Definition Simpledown_worker (t : trace) (sd : simpledown)
    (self : basicdown) (w : world) : basicdown * world * result unit :=
  if binds_parameter (sd_kwargs sd) then (self, w, Raise TypeError)
  else
    let '(self, w) :=
      download t (sd_url sd) (sd_path sd) WB (sd_kwargs sd) self w in
    ({| curr := curr self; completed := 1 |}, w, Ok tt).

(** *** [copy.deepcopy] on the heap

    [depth] is the recursion limit of the interpreter; [memo] maps the
    objects copied so far to their copies. *)

Definition alloc (o : gmap string val) (h : gmap positive (gmap string val))
    : positive * gmap positive (gmap string val) :=
  let l := fresh (dom h) in (l, <[l := o]> h).

(** [y[key] = deepcopy(value, memo)], one round of the loop over the items
    of a [dict]; [copy] is [deepcopy] one level down. *)
Definition copy_item
    (copy : val -> gmap positive positive -> gmap positive (gmap string val) ->
            result (val * gmap positive positive *
                    gmap positive (gmap string val)))
    (y : positive)
    (acc : result (gmap positive positive * gmap positive (gmap string val)))
    (item : string * val)
    : result (gmap positive positive * gmap positive (gmap string val)) :=
  do '(memo, h) <- acc;
  do '(value', memo, h) <- copy item.2 memo h;
  Ok (memo, alter (insert item.1 value') y h).

Fixpoint deepcopy (depth : nat) (x : val) (memo : gmap positive positive)
    (h : gmap positive (gmap string val))
    : result (val * gmap positive positive * gmap positive (gmap string val)) :=
  match x with
  | VRef l =>
      match memo !! l with
      | Some y => Ok (VRef y, memo, h)
      | None =>
          match depth with
          | O => Raise RecursionError
          | S depth' =>
              match h !! l with
              | None => Raise KeyError
              | Some d =>
                  let '(y, h) := alloc ∅ h in
                  let memo := <[l := y]> memo in
                  do '(memo, h) <- foldl (copy_item (deepcopy depth') y)
                                         (Ok (memo, h)) (map_to_list d);
                  Ok (VRef y, memo, h)
              end
          end
      end
  | _ => Ok (x, memo, h)
  end.

(** What holds of the heap while [h0] is being copied: [h0] is still
    there unchanged, the copies are not objects of [h0], and the objects
    that are not in [h0] refer to no object of [h0]. *)
Definition copying (h0 : gmap positive (gmap string val))
    (memo : gmap positive positive) (h : gmap positive (gmap string val))
    : Prop :=
  h0 ⊆ h /\
  (forall l y, memo !! l = Some y -> h0 !! y = None) /\
  (forall y d key l, h0 !! y = None -> h !! y = Some d ->
     d !! key = Some (VRef l) -> h0 !! l = None).

(** *** [Multidown] *)

Record multidown : Type := Multidown {
  segement_table : table;
  segment_id : Z;
  md_kwargs : positive     (* [self.kwargs], a [dict] on the heap *)
}.

Definition range_header (start end_ : Z) : string :=
  "bytes=" +:+ pretty start +:+ "-" +:+ pretty end_.

(** [kwargs.setdefault("headers", {}).update({"range": r})]. *)
Definition set_range (kwargs : positive) (r : string)
    (h : gmap positive (gmap string val))
    : result (gmap positive (gmap string val)) :=
  match h !! kwargs with
  | None => Raise KeyError
  | Some d =>
      let '(fresh_headers, h) := alloc ∅ h in
      let '(headers, h) :=
        match d !! "headers" with
        | Some v => (v, h)
        | None => (VRef fresh_headers,
                   alter (insert "headers" (VRef fresh_headers)) kwargs h)
        end in
      match headers with
      | VRef l =>
          match h !! l with
          | Some _ => Ok (alter (insert "range" (VStr r)) l h)
          | None => Raise KeyError
          end
      | _ => Raise AttributeError
      end
  end.

(** Lines 187-192: what is already on disk. *)
Definition resume_file (row : segment) (self : basicdown) (w : world)
    : basicdown * world :=
  match files w !! path row with
  | Some content =>
      let downloaded_size := Z.of_nat (length content) in
      if segment_size row <? downloaded_size
      then (self, with_files (delete (path row)) w)
      else ({| curr := downloaded_size; completed := completed self |}, w)
  | None => (self, w)
  end.

(** Lines 194-198: the ranged request for what is missing. *)
Definition fetch (t : trace) (depth : nat) (md : multidown) (row : segment)
    (self : basicdown) (w : world) : basicdown * world * result unit :=
  if curr self <? segment_size row then
    let start := start row + curr self in
    match deepcopy depth (VRef (md_kwargs md)) ∅ (heap w) with
    | Raise e => (self, w, Raise e)
    | Ok (VRef kwargs, _, h) =>
        match set_range kwargs (range_header start (end_ row)) h with
        | Raise e => (self, with_heap h w, Raise e)
        | Ok h =>
            if binds_parameter (default ∅ (h !! kwargs))
            then (self, with_heap h w, Raise TypeError)
            else
              let '(self, w) :=
                download t (dic_url (segement_table md)) (path row) AB
                         (default ∅ (h !! kwargs)) self (with_heap h w) in
              (self, w, Ok tt)
        end
    | Ok (_, _, h) => (self, with_heap h w, Raise AttributeError)
    end
  else (self, w, Ok tt).

(** Lines 200-201. *)
Definition finish (row : segment) (self : basicdown) : basicdown :=
  if curr self =? segment_size row
  then {| curr := curr self; completed := 1 |}
  else self.

(** [Multidown.worker]. *)
Definition Multidown_worker (t : trace) (depth : nat) (md : multidown)
    (self : basicdown) (w : world) : basicdown * world * result unit :=
  match table_row (segement_table md) (segment_id md) with
  | None => (self, w, Raise KeyError)
  | Some row =>
      let '(self, w) := resume_file row self w in
      match fetch t depth md row self w with
      | (self, w, Raise e) => (self, w, Raise e)
      | (self, w, Ok _) => (finish row self, w, Ok tt)
      end
  end.

(** ** File names and durations *)

(** *** Operations of [str] *)

(** [s.find(sub)]: the position of the first occurrence of [sub] in [s].
    [sub in s] holds when there is one, and [s.index(sub)] is its
    position. *)
Fixpoint find (sub s : string) : option nat :=
  if String.prefix sub s then Some 0%nat
  else match s with
       | EmptyString => None
       | String _ s' => S <$> find sub s'
       end.

(** [s[n:]]. *)
Fixpoint drop_str (n : nat) (s : string) : string :=
  match n, s with
  | O, _ => s
  | S n', String _ s' => drop_str n' s'
  | S _, EmptyString => EmptyString
  end.

(** [s.lstrip(c)], [s.rstrip(c)] and [s.strip(c)] for one character [c]. *)
Fixpoint lstrip (c : ascii) (s : string) : string :=
  match s with
  | String a s' => if bool_decide (a = c) then lstrip c s' else s
  | EmptyString => EmptyString
  end.

Fixpoint rstrip (c : ascii) (s : string) : string :=
  match s with
  | String a s' =>
      match rstrip c s' with
      | EmptyString => if bool_decide (a = c) then EmptyString
                       else String a EmptyString
      | r => String a r
      end
  | EmptyString => EmptyString
  end.

Definition strip (c : ascii) (s : string) : string := rstrip c (lstrip c s).

(** [s.split(sep)] for one character [sep]. *)
Fixpoint split (sep : ascii) (s : string) : list string :=
  match s with
  | EmptyString => [EmptyString]
  | String a s' =>
      if bool_decide (a = sep) then EmptyString :: split sep s'
      else match split sep s' with
           | part :: parts => String a part :: parts
           | [] => [String a EmptyString]
           end
  end.

(** The double quote. *)
Definition dquote : ascii := "034"%char.

(** *** [get_filename]

    [unquote] and [urlparse_path] stand for [urllib.parse.unquote] and for
    [urllib.parse.urlparse(url).path] of the Python library, which may
    raise [ValueError]; [headers] is a [dict] of strings. *)

Section get_filename.
Variable unquote : string -> string.
Variable urlparse_path : string -> result string.

(** Line 26. *)
Definition name_from_url (url : string) : result string :=
  do path <- urlparse_path url;
  Ok (unquote (default EmptyString (last (split "/" path)))).

Definition get_filename (url : string) (headers : gmap string string)
    : result string :=
  let content_disposition := headers !! "Content-Disposition" in
  match content_disposition with
  | Some content_disposition =>
      match find "filename=" content_disposition with
      | Some i =>
          let filename_start := (i + String.length "filename=")%nat in
          let filename := drop_str filename_start content_disposition in
          let filename := strip dquote filename in
          Ok (unquote filename)
      | None => name_from_url url
      end
  | None => name_from_url url
  end.

End get_filename.

(** *** [timestring] *)

(** An [int] or a [float] argument. *)
Inductive number : Type :=
| Int (z : Z)
| Float (x : PyFloat.float).

(** [int(x)]. *)
Definition int (x : number) : result Z :=
  match x with
  | Int z => Ok z
  | Float x => PyFloat.int_of_float x
  end.

(** [divmod(a, b)] on [int]s, for [b <> 0]: the quotient is rounded
    down. *)
Definition divmod (a b : Z) : Z * Z := (a / b, a mod b).

(** [c * n]. *)
Fixpoint repeated (c : ascii) (n : nat) : string :=
  match n with
  | O => EmptyString
  | S n' => String c (repeated c n')
  end.

(** [s.rjust(width, "0")]. *)
Definition zfill (width : nat) (s : string) : string :=
  repeated "0" (width - String.length s) +:+ s.

(** [f"{z:02d}"]: the sign, then the digits filled with zeros up to a
    width of 2, sign included. *)
Definition format_02d (z : Z) : string :=
  let digits := pretty (Z.abs_N z) in
  if z <? 0 then "-" +:+ zfill 1 digits else zfill 2 digits.

Definition timestring (sec : number) : result string :=
  do sec <- int sec;
  let '(m, s) := divmod sec 60 in
  let '(h, m) := divmod m 60 in
  Ok (format_02d h +:+ ":" +:+ format_02d m +:+ ":" +:+ format_02d s).

(** The two decimal digits of [v], for [0 <= v < 100]. *)
Definition two_digits (v : Z) : string :=
  String (pretty_N_char (Z.to_N (v / 10)))
    (String (pretty_N_char (Z.to_N (v mod 10))) EmptyString).

(** ** What a download writes *)

(** The bytes that the loop of lines 127-132 writes: the chunks up to and
    with the first one after which the loop ends. *)
Fixpoint delivered (todo : list step) : list byte :=
  match todo with
  | [] => []
  | Fail :: _ => []
  | Chunk chunk stop_is_set error_is_set :: todo' =>
      if negb (bool_decide (chunk <> [])) || stop_is_set || error_is_set
      then chunk
      else chunk ++ delivered todo'
  end.

(** The loop raises: a [Fail] is reached before a chunk ends the loop. *)
Fixpoint raises (todo : list step) : bool :=
  match todo with
  | [] => false
  | Fail :: _ => true
  | Chunk chunk stop_is_set error_is_set :: todo' =>
      if negb (bool_decide (chunk <> [])) || stop_is_set || error_is_set
      then false
      else raises todo'
  end.

(** The chunks [ds] arriving one by one while no flag is set. *)
Definition chunks (ds : list (list byte)) : list step :=
  (fun d => Chunk d false false) <$> ds.

(** The sum of the segment sizes of a table. *)
Definition total_size (rows : list segment) : Z :=
  foldr Z.add 0 (segment_size <$> rows).

(** What a file opened with [mode] holds, from what was at its path. *)
Definition opened (mode : open_mode) (content : option (list byte))
    : list byte :=
  match mode with
  | WB => []
  | AB => default [] content
  end.

(** What [Multidown.worker] keeps of the file of its segment: a file that
    is longer than the segment is deleted. *)
Definition kept (row : segment) (content : option (list byte)) : list byte :=
  match content with
  | Some c => if segment_size row <? Z.of_nat (length c) then [] else c
  | None => []
  end.



(** * Binary64 arithmetic

    Every operation of [PyFloat] on positive normal numbers is the exact
    operation followed by [rnd]. *)

Lemma Zdigits2_bounds m : 0 < m -> 2 ^ (Zdigits2 m - 1) <= m < 2 ^ Zdigits2 m.
Proof.
  destruct m as [|p|p]; try lia. intros _. simpl.
  induction p as [p IH|p IH|]; simpl digits2_pos.
  - rewrite Pos2Z.inj_succ.
    replace (Z.succ (Z.pos (digits2_pos p)) - 1) with (Z.succ (Z.pos (digits2_pos p) - 1)) by lia.
    rewrite !Z.pow_succ_r by lia. lia.
  - rewrite Pos2Z.inj_succ.
    replace (Z.succ (Z.pos (digits2_pos p)) - 1) with (Z.succ (Z.pos (digits2_pos p) - 1)) by lia.
    rewrite !Z.pow_succ_r by lia. lia.
  - simpl. lia.
Qed.

Lemma Zdigits2_nonneg m : 0 <= Zdigits2 m.
Proof. destruct m; simpl; lia. Qed.

Lemma Zdigits2_pos m : 0 < m -> 0 < Zdigits2 m.
Proof. destruct m; simpl; lia. Qed.

Lemma Zdigits2_unique m k : 2 ^ (k - 1) <= m < 2 ^ k -> 0 < m -> Zdigits2 m = k.
Proof.
  intros [Hl Hu] Hm. pose proof (Zdigits2_bounds m Hm) as [Hl' Hu'].
  pose proof (Zdigits2_pos m Hm).
  assert (0 < k).
  { destruct (Z.lt_trichotomy k 0) as [Hk|[->|Hk]]; [|simpl in Hu; lia|done].
    rewrite Z.pow_neg_r in Hu; lia. }
  destruct (Z.lt_trichotomy (Zdigits2 m) k) as [Hlt|[Heq|Hgt]]; [|done|].
  - assert (2 ^ Zdigits2 m <= 2 ^ (k - 1)) by (apply Z.pow_le_mono_r; lia). lia.
  - assert (2 ^ k <= 2 ^ (Zdigits2 m - 1)) by (apply Z.pow_le_mono_r; lia). lia.
Qed.

Lemma Zdigits2_mono a b : 0 <= a <= b -> Zdigits2 a <= Zdigits2 b.
Proof.
  intros [Ha Hab]. destruct (Z.eq_dec a 0) as [->|Hne]; [apply Zdigits2_nonneg|].
  pose proof (Zdigits2_bounds a ltac:(lia)) as [Hl _].
  pose proof (Zdigits2_bounds b ltac:(lia)) as [_ Hu].
  destruct (Z.le_gt_cases (Zdigits2 a) (Zdigits2 b)); [done|].
  assert (2 ^ Zdigits2 b <= 2 ^ (Zdigits2 a - 1)) by (apply Z.pow_le_mono_r; lia). lia.
Qed.

(** One right shift keeps the record the location of the same fraction. *)
Lemma shr_1_loc a D :
  0 <= a -> 0 < D ->
  shr_1 (shr_record_of_loc (a / D) (loc_frac a D))
  = shr_record_of_loc (a / (D * 2)) (loc_frac a (D * 2)).
Proof.
  intros Ha HD.
  pose proof (Z.div_mod a D ltac:(lia)) as Hdm.
  pose proof (Z.mod_pos_bound a D HD) as Hr.
  pose proof (Z.div_pos a D Ha HD) as Hq.
  set (q := a / D) in *. set (r := a mod D) in *.
  assert (Hhalf : forall q' b, q = 2 * q' + b -> 0 <= b < 2 ->
            a / (D * 2) = q' /\ a mod (D * 2) = D * b + r).
  { intros q' b Hqb Hb.
    assert (a = (D * 2) * q' + (D * b + r)) as Heq by lia.
    split; symmetry.
    - apply (Z.div_unique a (D * 2) q' (D * b + r)); [nia|done].
    - apply (Z.mod_unique a (D * 2) q' (D * b + r)); [nia|done]. }
  unfold loc_frac. fold r.
  destruct q as [|[p|p|]|p] eqn:Eqq; try lia.
  - (* q = 0 *)
    destruct (Hhalf 0 0 ltac:(lia) ltac:(lia)) as [-> ->].
    replace (D * 0 + r) with r by lia.
    destruct (r =? 0) eqn:Er; [done|].
    apply Z.eqb_neq in Er.
    assert ((2 * r ?= D * 2) = Lt) as -> by (apply Z.compare_lt_iff; lia).
    by destruct (2 * r ?= D).
  - destruct (Hhalf (Z.pos p) 1 ltac:(lia) ltac:(lia)) as [-> ->].
    destruct (r =? 0) eqn:Er.
    + apply Z.eqb_eq in Er. rewrite Er.
      assert ((D * 1 + 0 =? 0) = false) as -> by (apply Z.eqb_neq; lia).
      assert ((2 * (D * 1 + 0) ?= D * 2) = Eq) as -> by (apply Z.compare_eq_iff; lia).
      done.
    + apply Z.eqb_neq in Er.
      assert ((D * 1 + r =? 0) = false) as -> by (apply Z.eqb_neq; lia).
      assert ((2 * (D * 1 + r) ?= D * 2) = Gt) as -> by (apply Z.compare_gt_iff; lia).
      by destruct (2 * r ?= D).
  - destruct (Hhalf (Z.pos p) 0 ltac:(lia) ltac:(lia)) as [-> ->].
    replace (D * 0 + r) with r by lia.
    destruct (r =? 0) eqn:Er; [done|].
    apply Z.eqb_neq in Er.
    assert ((2 * r ?= D * 2) = Lt) as -> by (apply Z.compare_lt_iff; lia).
    by destruct (2 * r ?= D).
  - destruct (Hhalf 0 1 ltac:(lia) ltac:(lia)) as [-> ->].
    destruct (r =? 0) eqn:Er.
    + apply Z.eqb_eq in Er. rewrite Er.
      assert ((D * 1 + 0 =? 0) = false) as -> by (apply Z.eqb_neq; lia).
      assert ((2 * (D * 1 + 0) ?= D * 2) = Eq) as -> by (apply Z.compare_eq_iff; lia).
      done.
    + apply Z.eqb_neq in Er.
      assert ((D * 1 + r =? 0) = false) as -> by (apply Z.eqb_neq; lia).
      assert ((2 * (D * 1 + r) ?= D * 2) = Gt) as -> by (apply Z.compare_gt_iff; lia).
      by destruct (2 * r ?= D).
Qed.

Lemma pow2_xI p : 2 ^ Z.pos p~1 = 2 * 2 ^ Z.pos p * 2 ^ Z.pos p.
Proof.
  replace (Z.pos p~1) with (1 + Z.pos p + Z.pos p) by lia.
  rewrite !Z.pow_add_r by lia. done.
Qed.

Lemma pow2_xO p : 2 ^ Z.pos p~0 = 2 ^ Z.pos p * 2 ^ Z.pos p.
Proof.
  replace (Z.pos p~0) with (Z.pos p + Z.pos p) by lia.
  by rewrite Z.pow_add_r by lia.
Qed.

Lemma pow2_pos n : 0 <= n -> 0 < 2 ^ n.
Proof. intros. by apply Z.pow_pos_nonneg. Qed.

Lemma iter_pos_shr_1_loc (p : positive) : forall a D,
  0 <= a -> 0 < D ->
  SpecFloat.iter_pos shr_1 p (shr_record_of_loc (a / D) (loc_frac a D))
  = shr_record_of_loc (a / (D * 2 ^ Z.pos p)) (loc_frac a (D * 2 ^ Z.pos p)).
Proof.
  induction p as [p IH|p IH|]; intros a D Ha HD; simpl SpecFloat.iter_pos.
  - pose proof (pow2_pos (Z.pos p) ltac:(lia)).
    rewrite shr_1_loc, IH, IH by nia.
    rewrite pow2_xI. by rewrite !Z.mul_assoc.
  - pose proof (pow2_pos (Z.pos p) ltac:(lia)).
    rewrite IH, IH by nia.
    rewrite pow2_xO. by rewrite !Z.mul_assoc.
  - rewrite shr_1_loc by done. done.
Qed.
Lemma shr_record_of_loc_m m l : shr_m (shr_record_of_loc m l) = m.
Proof. by destruct l as [|[]]. Qed.

Lemma loc_of_shr_record_of_loc m l :
  loc_of_shr_record (shr_record_of_loc m l) = l.
Proof. by destruct l as [|[]]. Qed.

Lemma loc_frac_scale a D s : 0 < s -> 0 < D ->
  loc_frac (a * s) (D * s) = loc_frac a D.
Proof.
  intros Hs HD. unfold loc_frac.
  rewrite Z.mul_mod_distr_r by lia.
  pose proof (Z.mod_pos_bound a D HD).
  destruct (a mod D =? 0) eqn:E.
  - apply Z.eqb_eq in E. rewrite E. done.
  - apply Z.eqb_neq in E.
    assert ((a mod D * s =? 0) = false) as -> by (apply Z.eqb_neq; nia).
    f_equal. rewrite Z.mul_assoc. symmetry. apply Zmult_compare_compat_r. lia.
Qed.

Lemma rne_frac_scale a D s : 0 < s -> 0 < D ->
  rne_frac (a * s) (D * s) = rne_frac a D.
Proof.
  intros Hs HD. unfold rne_frac.
  rewrite loc_frac_scale by done.
  by rewrite Z.div_mul_cancel_r by lia.
Qed.

Lemma rne_frac_bounds a D : a / D <= rne_frac a D <= a / D + 1.
Proof.
  unfold rne_frac, round_nearest_even.
  destruct (loc_frac a D) as [|[]]; try lia.
  destruct (Z.even (a / D)); lia.
Qed.

(** The rounded mantissa is within half a unit of the fraction. *)
Lemma rne_frac_near a D : 0 < D ->
  2 * a - D <= 2 * D * rne_frac a D <= 2 * a + D.
Proof.
  intros HD. unfold rne_frac, round_nearest_even, loc_frac.
  pose proof (Z.div_mod a D ltac:(lia)).
  pose proof (Z.mod_pos_bound a D HD).
  destruct (a mod D =? 0) eqn:E; [apply Z.eqb_eq in E; nia|].
  destruct (2 * (a mod D) ?= D) eqn:C.
  - apply Z.compare_eq_iff in C. destruct (Z.even (a / D)); nia.
  - change (2 * (a mod D) < D) in C. lia.
  - apply Z.compare_gt_iff in C. lia.
Qed.

Lemma rne_frac_exact q D : 0 < D -> rne_frac (q * D) D = q.
Proof.
  intros HD. unfold rne_frac, loc_frac.
  rewrite Z.mod_mul by lia. simpl. by rewrite Z.div_mul by lia.
Qed.

(** Rounding to nearest is monotone in the fraction. *)
Lemma rne_frac_mono a1 D1 a2 D2 :
  0 < D1 -> 0 < D2 -> a1 * D2 <= a2 * D1 ->
  rne_frac a1 D1 <= rne_frac a2 D2.
Proof.
  intros H1 H2 Hle.
  pose proof (Z.div_mod a1 D1 ltac:(lia)) as E1.
  pose proof (Z.mod_pos_bound a1 D1 H1) as B1.
  pose proof (Z.div_mod a2 D2 ltac:(lia)) as E2.
  pose proof (Z.mod_pos_bound a2 D2 H2) as B2.
  assert (a1 / D1 <= a2 / D2) as Hq.
  { destruct (Z.le_gt_cases (a1 / D1) (a2 / D2)); [done|].
    assert (D1 * (a2 / D2 + 1) <= a1) by nia.
    assert (a2 + 1 <= D2 * (a2 / D2 + 1)) by lia.
    assert (D1 * (a2 / D2 + 1) * D2 <= a1 * D2)
      by (apply Z.mul_le_mono_nonneg_r; lia).
    assert ((a2 + 1) * D1 <= D2 * (a2 / D2 + 1) * D1)
      by (apply Z.mul_le_mono_nonneg_r; lia).
    lia. }
  pose proof (rne_frac_bounds a1 D1). pose proof (rne_frac_bounds a2 D2).
  destruct (Z.eq_dec (a1 / D1) (a2 / D2)) as [Heq|Hne]; [|lia].
  assert (a1 mod D1 * D2 <= a2 mod D2 * D1) as Hr by nia.
  unfold rne_frac, round_nearest_even, loc_frac in *.
  rewrite <- Heq in *.
  destruct (a1 mod D1 =? 0) eqn:Z1.
  { destruct (a2 mod D2 =? 0); [lia|].
    destruct (2 * (a2 mod D2) ?= D2); [destruct (Z.even _)|..]; lia. }
  apply Z.eqb_neq in Z1.
  assert ((a2 mod D2 =? 0) = false) as -> by (apply Z.eqb_neq; nia).
  destruct (2 * (a1 mod D1) ?= D1) eqn:C1.
  - apply Z.compare_eq_iff in C1.
    destruct (2 * (a2 mod D2) ?= D2) eqn:C2.
    + lia.
    + change (2 * (a2 mod D2) < D2) in C2. nia.
    + destruct (Z.even _); lia.
  - destruct (2 * (a2 mod D2) ?= D2); [destruct (Z.even _)|..]; lia.
  - apply Z.compare_gt_iff in C1.
    destruct (2 * (a2 mod D2) ?= D2) eqn:C2.
    + apply Z.compare_eq_iff in C2. nia.
    + change (2 * (a2 mod D2) < D2) in C2. nia.
    + lia.
Qed.

Lemma pow2_le_iff a b : 0 <= b -> 2 ^ a <= 2 ^ b <-> a <= b.
Proof. intros. symmetry. apply Z.pow_le_mono_r_iff; lia. Qed.

Lemma pow2_lt_iff a b : 0 <= b -> 2 ^ a < 2 ^ b <-> a < b.
Proof. intros. symmetry. apply Z.pow_lt_mono_r_iff; lia. Qed.

(** The number of digits of a scaled quotient. *)
Lemma Zdigits2_div_scale a d t :
  0 < d -> 0 <= t -> 0 < a / d ->
  Zdigits2 (a * 2 ^ t / d) = Zdigits2 (a / d) + t.
Proof.
  intros Hd Ht Hq.
  pose proof (Zdigits2_bounds _ Hq) as [Hl Hu].
  pose proof (Zdigits2_pos _ Hq) as Hdp.
  pose proof (pow2_pos t Ht) as Hpt.
  assert (0 <= a) as Ha.
  { destruct (Z.le_gt_cases 0 a); [done|].
    pose proof (Z.div_lt_upper_bound a d 0 Hd ltac:(lia)). lia. }
  assert (2 ^ (Zdigits2 (a / d) + t - 1) <= a * 2 ^ t / d) as Hl'.
  { apply Z.div_le_lower_bound; [done|].
    replace (Zdigits2 (a / d) + t - 1) with ((Zdigits2 (a / d) - 1) + t) by lia.
    rewrite Z.pow_add_r by lia.
    pose proof (Z.mul_div_le a d Hd).
    assert (d * 2 ^ (Zdigits2 (a / d) - 1) <= a) by nia.
    rewrite Z.mul_assoc. apply Z.mul_le_mono_nonneg_r; lia. }
  assert (a * 2 ^ t / d < 2 ^ (Zdigits2 (a / d) + t)) as Hu'.
  { apply Z.div_lt_upper_bound; [done|].
    rewrite Z.pow_add_r by lia.
    assert (a < d * 2 ^ Zdigits2 (a / d)).
    { pose proof (Z.div_mod a d ltac:(lia)). pose proof (Z.mod_pos_bound a d Hd). nia. }
    rewrite Z.mul_assoc. apply Z.mul_lt_mono_pos_r; lia. }
  apply Zdigits2_unique; [done|].
  pose proof (pow2_pos (Zdigits2 (a / d) + t - 1) ltac:(lia)). lia.
Qed.

Lemma shr_fexp_loc a d e :
  0 < d -> 2 ^ 52 <= a / d -> -1074 <= Zdigits2 (a / d) + e - 53 ->
  let n := Zdigits2 (a / d) - 53 in
  shr_fexp 53 1024 (a / d) e (loc_frac a d)
  = (shr_record_of_loc (a / (d * 2 ^ n)) (loc_frac a (d * 2 ^ n)), e + n).
Proof.
  intros Hd Hm Hnorm n.
  assert (0 < a / d) as Hq by (pose proof (pow2_pos 52); lia).
  assert (0 <= a) as Ha.
  { destruct (Z.le_gt_cases 0 a); [done|].
    pose proof (Z.div_lt_upper_bound a d 0 Hd ltac:(lia)). lia. }
  pose proof (Zdigits2_bounds _ Hq) as [Hl Hu].
  assert (52 < Zdigits2 (a / d)) as Hdm.
  { apply (proj1 (pow2_lt_iff 52 _ (Zdigits2_nonneg _))). lia. }
  unfold shr_fexp, fexp, emin, shr.
  replace (Z.max (Zdigits2 (a / d) + e - 53) (3 - 1024 - 53) - e) with n by lia.
  destruct n as [|p|p] eqn:En; try lia.
  - rewrite Z.mul_1_r, Z.add_0_r. done.
  - by rewrite iter_pos_shr_1_loc.
Qed.

Lemma shr_fexp_exact_53 m e :
  2 ^ 52 <= m < 2 ^ 53 -> -1074 <= e ->
  shr_fexp 53 1024 m e loc_Exact = (Build_shr_record m false false, e).
Proof.
  intros Hm He.
  assert (Zdigits2 m = 53) as Hd.
  { apply Zdigits2_unique; [simpl (53 - 1)|]; lia. }
  unfold shr_fexp, fexp, emin. rewrite Hd.
  by replace (Z.max (53 + e - 53) (3 - 1024 - 53) - e) with 0 by lia.
Qed.

Lemma shr_fexp_exact_carry e :
  -1074 <= e ->
  shr_fexp 53 1024 (2 ^ 53) e loc_Exact
  = (Build_shr_record (2 ^ 52) false false, e + 1).
Proof.
  intros He. unfold shr_fexp, fexp, emin.
  change (Zdigits2 (2 ^ 53)) with 54.
  by replace (Z.max (54 + e - 53) (3 - 1024 - 53) - e) with 1 by lia.
Qed.

Lemma binary_round_aux_normal a d e :
  0 < d -> 0 <= e + K -> 2 ^ 52 <= a / d ->
  -1074 <= Zdigits2 (a / d) + e - 53 ->
  rnd (a * 2 ^ (e + K)) d < 2 ^ (1024 + K) ->
  let r := binary_round_aux 53 1024 false (a / d) e (loc_frac a d) in
  fnormal r /\ fval r = rnd (a * 2 ^ (e + K)) d.
Proof.
  intros Hd He Hm Hnorm Hov.
  assert (0 < a / d) as Hq by (pose proof (pow2_pos 52); lia).
  assert (0 <= a) as Ha.
  { destruct (Z.le_gt_cases 0 a); [done|].
    pose proof (Z.div_lt_upper_bound a d 0 Hd ltac:(lia)). lia. }
  pose proof (Zdigits2_bounds _ Hq) as [Hl Hu].
  assert (52 < Zdigits2 (a / d)) as Hdm.
  { apply (proj1 (pow2_lt_iff 52 _ (Zdigits2_nonneg _))). lia. }
  set (n := Zdigits2 (a / d) - 53) in *.
  set (e1 := e + n).
  set (m1 := rne_frac a (d * 2 ^ n)).
  pose proof (pow2_pos n ltac:(lia)) as Hpn.
  (* the rounded mantissa *)
  assert (2 ^ 52 <= a / (d * 2 ^ n) < 2 ^ 53) as Hm'.
  { rewrite <- Z.div_div by lia. split.
    - apply Z.div_le_lower_bound; [done|].
      rewrite <- Z.pow_add_r by lia.
      replace (n + 52) with (Zdigits2 (a / d) - 1) by lia. done.
    - apply Z.div_lt_upper_bound; [done|].
      rewrite <- Z.pow_add_r by lia.
      replace (n + 53) with (Zdigits2 (a / d)) by lia. done. }
  pose proof (rne_frac_bounds a (d * 2 ^ n)) as Hm1. fold m1 in Hm1.
  assert (2 ^ 52 <= m1 <= 2 ^ 53) as Hm1b by lia.
  (* the value of the rounding function *)
  assert (rnd (a * 2 ^ (e + K)) d = m1 * 2 ^ (e1 + K)) as Hrnd.
  { unfold rnd, cexp. rewrite Zdigits2_div_scale by done.
    replace (Zdigits2 (a / d) + (e + K) - 53) with (n + (e + K)) by lia.
    replace (e1 + K) with (n + (e + K)) by lia.
    replace (d * 2 ^ (n + (e + K))) with (d * 2 ^ n * 2 ^ (e + K))
      by (rewrite (Z.pow_add_r 2 n) by lia; lia).
    rewrite rne_frac_scale; [done|by apply pow2_pos|lia]. }
  rewrite Hrnd in *. clear Hrnd.
  assert (-1074 <= e1) as He1 by lia.
  assert (e1 <= 971 /\ (m1 = 2 ^ 53 -> e1 <= 970)) as Hbound.
  { assert (2 ^ (52 + (e1 + K)) < 2 ^ (1024 + K)) as Hlt.
    { rewrite Z.pow_add_r by lia.
      eapply Z.le_lt_trans; [|exact Hov].
      apply Z.mul_le_mono_nonneg_r; [apply Z.pow_nonneg|]; lia. }
    apply (proj1 (pow2_lt_iff _ (1024 + K) ltac:(unfold K; lia))) in Hlt.
    split; [lia|]. intros Heq.
    assert (2 ^ (53 + (e1 + K)) < 2 ^ (1024 + K)) as Hlt2.
    { rewrite Z.pow_add_r by lia. rewrite <- Heq. done. }
    apply (proj1 (pow2_lt_iff _ (1024 + K) ltac:(unfold K; lia))) in Hlt2. lia. }
  unfold binary_round_aux.
  rewrite shr_fexp_loc by done. fold n e1.
  rewrite shr_record_of_loc_m, loc_of_shr_record_of_loc.
  change (round_nearest_even (a / (d * 2 ^ n)) (loc_frac a (d * 2 ^ n))) with m1.
  destruct (Z.eq_dec m1 (2 ^ 53)) as [Heq|Hne].
  - (* the mantissa overflows to 2^53 and is renormalised *)
    rewrite Heq, shr_fexp_exact_carry by done.
    change (2 ^ 52) with (Z.pos 4503599627370496).
    cbv beta iota zeta delta [shr_m].
    assert ((e1 + 1 <=? 1024 - 53) = true) as -> by (apply Z.leb_le; lia).
    split.
    + simpl. lia.
    + unfold fval. change (Z.pos 4503599627370496) with (2 ^ 52).
      replace (e1 + 1 + K) with (1 + (e1 + K)) by lia.
      rewrite (Z.pow_add_r 2 1) by lia. lia.
  - assert (2 ^ 52 <= m1 < 2 ^ 53) as Hm1' by lia.
    rewrite shr_fexp_exact_53 by done.
    cbv beta iota zeta delta [shr_m].
    destruct m1 as [|pm|pm] eqn:Em1; try lia.
    assert ((e1 <=? 1024 - 53) = true) as -> by (apply Z.leb_le; lia).
    split.
    + simpl. lia.
    + done.
Qed.

(** ** The rounding function [rnd] *)

Lemma div_frac_mono a1 D1 a2 D2 :
  0 < D1 -> 0 < D2 -> a1 * D2 <= a2 * D1 -> a1 / D1 <= a2 / D2.
Proof.
  intros H1 H2 Hle.
  pose proof (Z.div_mod a1 D1 ltac:(lia)) as E1.
  pose proof (Z.mod_pos_bound a1 D1 H1) as B1.
  pose proof (Z.div_mod a2 D2 ltac:(lia)) as E2.
  pose proof (Z.mod_pos_bound a2 D2 H2) as B2.
  destruct (Z.le_gt_cases (a1 / D1) (a2 / D2)); [done|].
  assert (D1 * (a2 / D2 + 1) <= a1) by nia.
  assert (a2 + 1 <= D2 * (a2 / D2 + 1)) by lia.
  assert (D1 * (a2 / D2 + 1) * D2 <= a1 * D2)
    by (apply Z.mul_le_mono_nonneg_r; lia).
  assert ((a2 + 1) * D1 <= D2 * (a2 / D2 + 1) * D1)
    by (apply Z.mul_le_mono_nonneg_r; lia).
  lia.
Qed.

Lemma rnd_scale A B s : 0 < s -> 0 < B -> rnd (A * s) (B * s) = rnd A B.
Proof.
  intros Hs HB. unfold rnd, cexp.
  rewrite Z.div_mul_cancel_r by lia.
  set (c := Zdigits2 (A / B) - 53).
  destruct (Z.le_gt_cases 0 c) as [Hc|Hc].
  - replace (B * s * 2 ^ c) with (B * 2 ^ c * s) by lia.
    rewrite rne_frac_scale; [done..|].
    pose proof (pow2_pos c Hc). nia.
  - rewrite (Z.pow_neg_r 2 c) by lia. lia.
Qed.

(** A 53-bit mantissa at a non-negative exponent is a fixed point. *)
Lemma rnd_exact M j :
  2 ^ 52 <= M < 2 ^ 53 -> 0 <= j -> rnd (M * 2 ^ j) 1 = M * 2 ^ j.
Proof.
  intros HM Hj. unfold rnd, cexp. rewrite Z.div_1_r, Z.mul_1_l.
  pose proof (pow2_pos j Hj) as Hp.
  assert (Zdigits2 (M * 2 ^ j) = 53 + j) as ->.
  { apply Zdigits2_unique; [|nia].
    replace (53 + j - 1) with (52 + j) by lia.
    rewrite !Z.pow_add_r by lia. nia. }
  replace (53 + j - 53) with j by lia.
  by rewrite rne_frac_exact.
Qed.

(** Every integer below [2^53], scaled by at least [2^52], is a fixed
    point. *)
Lemma rnd_exact_int i j :
  0 < i < 2 ^ 53 -> 52 <= j -> rnd (i * 2 ^ j) 1 = i * 2 ^ j.
Proof.
  intros Hi Hj.
  pose proof (Zdigits2_bounds i ltac:(lia)) as [Hl Hu].
  pose proof (Zdigits2_pos i ltac:(lia)) as Hd.
  assert (Zdigits2 i <= 53) as Hd53.
  { destruct (Z.le_gt_cases (Zdigits2 i) 53); [done|].
    assert (2 ^ 53 <= 2 ^ (Zdigits2 i - 1)) by (apply Z.pow_le_mono_r; lia).
    lia. }
  set (k := 53 - Zdigits2 i) in *.
  replace (i * 2 ^ j) with (i * 2 ^ k * 2 ^ (j - k)).
  2:{ rewrite <- Z.mul_assoc, <- Z.pow_add_r by lia. f_equal. f_equal. lia. }
  apply rnd_exact; [|lia].
  pose proof (pow2_pos k ltac:(lia)).
  split.
  - replace 52 with (Zdigits2 i - 1 + k) by lia.
    rewrite Z.pow_add_r by lia. nia.
  - replace 53 with (Zdigits2 i + k) by lia.
    rewrite Z.pow_add_r by lia. nia.
Qed.

Section rnd_facts.
Variables A B : Z.
Hypothesis HB : 0 < B.
Hypothesis Hnorm : 2 ^ 52 <= A / B.

Lemma rnd_facts_aux :
  0 <= cexp A B /\ 0 < A / B /\
  B * 2 ^ (cexp A B + 52) <= A < B * 2 ^ (cexp A B + 53).
Proof.
  set (c := cexp A B).
  assert (0 < A / B) as Hq by lia.
  pose proof (Zdigits2_bounds _ Hq) as [Hl Hu].
  assert (52 < Zdigits2 (A / B)).
  { apply (proj1 (pow2_lt_iff 52 _ (Zdigits2_nonneg _))). lia. }
  replace (c + 52) with (Zdigits2 (A / B) - 1) by (unfold c, cexp; lia).
  replace (c + 53) with (Zdigits2 (A / B)) by (unfold c, cexp; lia).
  pose proof (Z.div_mod A B ltac:(lia)).
  pose proof (Z.mod_pos_bound A B HB).
  unfold c, cexp. repeat split; [lia|lia|nia|nia].
Qed.

Lemma rnd_lower : 2 ^ (cexp A B + 52) <= rnd A B.
Proof.
  destruct rnd_facts_aux as (Hc & Hq & Hl & Hu).
  unfold rnd. set (c := cexp A B) in *. pose proof (pow2_pos c Hc) as Hp.
  rewrite Z.pow_add_r by lia. rewrite (Z.mul_comm (2 ^ c)).
  apply Z.mul_le_mono_nonneg_r; [lia|].
  etransitivity; [|apply rne_frac_bounds].
  apply Z.div_le_lower_bound; [nia|].
  rewrite Z.pow_add_r in Hl by lia. lia.
Qed.

Lemma rnd_upper : rnd A B <= 2 ^ (cexp A B + 53).
Proof.
  destruct rnd_facts_aux as (Hc & Hq & Hl & Hu).
  unfold rnd. set (c := cexp A B) in *. pose proof (pow2_pos c Hc) as Hp.
  rewrite Z.pow_add_r by lia. rewrite (Z.mul_comm (2 ^ c)).
  apply Z.mul_le_mono_nonneg_r; [lia|].
  rewrite <- (rne_frac_exact (2 ^ 53) (B * 2 ^ c)) by nia.
  apply rne_frac_mono; [nia..|].
  rewrite Z.pow_add_r in Hu by lia.
  apply Z.mul_le_mono_nonneg_r; [nia|]. lia.
Qed.

(** The relative error of one rounding is at most [2^-53]. *)
Lemma rnd_error :
  A * (2 ^ 53 - 1) <= rnd A B * B * 2 ^ 53 <= A * (2 ^ 53 + 1).
Proof.
  destruct rnd_facts_aux as (Hc & Hq & Hl & Hu).
  unfold rnd. set (c := cexp A B) in *. pose proof (pow2_pos c Hc) as Hp.
  pose proof (rne_frac_near A (B * 2 ^ c) ltac:(nia)) as Hn.
  rewrite Z.pow_add_r in Hl by lia.
  set (r := rne_frac A (B * 2 ^ c)) in *.
  replace (2 ^ 53) with (2 * 2 ^ 52) by done.
  nia.
Qed.
End rnd_facts.

(** Rounding is monotone. *)
Lemma rnd_mono A1 B1 A2 B2 :
  0 < B1 -> 0 < B2 -> 2 ^ 52 <= A1 / B1 -> A1 * B2 <= A2 * B1 ->
  rnd A1 B1 <= rnd A2 B2.
Proof.
  intros H1 H2 Hn Hle.
  pose proof (div_frac_mono _ _ _ _ H1 H2 Hle) as Hq.
  assert (2 ^ 52 <= A2 / B2) as Hn2 by lia.
  pose proof (Zdigits2_mono (A1 / B1) (A2 / B2) ltac:(lia)) as Hd.
  destruct (rnd_facts_aux A1 B1 H1 Hn) as (Hc1 & _ & _ & _).
  destruct (rnd_facts_aux A2 B2 H2 Hn2) as (Hc2 & _ & _ & _).
  destruct (Z.eq_dec (Zdigits2 (A1 / B1)) (Zdigits2 (A2 / B2))) as [Heq|Hne].
  - unfold rnd, cexp in *. rewrite <- Heq.
    set (c := Zdigits2 (A1 / B1) - 53) in *.
    pose proof (pow2_pos c Hc1).
    apply Z.mul_le_mono_nonneg_r; [lia|].
    apply rne_frac_mono; [nia..|].
    rewrite !Z.mul_assoc. apply Z.mul_le_mono_nonneg_r; lia.
  - etransitivity; [by apply rnd_upper|].
    etransitivity; [|by apply rnd_lower].
    unfold cexp in *. apply Z.pow_le_mono_r; lia.
Qed.

(** ** The operations of [PyFloat] on normal numbers *)

Lemma new_location_loc_frac A b :
  0 < b -> new_location b (A mod b) = loc_frac A b.
Proof.
  intros Hb. pose proof (Z.mod_pos_bound A b Hb) as Hr.
  unfold new_location, new_location_even, new_location_odd, loc_frac.
  destruct (Z.even b) eqn:Eb; [done|].
  destruct (A mod b =? 0); [done|]. f_equal.
  rewrite <- Z.negb_odd in Eb. apply negb_false_iff, Z.odd_spec in Eb.
  destruct Eb as [k Hk].
  destruct (2 * (A mod b) + 1 ?= b) eqn:C1.
  - apply Z.compare_eq_iff in C1. symmetry. apply Z.compare_lt_iff. lia.
  - change (2 * (A mod b) + 1 < b) in C1. symmetry. apply Z.compare_lt_iff. lia.
  - apply Z.compare_gt_iff in C1. symmetry. apply Z.compare_gt_iff. lia.
Qed.

Lemma SFdiv_core_binary_loc a b :
  0 < a -> 0 < b -> Zdigits2 b <= Zdigits2 a + 1021 ->
  exists s e',
    0 <= s /\ s + e' = 0 /\ -1074 <= e' /\ 2 ^ 52 <= a * 2 ^ s / b /\
    SFdiv_core_binary 53 1024 a 0 b 0
    = (a * 2 ^ s / b, e', loc_frac (a * 2 ^ s) b).
Proof.
  intros Ha Hb Hd.
  pose proof (Zdigits2_bounds a Ha) as [Hal Hau].
  pose proof (Zdigits2_bounds b Hb) as [Hbl Hbu].
  pose proof (Zdigits2_pos a Ha). pose proof (Zdigits2_pos b Hb).
  set (e' := Z.min (Zdigits2 a - Zdigits2 b - 53) 0).
  exists (- e'), e'.
  assert (0 <= - e') as Hs by lia.
  pose proof (pow2_pos (- e') Hs) as Hps.
  assert (2 ^ 52 <= a * 2 ^ (- e') / b) as Hq.
  { apply Z.div_le_lower_bound; [done|].
    assert (b * 2 ^ 52 <= 2 ^ (Zdigits2 b + 52)).
    { rewrite Z.pow_add_r by lia. nia. }
    assert (2 ^ (Zdigits2 a - 1 + - e') <= a * 2 ^ (- e')).
    { rewrite Z.pow_add_r by lia. nia. }
    assert (2 ^ (Zdigits2 b + 52) <= 2 ^ (Zdigits2 a - 1 + - e')).
    { apply Z.pow_le_mono_r; lia. }
    lia. }
  repeat split; [lia..|done|].
  unfold SFdiv_core_binary, fexp, emin.
  replace (Z.min (Z.max (Zdigits2 a + 0 - (Zdigits2 b + 0) - 53) (3 - 1024 - 53)) (0 - 0))
    with e' by lia.
  replace (0 - 0 - e') with (- e') by lia.
  assert (match - e' with
          | 0 => a
          | Z.pos _ => Z.shiftl a (- e')
          | Z.neg _ => 0
          end = a * 2 ^ (- e')) as ->.
  { destruct (- e') as [|p|p] eqn:E; [lia| |lia].
    by rewrite Z.shiftl_mul_pow2 by lia. }
  rewrite <- new_location_loc_frac by done. unfold Z.div, Z.modulo.
  by destruct (Z.div_eucl (a * 2 ^ (- e')) b).
Qed.

Lemma int_truediv_normal a b :
  0 < a -> 0 < b -> Zdigits2 b <= Zdigits2 a + 1021 ->
  rnd (a * 2 ^ K) b < 2 ^ (1024 + K) ->
  exists f, PyFloat.int_truediv a b = Ok f /\ fnormal f /\
            fval f = rnd (a * 2 ^ K) b.
Proof.
  intros Ha Hb Hd Hov.
  destruct (SFdiv_core_binary_loc a b Ha Hb Hd)
    as (s & e' & Hs & Hse & He' & Hq & Hcore).
  assert (a * 2 ^ s * 2 ^ (e' + K) = a * 2 ^ K) as Hval.
  { rewrite <- Z.mul_assoc, <- Z.pow_add_r by (unfold K; lia).
    f_equal. f_equal. lia. }
  pose proof (Zdigits2_bounds (a * 2 ^ s / b)
                ltac:(pose proof (pow2_pos 52); lia)) as [_ Hu].
  assert (52 < Zdigits2 (a * 2 ^ s / b)).
  { apply (proj1 (pow2_lt_iff 52 _ (Zdigits2_nonneg _))). lia. }
  destruct (binary_round_aux_normal (a * 2 ^ s) b e') as [Hn Hv];
    [done|unfold K; lia|done|lia|by rewrite Hval|].
  rewrite Hval in Hv.
  unfold PyFloat.int_truediv.
  assert ((b =? 0) = false) as -> by (apply Z.eqb_neq; lia).
  destruct a as [|pa|pa]; try lia. destruct b as [|pb|pb]; try lia.
  unfold PyFloat.exact, SFdiv, PyFloat.prec, PyFloat.emax.
  rewrite Hcore. simpl xorb.
  destruct (binary_round_aux 53 1024 false _ e' _) as [| | |[] m e] eqn:Er;
    try done.
  eexists. split; [done|]. by split.
Qed.

Lemma binary_round_aux_exact a e :
  0 <= e + K -> 2 ^ 52 <= a -> -1074 <= Zdigits2 a + e - 53 ->
  rnd (a * 2 ^ (e + K)) 1 < 2 ^ (1024 + K) ->
  let r := binary_round_aux 53 1024 false a e loc_Exact in
  fnormal r /\ fval r = rnd (a * 2 ^ (e + K)) 1.
Proof.
  intros He Ha Hn Hov.
  pose proof (binary_round_aux_normal a 1 e) as H.
  rewrite Z.div_1_r in H. unfold loc_frac in H. rewrite Z.mod_1_r in H.
  by apply H.
Qed.

Lemma pos_iter_xO p k : Z.pos (Pos.iter xO p k) = Z.pos p * 2 ^ Z.pos k.
Proof.
  induction k as [|k IH] using Pos.peano_ind.
  - simpl. lia.
  - rewrite Pos.iter_succ, Pos2Z.inj_xO, IH, Pos2Z.inj_succ.
    rewrite Z.pow_succ_r by lia. lia.
Qed.

Lemma float_of_int_normal i :
  0 < i -> rnd (i * 2 ^ K) 1 < 2 ^ (1024 + K) ->
  exists f, PyFloat.float_of_int i = Ok f /\ fnormal f /\
            fval f = rnd (i * 2 ^ K) 1.
Proof.
  intros Hi Hov.
  pose proof (Zdigits2_bounds i Hi) as [Hl Hu].
  pose proof (Zdigits2_pos i Hi) as Hd.
  destruct i as [|p|p]; try lia.
  unfold PyFloat.float_of_int, binary_normalize, binary_round, shl_align,
    fexp, emin, PyFloat.prec, PyFloat.emax.
  change (Z.pos (digits2_pos p)) with (Zdigits2 (Z.pos p)).
  set (d := Zdigits2 (Z.pos p)) in *.
  replace (Z.max (d + 0 - 53) (3 - 1024 - 53) - 0) with (d - 53) by lia.
  replace (Z.max (d + 0 - 53) (3 - 1024 - 53)) with (d - 53) by lia.
  assert (exists a e, (match d - 53 with
                       | Z.neg k => (Pos.iter xO p k, d - 53)
                       | _ => (p, 0)
                       end) = (a, e) /\ Z.pos a * 2 ^ (e + K) = Z.pos p * 2 ^ K /\
                      0 <= e + K /\ 2 ^ 52 <= Z.pos a /\
                      -1074 <= Zdigits2 (Z.pos a) + e - 53)
    as (a & e & -> & Hval & He & Ha & Hn).
  { destruct (d - 53) as [|k|k] eqn:Ek.
    - exists p, 0. split_and!; fold d; [done|done|unfold K; lia| |lia].
      replace 52 with (d - 1) by lia. done.
    - exists p, 0. split_and!; fold d; [done|done|unfold K; lia| |lia].
      etransitivity; [|exact Hl]. apply Z.pow_le_mono_r; lia.
    - exists (Pos.iter xO p k), (d - 53).
      rewrite pos_iter_xO.
      assert (Z.pos k = 53 - d) as -> by lia.
      pose proof (pow2_pos (53 - d) ltac:(lia)) as Hp.
      assert (2 ^ 52 <= Z.pos p * 2 ^ (53 - d) < 2 ^ 53) as Hm.
      { assert (2 ^ 52 = 2 ^ (d - 1) * 2 ^ (53 - d)) as ->
          by (rewrite <- Z.pow_add_r by lia; f_equal; lia).
        assert (2 ^ 53 = 2 ^ d * 2 ^ (53 - d)) as ->
          by (rewrite <- Z.pow_add_r by lia; f_equal; lia).
        split; [apply Z.mul_le_mono_nonneg_r|apply Z.mul_lt_mono_pos_r]; lia. }
      split_and!.
      + by rewrite Ek.
      + rewrite <- Z.mul_assoc, <- Z.pow_add_r by (unfold K; lia).
        f_equal. f_equal. lia.
      + unfold K; lia.
      + lia.
      + rewrite (Zdigits2_unique _ 53); [lia|simpl (53 - 1); lia|lia]. }
  destruct (binary_round_aux_exact (Z.pos a) e) as [Hfn Hfv];
    [done..|by rewrite Hval|].
  rewrite Hval in Hfv.
  destruct (binary_round_aux 53 1024 false _ e _) as [| | |[] m em] eqn:Er;
    try done.
  eexists. split; [done|]. by split.
Qed.

Lemma fnormal_inv f :
  fnormal f ->
  exists m e, f = S754_finite false m e /\ 2 ^ 52 <= Z.pos m < 2 ^ 53 /\
              -1074 <= e <= 971 /\ fval f = Z.pos m * 2 ^ (e + K).
Proof. destruct f as [| | |[] m e]; try done. intros [? ?]. by exists m, e. Qed.

Lemma fnormal_val_bounds m e :
  2 ^ 52 <= m < 2 ^ 53 -> 0 <= e + K ->
  2 ^ (52 + (e + K)) <= m * 2 ^ (e + K) < 2 ^ (53 + (e + K)).
Proof.
  intros Hm He. pose proof (pow2_pos (e + K) He).
  rewrite (Z.pow_add_r 2 52), (Z.pow_add_r 2 53) by lia.
  split; [apply Z.mul_le_mono_nonneg_r|apply Z.mul_lt_mono_pos_r]; lia.
Qed.

Lemma mul_int_normal p i :
  fnormal p -> 0 < i < 2 ^ 53 ->
  rnd (fval p * i) 1 < 2 ^ (1024 + K) ->
  exists f, PyFloat.mul_int p i = Ok f /\ fnormal f /\
            fval f = rnd (fval p * i) 1.
Proof.
  intros Hp Hi Hov.
  destruct (float_of_int_normal i) as (fi & Hfi & Hni & Hvi); [lia|..].
  { rewrite rnd_exact_int by (unfold K; lia).
    assert (2 ^ (53 + K) <= 2 ^ (1024 + K))
      by (apply Z.pow_le_mono_r; unfold K; lia).
    pose proof (pow2_pos K ltac:(unfold K; lia)).
    rewrite Z.pow_add_r in * by (unfold K; lia). nia. }
  rewrite rnd_exact_int in Hvi by (unfold K; lia).
  unfold PyFloat.mul_int. rewrite Hfi. simpl rbind.
  destruct (fnormal_inv p Hp) as (mp & ep & -> & Hmp & Hep & Hvp).
  destruct (fnormal_inv fi Hni) as (mi & ei & -> & Hmi & Hei & Hvi').
  rewrite Hvi' in Hvi. rewrite Hvp in *. clear Hvp Hvi'.
  pose proof (pow2_pos K ltac:(unfold K; lia)) as HpK.
  assert (-52 <= ei) as Hei'.
  { pose proof (fnormal_val_bounds (Z.pos mi) ei Hmi ltac:(unfold K; lia))
      as [_ Hu].
    assert (2 ^ K < 2 ^ (53 + (ei + K))) as Hlt by nia.
    apply (proj1 (pow2_lt_iff K (53 + (ei + K)) ltac:(unfold K; lia))) in Hlt.
    lia. }
  assert (Z.pos mp * Z.pos mi * 2 ^ (ep + ei + K)
          = Z.pos mp * 2 ^ (ep + K) * i) as Hval.
  { apply (Z.mul_reg_r _ _ (2 ^ K)); [lia|].
    assert (2 ^ (ep + ei + K) * 2 ^ K = 2 ^ (ep + K) * 2 ^ (ei + K)) as Hpow.
    { rewrite <- !Z.pow_add_r by (unfold K; lia). f_equal. lia. }
    rewrite <- !Z.mul_assoc, Hpow, <- Hvi. ring. }
  assert (2 ^ 104 <= Z.pos mp * Z.pos mi) as Ha.
  { change (2 ^ 104) with (2 ^ 52 * 2 ^ 52).
    apply Z.mul_le_mono_nonneg; lia. }
  assert (104 < Zdigits2 (Z.pos mp * Z.pos mi)) as Hda.
  { pose proof (Zdigits2_bounds (Z.pos mp * Z.pos mi) ltac:(lia)) as [_ Hu].
    apply (proj1 (pow2_lt_iff 104 _ (Zdigits2_nonneg _))). lia. }
  destruct (binary_round_aux_exact (Z.pos mp * Z.pos mi) (ep + ei))
    as [Hfn Hfv].
  { unfold K; lia. }
  { etransitivity; [|exact Ha]. by apply Z.pow_le_mono_r. }
  { lia. }
  { by rewrite Hval. }
  rewrite Hval in Hfv.
  unfold SFmul, PyFloat.prec, PyFloat.emax. simpl xorb.
  rewrite Pos2Z.inj_mul.
  destruct (binary_round_aux 53 1024 false _ _ _) as [| | |[] m em] eqn:Er;
    try done.
  eexists. split; [done|]. by split.
Qed.

Lemma int_of_float_normal f :
  fnormal f -> PyFloat.int_of_float f = Ok (fval f / 2 ^ K).
Proof.
  intros Hf. destruct (fnormal_inv f Hf) as (m & e & -> & Hm & He & _).
  unfold PyFloat.int_of_float, fval. f_equal.
  destruct e as [|k|k].
  - rewrite Z.add_0_l. by rewrite Z.div_mul by (apply Z.pow_nonzero; unfold K; lia).
  - rewrite Z.pow_add_r by (unfold K; lia).
    rewrite Z.mul_assoc. by rewrite Z.div_mul by (apply Z.pow_nonzero; unfold K; lia).
  - assert (2 ^ K = 2 ^ Z.pos k * 2 ^ (Z.neg k + K)) as ->.
    { rewrite <- Z.pow_add_r by (unfold K; lia). f_equal. lia. }
    rewrite Z.div_mul_cancel_r; [done|apply Z.pow_nonzero; lia|].
    apply Z.pow_nonzero; unfold K; lia.
Qed.

Lemma SFltb_normal f g :
  fnormal f -> fnormal g -> SFltb f g = (fval f <? fval g).
Proof.
  intros Hf Hg.
  destruct (fnormal_inv f Hf) as (m1 & e1 & -> & Hm1 & He1 & _).
  destruct (fnormal_inv g Hg) as (m2 & e2 & -> & Hm2 & He2 & _).
  pose proof (fnormal_val_bounds _ e1 Hm1 ltac:(unfold K; lia)) as [Hl1 Hu1].
  pose proof (fnormal_val_bounds _ e2 Hm2 ltac:(unfold K; lia)) as [Hl2 Hu2].
  unfold SFltb, SFcompare, fval. symmetry.
  destruct (e1 ?= e2) eqn:C.
  - apply Z.compare_eq_iff in C. subst e2.
    pose proof (pow2_pos (e1 + K) ltac:(unfold K; lia)).
    rewrite Pos.compare_cont_spec. simpl Pos.switch_Eq.
    change (m1 ?= m2)%positive with (Z.pos m1 ?= Z.pos m2).
    destruct (Z.pos m1 ?= Z.pos m2) eqn:C'.
    + apply Z.compare_eq_iff in C'. rewrite C'. apply Z.ltb_irrefl.
    + change (Z.pos m1 < Z.pos m2) in C'. apply Z.ltb_lt.
      apply Z.mul_lt_mono_pos_r; lia.
    + apply Z.compare_gt_iff in C'. apply Z.ltb_ge.
      apply Z.mul_le_mono_nonneg_r; lia.
  - change (e1 < e2) in C. apply Z.ltb_lt.
    assert (2 ^ (53 + (e1 + K)) <= 2 ^ (52 + (e2 + K)))
      by (apply Z.pow_le_mono_r; lia).
    lia.
  - apply Z.compare_gt_iff in C. apply Z.ltb_ge.
    assert (2 ^ (53 + (e2 + K)) <= 2 ^ (52 + (e1 + K)))
      by (apply Z.pow_le_mono_r; lia).
    lia.
Qed.

(** ** The partition arithmetic of [create_segment_table] *)

Lemma pow2_K_pos : 0 < 2 ^ K.
Proof. apply pow2_pos. unfold K. lia. Qed.

Lemma rnd_pow2 j : 52 <= j -> rnd (2 ^ j) 1 = 2 ^ j.
Proof.
  intros Hj. replace (2 ^ j) with (2 ^ 52 * 2 ^ (j - 52)).
  - apply rnd_exact; [simpl; lia|lia].
  - rewrite <- Z.pow_add_r by lia. f_equal. lia.
Qed.

Lemma Zdigits2_le m k : 0 < m -> 0 <= k -> m < 2 ^ k -> Zdigits2 m <= k.
Proof.
  intros Hm Hk Hlt. pose proof (Zdigits2_bounds m Hm) as [Hl _].
  destruct (Z.le_gt_cases (Zdigits2 m) k); [done|].
  assert (2 ^ k <= 2 ^ (Zdigits2 m - 1)) by (apply Z.pow_le_mono_r; lia).
  lia.
Qed.

Section partition.
Variables size n : Z.
Hypothesis Hsize : 1 <= size < 2 ^ 1023.
Hypothesis Hn : 1 <= n <= 2 ^ 52.

Lemma quotient_normal : 2 ^ 52 <= size * 2 ^ K / n.
Proof.
  apply Z.div_le_lower_bound; [lia|].
  assert (2 ^ 52 * 2 ^ 52 <= 2 ^ K)
    by (rewrite <- Z.pow_add_r by lia; apply Z.pow_le_mono_r; unfold K; lia).
  pose proof pow2_K_pos.
  assert (n * 2 ^ 52 <= 2 ^ 52 * 2 ^ 52) by (apply Z.mul_le_mono_nonneg_r; lia).
  assert (1 * 2 ^ K <= size * 2 ^ K) by (apply Z.mul_le_mono_nonneg_r; lia).
  lia.
Qed.

Lemma partition_size_bound : partition_value size n <= 2 ^ (1023 + K).
Proof.
  unfold partition_value. rewrite <- (rnd_pow2 (1023 + K)) by (unfold K; lia).
  apply rnd_mono; [lia|lia|apply quotient_normal|].
  rewrite Z.pow_add_r by (unfold K; lia). pose proof pow2_K_pos.
  rewrite Z.mul_1_r.
  assert (size * 2 ^ K <= 2 ^ 1023 * 2 ^ K)
    by (apply Z.mul_le_mono_nonneg_r; lia).
  assert (2 ^ 1023 * 2 ^ K * 1 <= 2 ^ 1023 * 2 ^ K * n)
    by (apply Z.mul_le_mono_nonneg_l; lia).
  lia.
Qed.

Lemma partition_size_normal :
  exists p, PyFloat.int_truediv size n = Ok p /\ fnormal p /\ fval p = partition_value size n.
Proof.
  apply int_truediv_normal; [lia|lia| |].
  - pose proof (Zdigits2_le n 53 ltac:(lia) ltac:(lia)
                  ltac:(change (2 ^ 53) with (2 * 2 ^ 52); lia)).
    pose proof (Zdigits2_pos size ltac:(lia)). lia.
  - eapply Z.le_lt_trans; [apply partition_size_bound|].
    apply Z.pow_lt_mono_r; unfold K; lia.
Qed.

Lemma partition_size_lower : 2 ^ (K - 52) <= partition_value size n.
Proof.
  unfold partition_value. rewrite <- (rnd_pow2 (K - 52)) by (unfold K; lia).
  assert (2 ^ 52 <= 2 ^ (K - 52) / 1).
  { rewrite Z.div_1_r. apply Z.pow_le_mono_r; unfold K; lia. }
  apply rnd_mono; [lia|lia|done|].
  assert (2 ^ K = 2 ^ (K - 52) * 2 ^ 52) as Hk
    by (rewrite <- Z.pow_add_r by (unfold K; lia); f_equal; lia).
  pose proof (pow2_pos (K - 52) ltac:(unfold K; lia)).
  rewrite Z.mul_1_r.
  transitivity (1 * 2 ^ K); [|apply Z.mul_le_mono_nonneg_r; pose proof pow2_K_pos; lia].
  rewrite Hk. rewrite Z.mul_1_l. apply Z.mul_le_mono_nonneg_l; lia.
Qed.

Lemma partition_size_error : partition_value size n * n * 2 ^ 53 <= size * 2 ^ K * (2 ^ 53 + 1).
Proof. apply rnd_error; [lia|apply quotient_normal]. Qed.

Lemma product_normal i : 1 <= i -> 2 ^ 52 <= partition_value size n * i / 1.
Proof.
  intros Hi. rewrite Z.div_1_r. pose proof partition_size_lower.
  assert (2 ^ 52 <= 2 ^ (K - 52)) by (apply Z.pow_le_mono_r; unfold K; lia).
  nia.
Qed.

(** No product of the loop overflows. *)
Lemma product_bound i :
  1 <= i <= n -> rnd (partition_value size n * i) 1 < 2 ^ (1024 + K).
Proof.
  intros Hi.
  set (top := (2 ^ 52 + 1) * 2 ^ (971 + K)).
  assert (rnd top 1 = top) as Htop
    by (apply rnd_exact; [simpl; lia|unfold K; lia]).
  pose proof pow2_K_pos as HK.
  assert (2 ^ (971 + K) = 2 ^ 971 * 2 ^ K) as H971
    by (apply Z.pow_add_r; unfold K; lia).
  assert (2 ^ (1024 + K) = 2 ^ 1024 * 2 ^ K) as H1024
    by (apply Z.pow_add_r; unfold K; lia).
  assert (top < 2 ^ (1024 + K)) as Hlt.
  { unfold top. rewrite H971, H1024, Z.mul_assoc.
    apply Z.mul_lt_mono_pos_r; [done|]. by vm_compute. }
  eapply Z.le_lt_trans; [|exact Hlt]. rewrite <- Htop.
  apply rnd_mono; [lia|lia|by apply product_normal; lia|].
  rewrite !Z.mul_1_r.
  pose proof partition_size_error as He.
  pose proof partition_size_lower as Hl.
  assert (0 < 2 ^ (K - 52)) by (apply pow2_pos; unfold K; lia).
  assert (partition_value size n * i <= partition_value size n * n) by (apply Z.mul_le_mono_nonneg_l; lia).
  assert (size * 2 ^ K * (2 ^ 53 + 1) <= (2 ^ 1023 - 1) * 2 ^ K * (2 ^ 53 + 1)).
  { apply Z.mul_le_mono_nonneg_r; [lia|].
    apply Z.mul_le_mono_nonneg_r; lia. }
  assert ((2 ^ 1023 - 1) * (2 ^ 53 + 1) <= (2 ^ 52 + 1) * 2 ^ 971 * 2 ^ 53)
    by (by vm_compute).
  assert ((2 ^ 1023 - 1) * 2 ^ K * (2 ^ 53 + 1) <= top * 2 ^ 53).
  { unfold top. rewrite H971.
    replace ((2 ^ 1023 - 1) * 2 ^ K * (2 ^ 53 + 1))
      with ((2 ^ 1023 - 1) * (2 ^ 53 + 1) * 2 ^ K) by ring.
    replace ((2 ^ 52 + 1) * (2 ^ 971 * 2 ^ K) * 2 ^ 53)
      with ((2 ^ 52 + 1) * 2 ^ 971 * 2 ^ 53 * 2 ^ K) by ring.
    apply Z.mul_le_mono_nonneg_r; lia. }
  assert (partition_value size n * n * 2 ^ 53 <= top * 2 ^ 53) by lia.
  assert (partition_value size n * n <= top).
  { apply (Z.mul_le_mono_pos_r _ _ (2 ^ 53)); [by vm_compute|done]. }
  lia.
Qed.
End partition.

Section boundaries.
Variables size n : Z.
Hypothesis Hsize : 1 <= size < 2 ^ 1023.
Hypothesis Hn : 1 <= n <= 2 ^ 52.

Lemma boundary_0 : boundary size n 0 = 0.
Proof. done. Qed.

Lemma boundary_nonneg i : 0 <= i -> 0 <= boundary size n i.
Proof.
  intros Hi. unfold boundary. destruct (i =? 0); [done|].
  apply Z.div_pos; [|apply pow2_K_pos].
  unfold rnd at 1.
  apply Z.mul_nonneg_nonneg; [|apply Z.pow_nonneg; lia].
  etransitivity; [|apply rne_frac_bounds].
  set (c := cexp _ _).
  destruct (Z.le_gt_cases 0 c).
  - apply Z.div_pos; [|pose proof (pow2_pos c); lia].
    apply Z.mul_nonneg_nonneg; [|lia].
    pose proof (partition_size_lower size n Hsize Hn).
    pose proof (pow2_pos (K - 52) ltac:(unfold K; lia)). lia.
  - rewrite (Z.pow_neg_r 2 c) by lia. by rewrite Z.mul_0_r, Z.div_0_r.
Qed.

Lemma boundary_mono i j : 0 <= i <= j -> boundary size n i <= boundary size n j.
Proof.
  intros Hij. unfold boundary.
  destruct (i =? 0) eqn:Ei.
  { pose proof (boundary_nonneg j ltac:(lia)) as H. unfold boundary in H. done. }
  apply Z.eqb_neq in Ei.
  assert ((j =? 0) = false) as -> by (apply Z.eqb_neq; lia).
  apply Z.div_le_mono; [apply pow2_K_pos|].
  apply rnd_mono; [lia|lia|apply product_normal; [done..|lia]|].
  rewrite !Z.mul_1_r. apply Z.mul_le_mono_nonneg_l; [|lia].
  pose proof (partition_size_lower size n Hsize Hn).
  pose proof (pow2_pos (K - 52) ltac:(unfold K; lia)). lia.
Qed.

(** The last segment starts inside the resource or right behind it. *)
Lemma boundary_last : boundary size n (n - 1) <= size.
Proof.
  unfold boundary. destruct (n - 1 =? 0) eqn:E; [lia|].
  apply Z.eqb_neq in E.
  set (vp := partition_value size n).
  set (R := rnd (vp * (n - 1)) 1).
  pose proof pow2_K_pos as HK.
  pose proof (partition_size_error size n Hsize Hn) as He. fold vp in He.
  pose proof (partition_size_lower size n Hsize Hn) as Hl. fold vp in Hl.
  pose proof (pow2_pos (K - 52) ltac:(unfold K; lia)).
  assert (R * 1 * 2 ^ 53 <= vp * (n - 1) * (2 ^ 53 + 1)) as HR.
  { apply rnd_error; [lia|]. apply product_normal; [done..|lia]. }
  set (S := size * 2 ^ K) in *.
  assert (R <= S) as HRS.
  { remember (2 ^ 53) as c eqn:Ec.
    assert (0 < c) by (subst c; done).
    assert ((n - 1) * ((c + 1) * (c + 1)) <= n * (c * c)) as Hc.
    { assert (n - 1 <= 2 ^ 52 - 1) by lia.
      assert ((2 ^ 52 - 1) * (2 * c + 1) <= c * c) by (subst c; by vm_compute).
      nia. }
    assert (R * c * (n * c) <= vp * (n - 1) * (c + 1) * (n * c))
      by (apply Z.mul_le_mono_nonneg_r; nia).
    assert (vp * n * c * ((n - 1) * (c + 1)) <= S * (c + 1) * ((n - 1) * (c + 1)))
      by (apply Z.mul_le_mono_nonneg_r; nia).
    assert (0 <= S) by (unfold S; nia).
    assert (S * ((n - 1) * ((c + 1) * (c + 1))) <= S * (n * (c * c)))
      by (apply Z.mul_le_mono_nonneg_l; lia).
    assert (R * (n * (c * c)) <= S * (n * (c * c))) by lia.
    apply (Z.mul_le_mono_pos_r _ _ (n * (c * c))); [nia|done]. }
  transitivity (S / 2 ^ K); [by apply Z.div_le_mono|].
  unfold S. rewrite Z.div_mul by lia. done.
Qed.

Lemma segment_entry_boundary filepath p i :
  PyFloat.int_truediv size n = Ok p ->
  fnormal p -> fval p = partition_value size n ->
  0 <= i < n ->
  segment_entry filepath n p i = Ok (planned_row filepath size n i).
Proof.
  intros Hp Hnp Hvp Hi.
  assert (forall j, 0 <= j <= n ->
            (do f <- PyFloat.mul_int p j; PyFloat.int_of_float f)
            = Ok (boundary size n j)) as Hb.
  { intros j Hj. unfold boundary.
    destruct (j =? 0) eqn:Ej.
    - apply Z.eqb_eq in Ej. subst j.
      destruct (fnormal_inv p Hnp) as (mp & ep & -> & _). done.
    - apply Z.eqb_neq in Ej.
      destruct (mul_int_normal p j) as (f & -> & Hnf & Hvf); [done|..].
      + change (2 ^ 53) with (2 * 2 ^ 52). lia.
      + rewrite Hvp. apply product_bound; [done..|lia].
      + simpl rbind. rewrite int_of_float_normal by done.
        by rewrite Hvf, Hvp. }
  unfold segment_entry.
  pose proof (Hb i ltac:(lia)) as Hs.
  pose proof (Hb (i + 1) ltac:(lia)) as He.
  destruct (PyFloat.mul_int p i) as [fs|]; [|done]. simpl in Hs.
  destruct (PyFloat.mul_int p (i + 1)) as [fe|]; [|done]. simpl in He.
  simpl rbind. rewrite Hs. simpl rbind. rewrite He. simpl rbind.
  done.
Qed.
End boundaries.

(** * The segment table *)

(** ** The clamp of line 49 *)

Lemma float_of_int_Ok z f :
  PyFloat.float_of_int z = Ok f ->
  binary_normalize PyFloat.prec PyFloat.emax z 0 false = f.
Proof.
  unfold PyFloat.float_of_int. cbv zeta.
  destruct (PyFloat.is_infinity _); [done|]. by intros [= ->].
Qed.

Lemma to_mb_lt_50 size :
  0 <= size < 2 ^ 1023 ->
  exists mb, to_mb size = Ok mb /\
             PyFloat.lt_int mb 50 = (size <? 50 * MEGABYTE).
Proof.
  intros Hs. destruct (Z.eq_dec size 0) as [->|Hne].
  { eexists. split; [by vm_compute|]. by vm_compute. }
  pose proof pow2_K_pos as HK.
  assert (2 ^ K = 2 ^ (K - 20) * MEGABYTE) as HKM.
  { change MEGABYTE with (2 ^ 20).
    rewrite <- Z.pow_add_r by (unfold K; lia). f_equal; lia. }
  assert (0 < 2 ^ (K - 20)) as HK20 by (apply pow2_pos; unfold K; lia).
  assert (forall s, 0 < s -> rnd (s * 2 ^ K) MEGABYTE = rnd (s * 2 ^ (K - 20)) 1)
    as Hscale.
  { intros s Hs0. rewrite HKM, Z.mul_assoc.
    rewrite <- (Z.mul_1_l MEGABYTE) at 2. by apply rnd_scale. }
  assert (forall s, 0 < s -> 2 ^ 52 <= s * 2 ^ (K - 20) / 1) as Hnorm.
  { intros s Hs0. rewrite Z.div_1_r.
    assert (2 ^ 52 <= 2 ^ (K - 20)) by (apply Z.pow_le_mono_r; unfold K; lia).
    nia. }
  unfold to_mb.
  destruct (int_truediv_normal size MEGABYTE) as (mb & -> & Hn & Hv);
    [lia|done| |..].
  - change (Zdigits2 MEGABYTE) with 21.
    pose proof (Zdigits2_pos size ltac:(lia)). lia.
  - rewrite Hscale by lia.
    assert (2 ^ (1023 + K) < 2 ^ (1024 + K))
      by (apply Z.pow_lt_mono_r; unfold K; lia).
    eapply Z.le_lt_trans; [|done].
    rewrite <- (rnd_pow2 (1023 + K)) by (unfold K; lia).
    apply rnd_mono; [lia|lia|apply Hnorm; lia|].
    rewrite !Z.mul_1_r.
    replace (1023 + K) with (1043 + (K - 20)) by lia.
    rewrite Z.pow_add_r by (unfold K; lia).
    apply Z.mul_le_mono_nonneg_r; [lia|].
    assert (2 ^ 1023 <= 2 ^ 1043) by (by apply Z.pow_le_mono_r). lia.
  - exists mb. split; [done|].
    unfold PyFloat.lt_int.
    destruct (float_of_int_normal 50) as (f50 & H50 & Hn50 & Hv50); [done|..].
    { rewrite (rnd_exact_int 50 K) by (unfold K; lia).
      assert (2 ^ (1024 + K) = 2 ^ 1024 * 2 ^ K) as ->
        by (apply Z.pow_add_r; unfold K; lia).
      apply Z.mul_lt_mono_pos_r; [done|by vm_compute]. }
    rewrite (rnd_exact_int 50 K) in Hv50 by (unfold K; lia).
    rewrite (float_of_int_Ok _ _ H50).
    rewrite SFltb_normal by done. rewrite Hv, Hv50, Hscale by lia.
    assert (50 * 2 ^ K = 50 * MEGABYTE * 2 ^ (K - 20)) as -> by (rewrite HKM; ring).
    destruct (size <? 50 * MEGABYTE) eqn:E.
    + apply Z.ltb_lt in E. apply Z.ltb_lt.
      rewrite rnd_exact_int; [|split; [lia|]|unfold K; lia].
      * apply Z.mul_lt_mono_pos_r; lia.
      * eapply Z.lt_trans; [exact E|]. by vm_compute.
    + apply Z.ltb_ge in E. apply Z.ltb_ge.
      rewrite <- (rnd_exact_int (50 * MEGABYTE) (K - 20));
        [|by vm_compute|unfold K; lia].
      apply rnd_mono; [lia|lia|by apply Hnorm|].
      rewrite !Z.mul_1_r. apply Z.mul_le_mono_nonneg_r; lia.
Qed.

Lemma clamp_spec segments size :
  0 <= size < 2 ^ 1023 ->
  clamp segments size
  = Ok (if (5 <? segments) && (size <? 50 * MEGABYTE) then 5 else segments).
Proof.
  intros Hs. unfold clamp. destruct (5 <? segments); [|done].
  destruct (to_mb_lt_50 size Hs) as (mb & Hmb & Hlt).
  rewrite Hmb. simpl rbind. by rewrite Hlt.
Qed.

Lemma clamp_small segments size : segments <= 5 -> clamp segments size = Ok segments.
Proof.
  intros H. unfold clamp.
  by assert ((5 <? segments) = false) as -> by (apply Z.ltb_ge; lia).
Qed.

(** ** The loop over the segments *)

Lemma rmap_ext {A B} (f : A -> result B) (g : A -> B) xs :
  (forall x, x ∈ xs -> f x = Ok (g x)) -> rmap f xs = Ok (g <$> xs).
Proof.
  induction xs as [|x xs IH]; intros H; simpl; [done|].
  rewrite H by left. simpl. rewrite IH; [done|].
  intros y Hy. apply H. by right.
Qed.

Lemma rmap_lookup {A B} (f : A -> result B) xs ys (i : nat) y :
  rmap f xs = Ok ys -> ys !! i = Some y ->
  exists x, xs !! i = Some x /\ f x = Ok y.
Proof.
  revert ys i. induction xs as [|x xs IH]; intros ys i; simpl.
  - intros [= <-]. done.
  - destruct (f x) as [y0|] eqn:Ef; [|done]. simpl.
    destruct (rmap f xs) as [ys0|] eqn:Er; [|done]. simpl.
    intros [= <-]. destruct i as [|i]; simpl.
    + intros [= <-]. by exists x.
    + intros Hy. by eapply IH.
Qed.

Lemma rmap_length {A B} (f : A -> result B) xs ys :
  rmap f xs = Ok ys -> length ys = length xs.
Proof.
  revert ys. induction xs as [|x xs IH]; intros ys; simpl.
  - by intros [= <-].
  - destruct (f x) as [y0|]; [|done]. simpl.
    destruct (rmap f xs) as [ys0|]; [|done]. simpl.
    intros [= <-]. simpl. f_equal. by apply IH.
Qed.

Lemma create_segment_table_effective url filepath segments size etag fs :
  create_segment_table url filepath segments size etag fs
  = match effective_segments url filepath segments size etag fs with
    | Raise e => (fs, Raise e)
    | Ok n => (<[progress_path filepath := Manifest url etag n]> fs,
               build_table url filepath n size)
    end.
Proof.
  unfold create_segment_table, effective_segments.
  by destruct (clamp segments size).
Qed.

Lemma build_table_planned url filepath n size :
  1 <= size < 2 ^ 1023 -> 1 <= n <= 2 ^ 52 ->
  build_table url filepath n size
  = Ok {| dic_url := url; dic_segments := n;
          dic_rows := planned_row filepath size n <$> seqZ 0 n |}.
Proof.
  intros Hs Hn. unfold build_table.
  destruct (partition_size_normal size n Hs Hn) as (p & Hp & Hnp & Hvp).
  rewrite Hp. simpl rbind.
  rewrite (rmap_ext _ (planned_row filepath size n)); [done|].
  intros i Hi. apply elem_of_seqZ in Hi.
  apply (segment_entry_boundary size n Hs Hn filepath p i); [done..|lia].
Qed.

(** ** Tiling *)

Lemma chained_tiles rs : forall lo hi,
  chained lo hi rs = true ->
  lo <= hi /\
  (forall b, lo <= b <= hi - 1 ->
     exists i r, rs !! i = Some r /\ in_range r b) /\
  (forall (i : nat) r b, rs !! i = Some r -> in_range r b ->
     lo <= b <= hi - 1) /\
  (forall (i j : nat) r r' b,
     rs !! i = Some r -> rs !! j = Some r' ->
     in_range r b -> in_range r' b -> i = j).
Proof.
  induction rs as [|r rs IH]; intros lo hi; simpl.
  - intros ->%bool_decide_eq_true. split_and!; [lia|intros; lia|done..].
  - intros [[H1%bool_decide_eq_true H2%bool_decide_eq_true]%andb_true_iff
            Hc]%andb_true_iff.
    destruct (IH _ _ Hc) as (Hle & Hcov & Hin & Hno). unfold in_range in *.
    split_and!.
    + lia.
    + intros b Hb. destruct (Z.le_gt_cases b r.2) as [Hbr|Hbr].
      * exists 0%nat, r. split; [done|lia].
      * destruct (Hcov b ltac:(lia)) as (i & r' & Hi & Hr').
        by exists (S i), r'.
    + intros [|i] r' b Hr' Hb; simpl in Hr'.
      * injection Hr' as <-. lia.
      * specialize (Hin _ _ _ Hr' Hb). lia.
    + intros [|i] [|j] r1 r2 b Hi Hj Hb1 Hb2; simpl in Hi, Hj.
      * done.
      * injection Hi as <-. specialize (Hin _ _ _ Hj Hb2). lia.
      * injection Hj as <-. specialize (Hin _ _ _ Hi Hb1). lia.
      * f_equal. by eapply Hno.
Qed.

Lemma chained_planned filepath size n :
  1 <= size < 2 ^ 1023 -> 1 <= n <= 2 ^ 52 ->
  forall (m : nat) k,
    0 <= k -> k + Z.of_nat (S m) = n ->
    chained (boundary size n k) size
      (byte_ranges size (planned_row filepath size n <$> seqZ k (Z.of_nat (S m))))
    = true.
Proof.
  intros Hs Hn m. induction m as [|m IH]; intros k Hk Hkn.
  - assert (k = n - 1) as -> by lia.
    change (seqZ (n - 1) (Z.of_nat 1)) with [n - 1].
    change (byte_ranges size (planned_row filepath size n <$> [n - 1]))
      with [(boundary size n (n - 1), size - 1)].
    cbn [chained fst snd].
    pose proof (boundary_last size n Hs Hn).
    rewrite !bool_decide_eq_true_2; [done|lia..].
  - rewrite seqZ_cons by lia.
    replace (Z.pred (Z.of_nat (S (S m)))) with (Z.of_nat (S m)) by lia.
    rewrite fmap_cons.
    assert (forall r rs, rs <> [] ->
              byte_ranges size (r :: rs) = (start r, end_ r) :: byte_ranges size rs)
      as Hbr by (by intros r [|??]).
    rewrite Hbr by (rewrite seqZ_cons by lia; done).
    cbn [chained fst snd planned_row start end_].
    rewrite (bool_decide_eq_true_2 (k <> n - 1)) by lia.
    pose proof (boundary_mono size n Hs Hn k (k + 1) ltac:(lia)).
    rewrite !bool_decide_eq_true_2 by lia. cbn [andb].
    replace (boundary size n (k + 1) - 1 + 1) with (boundary size n (Z.succ k))
      by (unfold Z.succ; lia).
    apply IH; lia.
Qed.

Lemma planned_tiles filepath size n :
  1 <= size < 2 ^ 1023 -> 1 <= n <= 2 ^ 52 ->
  chained 0 size (byte_ranges size (planned_row filepath size n <$> seqZ 0 n))
  = true.
Proof.
  intros Hs Hn.
  pose proof (chained_planned filepath size n Hs Hn (Z.to_nat (n - 1)) 0) as H.
  replace (Z.of_nat (S (Z.to_nat (n - 1)))) with n in H by lia.
  apply H; lia.
Qed.

(** ** Properties of [create_segment_table] *)

(** C1, as amended.  For a resource of [1 <= size < 2^1023] bytes and an
    effective segment count [1 <= n <= 2^52], [create_segment_table]
    returns a table of [n] rows whose byte ranges, the last one taken up
    to the true last byte [size - 1], tile [[0, size - 1]]: every byte is
    in exactly one range and no range leaves the resource. *)
Theorem create_segment_table_tiles url filepath segments size etag fs n :
  1 <= size < 2 ^ 1023 ->
  effective_segments url filepath segments size etag fs = Ok n ->
  1 <= n <= 2 ^ 52 ->
  exists dic,
    snd (create_segment_table url filepath segments size etag fs) = Ok dic /\
    dic_segments dic = n /\
    length (dic_rows dic) = Z.to_nat n /\
    chained 0 size (byte_ranges size (dic_rows dic)) = true /\
    tiles size (byte_ranges size (dic_rows dic)).
Proof.
  intros Hs He Hn.
  rewrite create_segment_table_effective, He. simpl snd.
  rewrite build_table_planned by done.
  eexists. split; [done|]. simpl dic_segments. simpl dic_rows.
  pose proof (planned_tiles filepath size n Hs Hn) as Hc.
  split_and!; [done| |done|].
  - by rewrite length_fmap, length_seqZ.
  - destruct (chained_tiles _ _ _ Hc) as (_ & Hcov & Hin & Hno).
    by split_and!.
Qed.

Lemma create_segment_table_tiles_witness :
  1 <= 10 < 2 ^ 1023 /\
  effective_segments "u" "f" 3 10 EtagNone ∅ = Ok 3 /\
  1 <= 3 <= 2 ^ 52 /\
  exists dic,
    snd (create_segment_table "u" "f" 3 10 EtagNone ∅) = Ok dic /\
    dic_segments dic = 3 /\
    length (dic_rows dic) = Z.to_nat 3 /\
    chained 0 10 (byte_ranges 10 (dic_rows dic)) = true /\
    tiles 10 (byte_ranges 10 (dic_rows dic)).
Proof.
  assert (1 <= 10 < 2 ^ 1023) as H1 by (by vm_compute).
  assert (1 <= 3 <= 2 ^ 52) as H2 by (by vm_compute).
  refine (conj H1 (conj eq_refl (conj H2 _))).
  exact (create_segment_table_tiles "u" "f" 3 10 EtagNone ∅ 3 H1 eq_refl H2).
Defined.

(** C1 as stated fails: a size of [2^1024] bytes with one segment is a
    size [>= 1] with an effective count [>= 1], and no table is returned,
    because the quotient [size / segments] is too large for a [float]. *)
Lemma create_segment_table_overflow :
  1 <= 2 ^ 1024 /\
  effective_segments "u" "f" 1 (2 ^ 1024) EtagNone ∅ = Ok 1 /\
  snd (create_segment_table "u" "f" 1 (2 ^ 1024) EtagNone ∅)
  = Raise OverflowError /\
  ~ exists dic,
      snd (create_segment_table "u" "f" 1 (2 ^ 1024) EtagNone ∅) = Ok dic /\
      tiles (2 ^ 1024) (byte_ranges (2 ^ 1024) (dic_rows dic)).
Proof.
  assert (snd (create_segment_table "u" "f" 1 (2 ^ 1024) EtagNone ∅)
          = Raise OverflowError) as H by (by vm_compute).
  split_and!; [by vm_compute|by vm_compute|done|].
  intros (dic & Hd & _). by rewrite H in Hd.
Qed.

(** C2, as amended.  For [size = 1,000,000] and a requested count of 4 that
    no manifest overrides, the table has the four rows [[0, 249999]],
    [[250000, 499999]], [[500000, 749999]] and [[750000, 1000000]], each
    with [segment_size] 250000: the stored [end] of the last row is
    [size], not [size - 1]. *)
Theorem create_segment_table_1000000_by_4 url filepath etag fs :
  effective_segments url filepath 4 1000000 etag fs = Ok 4 ->
  snd (create_segment_table url filepath 4 1000000 etag fs)
  = Ok {| dic_url := url; dic_segments := 4;
          dic_rows :=
            [ Segment 0 249999 250000 (segment_path filepath 0);
              Segment 250000 499999 250000 (segment_path filepath 1);
              Segment 500000 749999 250000 (segment_path filepath 2);
              Segment 750000 1000000 250000 (segment_path filepath 3) ] |}.
Proof.
  intros He. rewrite create_segment_table_effective, He. by vm_compute.
Qed.

Lemma create_segment_table_1000000_by_4_witness :
  effective_segments "u" "f" 4 1000000 EtagNone ∅ = Ok 4 /\
  snd (create_segment_table "u" "f" 4 1000000 EtagNone ∅)
  = Ok {| dic_url := "u"; dic_segments := 4;
          dic_rows :=
            [ Segment 0 249999 250000 "f.0.bin";
              Segment 250000 499999 250000 "f.1.bin";
              Segment 500000 749999 250000 "f.2.bin";
              Segment 750000 1000000 250000 "f.3.bin" ] |}.
Proof.
  split; [reflexivity|].
  exact (create_segment_table_1000000_by_4 "u" "f" EtagNone ∅ eq_refl).
Defined.

(** C2 as stated fails: the last range of the table is
    [[750000, 1000000]], not [[750000, 999999]]. *)
Lemma create_segment_table_1000000_by_4_last_end :
  ~ exists dic,
      snd (create_segment_table "u" "f" 4 1000000 EtagNone ∅) = Ok dic /\
      (fun r => (start r, end_ r, segment_size r)) <$> dic_rows dic
      = [ (0, 249999, 250000); (250000, 499999, 250000);
          (500000, 749999, 250000); (750000, 999999, 250000) ].
Proof.
  intros (dic & Hd & Hr). vm_compute in Hd.
  injection Hd as <-. discriminate Hr.
Qed.

Lemma segment_entry_size filepath n p i row :
  segment_entry filepath n p i = Ok row ->
  segment_size row
  = if bool_decide (i = n - 1) then end_ row - start row
    else end_ row - start row + 1.
Proof.
  unfold segment_entry.
  destruct (PyFloat.mul_int p i) as [s|]; [|done]. simpl rbind.
  destruct (PyFloat.int_of_float s) as [start0|]; [|done]. simpl rbind.
  destruct (PyFloat.mul_int p (i + 1)) as [e|]; [|done]. simpl rbind.
  destruct (PyFloat.int_of_float e) as [end0|]; [|done]. simpl rbind.
  intros [= <-]. simpl.
  destruct (decide (i = n - 1)) as [Heq|Hne].
  - rewrite bool_decide_eq_true_2 by done.
    rewrite bool_decide_eq_false_2 by (intros H; by apply H). done.
  - rewrite bool_decide_eq_false_2 by done.
    rewrite bool_decide_eq_true_2 by done. lia.
Qed.

Lemma build_table_inv url filepath n size dic :
  build_table url filepath n size = Ok dic ->
  exists p,
    PyFloat.int_truediv size n = Ok p /\
    dic_url dic = url /\ dic_segments dic = n /\
    rmap (segment_entry filepath n p) (seqZ 0 n) = Ok (dic_rows dic).
Proof.
  unfold build_table.
  destruct (PyFloat.int_truediv size n) as [p|]; [|done]. simpl rbind.
  destruct (rmap _ _) as [rows|] eqn:Er; [|done]. simpl rbind.
  intros [= <-]. by exists p.
Qed.

Lemma create_segment_table_inv url filepath segments size etag fs dic :
  snd (create_segment_table url filepath segments size etag fs) = Ok dic ->
  exists n,
    effective_segments url filepath segments size etag fs = Ok n /\
    build_table url filepath n size = Ok dic.
Proof.
  rewrite create_segment_table_effective.
  destruct (effective_segments _ _ _ _ _ _) as [n|]; [|done].
  intros H. by exists n.
Qed.

(** C5, as amended.  In every table returned by [create_segment_table] the
    stored [segment_size] of a row is [end - start] for the last row and
    [end - start + 1] for every other row. *)
Theorem segment_size_of_row url filepath segments size etag fs dic (i : nat) row :
  snd (create_segment_table url filepath segments size etag fs) = Ok dic ->
  dic_rows dic !! i = Some row ->
  segment_size row
  = if bool_decide (Z.of_nat i = dic_segments dic - 1)
    then end_ row - start row
    else end_ row - start row + 1.
Proof.
  intros (n & _ & Hb)%create_segment_table_inv Hrow.
  destruct (build_table_inv _ _ _ _ _ Hb) as (p & _ & _ & -> & Hrows).
  destruct (rmap_lookup _ _ _ _ _ Hrows Hrow) as (x & Hx & Hentry).
  apply lookup_seqZ in Hx as [-> _]. rewrite Z.add_0_l in Hentry.
  by apply segment_entry_size in Hentry.
Qed.

Lemma segment_size_of_row_witness :
  snd (create_segment_table "u" "f" 4 1000000 EtagNone ∅)
  = Ok {| dic_url := "u"; dic_segments := 4;
          dic_rows :=
            [ Segment 0 249999 250000 "f.0.bin";
              Segment 250000 499999 250000 "f.1.bin";
              Segment 500000 749999 250000 "f.2.bin";
              Segment 750000 1000000 250000 "f.3.bin" ] |} /\
  250000 = 1000000 - 750000 /\
  250000 = 249999 - 0 + 1.
Proof.
  assert (snd (create_segment_table "u" "f" 4 1000000 EtagNone ∅)
          = Ok {| dic_url := "u"; dic_segments := 4;
                  dic_rows :=
                    [ Segment 0 249999 250000 "f.0.bin";
                      Segment 250000 499999 250000 "f.1.bin";
                      Segment 500000 749999 250000 "f.2.bin";
                      Segment 750000 1000000 250000 "f.3.bin" ] |}) as H
    by reflexivity.
  split; [exact H|]. split.
  - exact (segment_size_of_row "u" "f" 4 1000000 EtagNone ∅ _ 3
             (Segment 750000 1000000 250000 "f.3.bin") H eq_refl).
  - exact (segment_size_of_row "u" "f" 4 1000000 EtagNone ∅ _ 0
             (Segment 0 249999 250000 "f.0.bin") H eq_refl).
Defined.

(** C5 as stated fails: in the table for [size = 1,000,000] and 4
    segments, row 0 is not the last row and its [segment_size] is
    [end - start + 1], and row 3 is the last row and its [segment_size] is
    [end - start]. *)
Lemma segment_size_of_row_swapped :
  exists dic first last,
    snd (create_segment_table "u" "f" 4 1000000 EtagNone ∅) = Ok dic /\
    dic_rows dic !! 0%nat = Some first /\
    dic_rows dic !! 3%nat = Some last /\
    dic_segments dic - 1 = 3 /\
    segment_size first <> end_ first - start first /\
    segment_size last <> end_ last - start last + 1.
Proof.
  eexists _, _, _. split; [by vm_compute|].
  split; [reflexivity|]. split; [reflexivity|]. by vm_compute.
Qed.

(** The last boundary is [int(partition_size * segments)], which the two
    roundings of [size / segments] and of the product can leave at
    [size - 1]: for 50 MiB + 10 bytes in 11 segments the last row ends at
    [size - 1] and the sizes of the rows add up to [size - 1]. *)
Example last_boundary_rounded_down :
  exists dic last,
    snd (create_segment_table "u" "f" 11 52428810 EtagNone ∅) = Ok dic /\
    dic_segments dic = 11 /\
    dic_rows dic !! 10%nat = Some last /\
    (start last, end_ last, segment_size last) = (47662554, 52428809, 4766255) /\
    foldr Z.add 0 (segment_size <$> dic_rows dic) = 52428810 - 1.
Proof.
  eexists _, _. split; [by vm_compute|].
  split; [reflexivity|]. split; [reflexivity|]. by vm_compute.
Qed.

(** C7, as amended.  With a truthy [etag] and a size in [[0, 2^1023)], a
    second call with the same [url], [filepath], [size] and [etag] on the
    manifests that the first call left returns what the first call
    returned, whatever the segment counts requested, and leaves the
    manifests as they are. *)
Theorem replanning_idempotent url filepath size etag fs segments1 segments2 :
  truthy etag = true ->
  0 <= size < 2 ^ 1023 ->
  let first := create_segment_table url filepath segments1 size etag fs in
  create_segment_table url filepath segments2 size etag (fst first) = first.
Proof.
  intros Ht Hs first. unfold first, create_segment_table.
  rewrite !clamp_spec by done.
  set (c1 := if (5 <? segments1) && _ then 5 else segments1).
  set (c2 := if (5 <? segments2) && _ then 5 else segments2).
  cbn [fst]. rewrite lookup_insert_eq.
  assert (forall c n, resume url etag c (Some (Manifest url etag n)) = n) as Hr.
  { intros c n. unfold resume. cbn [m_url m_etag m_segments].
    by rewrite Ht, !bool_decide_eq_true_2. }
  rewrite Hr. by rewrite insert_insert_eq.
Qed.

Lemma replanning_idempotent_witness :
  truthy (EtagStr "v1") = true /\
  0 <= 10 < 2 ^ 1023 /\
  create_segment_table "u" "f" 3 10 (EtagStr "v1")
    (fst (create_segment_table "u" "f" 2 10 (EtagStr "v1") ∅))
  = create_segment_table "u" "f" 2 10 (EtagStr "v1") ∅.
Proof.
  assert (0 <= 10 < 2 ^ 1023) as H by (by vm_compute).
  refine (conj eq_refl (conj H _)).
  exact (replanning_idempotent "u" "f" 10 (EtagStr "v1") ∅ 2 3 eq_refl H).
Defined.

(** C7 as stated fails: without an [etag] the manifest of the first call
    is not adopted, and a second call that requests another count returns
    another table. *)
Lemma replanning_without_etag :
  snd (create_segment_table "u" "f" 3 10 EtagNone
         (fst (create_segment_table "u" "f" 2 10 EtagNone ∅)))
  <> snd (create_segment_table "u" "f" 2 10 EtagNone ∅).
Proof. by vm_compute. Qed.

(** C8, as amended.  Without a truthy [etag] no manifest is adopted: the
    segment count is the clamped request, whatever manifest exists, and
    the manifest is overwritten with it. *)
Theorem no_etag_no_resume url filepath segments size etag fs :
  truthy etag = false ->
  effective_segments url filepath segments size etag fs = clamp segments size /\
  forall n, clamp segments size = Ok n ->
    create_segment_table url filepath segments size etag fs
    = (<[progress_path filepath := Manifest url etag n]> fs,
       build_table url filepath n size).
Proof.
  intros Ht.
  assert (forall c, resume url etag c (fs !! progress_path filepath) = c) as Hr.
  { intros c. unfold resume. rewrite Ht. by destruct (fs !! _). }
  split.
  - unfold effective_segments. destruct (clamp segments size); [|done].
    simpl. by rewrite Hr.
  - intros n Hn. unfold create_segment_table. rewrite Hn. by rewrite Hr.
Qed.

Lemma no_etag_no_resume_witness :
  truthy EtagNone = false /\
  effective_segments "u" "f" 2 10 EtagNone
    {[ "f.json" := Manifest "u" EtagNone 3 ]}
  = clamp 2 10.
Proof.
  split; [reflexivity|].
  exact (proj1 (no_etag_no_resume "u" "f" 2 10 EtagNone
                  {[ "f.json" := Manifest "u" EtagNone 3 ]} eq_refl)).
Defined.

(** C8 as stated fails: a manifest with the same [url] records 3 segments,
    no [etag] is supplied, 2 segments are requested, and the table has 2
    segments. *)
Lemma no_etag_manifest_ignored :
  exists dic,
    snd (create_segment_table "u" "f" 2 10 EtagNone
           {[ "f.json" := Manifest "u" EtagNone 3 ]}) = Ok dic /\
    dic_segments dic = 2 /\ dic_segments dic <> 3.
Proof. eexists. split; [by vm_compute|]. by vm_compute. Qed.

(** C9, as amended.  For a size in [[0, 2^1023)] the request is clamped to
    5 when it is above 5 and the size is below 50 MB, and left as it is
    otherwise; the effective count is this clamped value unless a
    manifest is adopted, whose count replaces it.  In particular 10 MB
    and a request of 10 give 5 when there is no manifest. *)
Theorem segment_count_clamp url filepath segments size etag fs :
  0 <= size < 2 ^ 1023 ->
  let clamped :=
    if (5 <? segments) && (size <? 50 * MEGABYTE) then 5 else segments in
  clamp segments size = Ok clamped /\
  effective_segments url filepath segments size etag fs
  = Ok (resume url etag clamped (fs !! progress_path filepath)) /\
  (fs !! progress_path filepath = None ->
   effective_segments url filepath segments size etag fs = Ok clamped).
Proof.
  intros Hs clamped. unfold effective_segments.
  rewrite clamp_spec by done. fold clamped.
  split_and!; [done..|]. by intros ->.
Qed.

Lemma segment_count_clamp_witness :
  0 <= 10 * MEGABYTE < 2 ^ 1023 /\
  effective_segments "u" "f" 10 (10 * MEGABYTE) EtagNone ∅ = Ok 5.
Proof.
  assert (0 <= 10 * MEGABYTE < 2 ^ 1023) as H by (by vm_compute).
  split; [exact H|].
  exact (proj2 (proj2 (segment_count_clamp "u" "f" 10 (10 * MEGABYTE)
                         EtagNone ∅ H)) eq_refl).
Defined.

(** C9 as stated fails: 10 segments are requested for 10 MB, a manifest
    with the same [url] and [etag] records 8 segments, and the effective
    count is 8. *)
Lemma segment_count_from_manifest :
  5 < 10 /\ 10 * MEGABYTE < 50 * MEGABYTE /\
  effective_segments "u" "f" 10 (10 * MEGABYTE) (EtagStr "v1")
    {[ "f.json" := Manifest "u" (EtagStr "v1") 8 ]} = Ok 8 /\
  exists dic,
    snd (create_segment_table "u" "f" 10 (10 * MEGABYTE) (EtagStr "v1")
           {[ "f.json" := Manifest "u" (EtagStr "v1") 8 ]}) = Ok dic /\
    dic_segments dic = 8 /\ length (dic_rows dic) = 8%nat.
Proof.
  split_and!; [done|done|by vm_compute|].
  eexists. split; [by vm_compute|]. by vm_compute.
Qed.

(** ** Sizes and counts that are not a plan *)

Lemma binary_round_aux_sign s1 s2 m e l :
  PyFloat.is_infinity (binary_round_aux 53 1024 s1 m e l)
  = PyFloat.is_infinity (binary_round_aux 53 1024 s2 m e l).
Proof.
  unfold binary_round_aux.
  destruct (shr_fexp 53 1024 m e l) as [mrs' e'].
  destruct (shr_fexp 53 1024 _ e' loc_Exact) as [mrs'' e''].
  destruct (shr_m mrs''); [done| |done].
  by destruct (e'' <=? 1024 - 53).
Qed.

Lemma int_truediv_negative size n :
  0 <= size < 2 ^ 1023 -> - 2 ^ 52 <= n < 0 ->
  exists p, PyFloat.int_truediv size n = Ok p.
Proof.
  intros Hs Hn. unfold PyFloat.int_truediv.
  assert ((n =? 0) = false) as -> by (apply Z.eqb_neq; lia).
  destruct n as [|pn|pn]; try lia.
  destruct size as [|ps|ps]; try lia.
  { by eexists. }
  destruct (partition_size_normal (Z.pos ps) (Z.pos pn) ltac:(lia) ltac:(lia))
    as (p & Hp & Hnp & _).
  unfold PyFloat.int_truediv in Hp.
  assert ((Z.pos pn =? 0) = false) as Hz by done. rewrite Hz in Hp.
  unfold PyFloat.exact, SFdiv, PyFloat.prec, PyFloat.emax in *.
  destruct (SFdiv_core_binary 53 1024 (Z.pos ps) 0 (Z.pos pn) 0)
    as [[mz ez] lz].
  rewrite (binary_round_aux_sign _ (xorb false false)).
  destruct (PyFloat.is_infinity _); [done|]. by eexists.
Qed.

Lemma segment_entry_empty filepath n i :
  1 <= n <= 2 ^ 52 -> 0 <= i < n ->
  segment_entry filepath n (S754_zero false) i = Ok (empty_row filepath n i).
Proof.
  intros Hn Hi.
  assert (forall j, 0 <= j <= n ->
            (do f <- PyFloat.mul_int (S754_zero false) j; PyFloat.int_of_float f)
            = Ok 0) as Hz.
  { intros j Hj. destruct (Z.eq_dec j 0) as [->|Hne]; [done|].
    destruct (float_of_int_normal j) as (f & Hf & Hnf & _); [lia|..].
    - rewrite rnd_exact_int; [|change (2 ^ 53) with (2 * 2 ^ 52); lia|unfold K; lia].
      assert (2 ^ (1024 + K) = 2 ^ 1024 * 2 ^ K) as ->
        by (apply Z.pow_add_r; unfold K; lia).
      apply Z.mul_lt_mono_pos_r; [apply pow2_K_pos|].
      eapply Z.le_lt_trans; [apply Hj|].
      eapply Z.le_lt_trans; [apply Hn|]. by vm_compute.
    - unfold PyFloat.mul_int. rewrite Hf. simpl rbind.
      by destruct (fnormal_inv f Hnf) as (m & e & -> & _). }
  unfold segment_entry.
  pose proof (Hz i ltac:(lia)) as Hs. pose proof (Hz (i + 1) ltac:(lia)) as He.
  destruct (PyFloat.mul_int _ i) as [fs|]; [|done]. simpl in Hs.
  destruct (PyFloat.mul_int _ (i + 1)) as [fe|]; [|done]. simpl in He.
  simpl rbind. rewrite Hs. simpl rbind. rewrite He. done.
Qed.

(** C6, as amended.  [create_segment_table] validates neither the size
    nor the segment count.  For a size in [[0, 2^1023)] and an effective
    count [n] in [[-2^52, 2^52]] with [size = 0] or [n < 1]: the manifest
    is written with [n]; then [n = 0] raises [ZeroDivisionError]; a
    negative [n] returns a table without rows; and [size = 0] with
    [n >= 1] returns [n] rows that start at 0 and have [segment_size] 0. *)
Theorem create_segment_table_unvalidated url filepath segments size etag fs n :
  effective_segments url filepath segments size etag fs = Ok n ->
  0 <= size < 2 ^ 1023 -> - 2 ^ 52 <= n <= 2 ^ 52 ->
  size = 0 \/ n < 1 ->
  fst (create_segment_table url filepath segments size etag fs)
    !! progress_path filepath = Some (Manifest url etag n) /\
  snd (create_segment_table url filepath segments size etag fs)
  = if n =? 0 then Raise ZeroDivisionError
    else Ok {| dic_url := url; dic_segments := n;
               dic_rows := empty_row filepath n <$> seqZ 0 n |}.
Proof.
  intros He Hs Hn Hbad.
  rewrite create_segment_table_effective, He. cbn [fst snd].
  split; [by rewrite lookup_insert_eq|].
  unfold build_table.
  destruct (Z.lt_trichotomy n 0) as [Hneg|[->|Hpos]].
  - assert ((n =? 0) = false) as -> by (apply Z.eqb_neq; lia).
    destruct (int_truediv_negative size n) as (p & ->); [done|lia|].
    simpl rbind. by rewrite seqZ_nil by lia.
  - done.
  - assert (size = 0) as -> by lia.
    assert ((n =? 0) = false) as -> by (apply Z.eqb_neq; lia).
    assert (PyFloat.int_truediv 0 n = Ok (S754_zero false)) as ->.
    { unfold PyFloat.int_truediv.
      assert ((n =? 0) = false) as -> by (apply Z.eqb_neq; lia).
      by destruct n. }
    simpl rbind.
    rewrite (rmap_ext _ (empty_row filepath n)); [done|].
    intros i Hi%elem_of_seqZ. apply segment_entry_empty; lia.
Qed.

Lemma create_segment_table_unvalidated_witness :
  effective_segments "u" "f" 0 10 EtagNone ∅ = Ok 0 /\
  0 <= 10 < 2 ^ 1023 /\ - 2 ^ 52 <= 0 <= 2 ^ 52 /\ (10 = 0 \/ 0 < 1) /\
  fst (create_segment_table "u" "f" 0 10 EtagNone ∅) !! progress_path "f"
  = Some (Manifest "u" EtagNone 0) /\
  snd (create_segment_table "u" "f" 0 10 EtagNone ∅) = Raise ZeroDivisionError.
Proof.
  assert (0 <= 10 < 2 ^ 1023) as H1 by (by vm_compute).
  assert (- 2 ^ 52 <= 0 <= 2 ^ 52) as H2 by (by vm_compute).
  assert (10 = 0 \/ 0 < 1) as H3 by (right; reflexivity).
  refine (conj eq_refl (conj H1 (conj H2 (conj H3 _)))).
  exact (create_segment_table_unvalidated "u" "f" 0 10 EtagNone ∅ 0
           eq_refl H1 H2 H3).
Defined.

(** C6 as stated fails: a size of 0 with 2 segments, and a size of 10 with
    -1 segments, both return a table. *)
Lemma create_segment_table_accepts_empty_plans :
  snd (create_segment_table "u" "f" 2 0 EtagNone ∅)
  = Ok {| dic_url := "u"; dic_segments := 2;
          dic_rows := [ Segment 0 (-1) 0 "f.0.bin"; Segment 0 0 0 "f.1.bin" ] |} /\
  snd (create_segment_table "u" "f" (-1) 10 EtagNone ∅)
  = Ok {| dic_url := "u"; dic_segments := -1; dic_rows := [] |}.
Proof. split; by vm_compute. Qed.

(** * The merge step *)

Lemma read_app k src chunk rest :
  read k src = (chunk, rest) -> src = chunk ++ rest.
Proof.
  revert k chunk rest. induction src as [|b src IH]; intros k chunk rest; simpl.
  - by intros [= <- <-].
  - destruct (k <=? 0); [by intros [= <- <-]|].
    destruct (read (k - 1) src) as [c r] eqn:E. intros [= <- <-].
    simpl. f_equal. by eapply IH.
Qed.

Lemma read_nil k src rest : 0 < k -> read k src = ([], rest) -> src = [].
Proof.
  intros Hk. destruct src as [|b src]; simpl; [done|].
  assert ((k <=? 0) = false) as -> by (apply Z.leb_gt; lia).
  by destruct (read (k - 1) src).
Qed.

Lemma write_nil dest (fs : gmap string (list byte)) : write dest [] fs = fs.
Proof.
  apply map_eq. intros p. unfold write.
  destruct (decide (dest = p)) as [->|Hne].
  - rewrite lookup_alter_eq. destruct (fs !! p); simpl; [|done].
    by rewrite app_nil_r.
  - by rewrite lookup_alter_ne.
Qed.

Lemma write_app dest c1 c2 (fs : gmap string (list byte)) :
  write dest c2 (write dest c1 fs) = write dest (c1 ++ c2) fs.
Proof.
  apply map_eq. intros p. unfold write.
  destruct (decide (dest = p)) as [->|Hne].
  - rewrite !lookup_alter_eq. destruct (fs !! p); simpl; [|done].
    by rewrite app_assoc.
  - by rewrite !lookup_alter_ne.
Qed.

(** The chunked copy appends the whole segment file to the destination. *)
Lemma copy_chunks_write dest src fs : copy_chunks dest src fs = write dest src fs.
Proof.
  funelim (copy_chunks dest src fs).
  - match goal with E : read _ _ = ([], _) |- _ =>
      rewrite (read_nil CHUNKSIZE _ _ eq_refl E) end.
    by rewrite write_nil.
  - match goal with IH : copy_chunks _ _ _ = write _ _ _ |- _ => rewrite IH end.
    rewrite write_app. f_equal. symmetry. by eapply read_app.
Qed.

(** ** The paths are distinct *)

Lemma string_app_cons a (s t : string) :
  String a s +:+ t = String a (s +:+ t).
Proof. reflexivity. Qed.

Lemma string_app_length (s t : string) :
  String.length (s +:+ t) = (String.length s + String.length t)%nat.
Proof.
  induction s as [|a s IH]; [done|].
  rewrite string_app_cons. simpl. by rewrite IH.
Qed.

Lemma string_app_inj_r (s1 s2 t : string) : s1 +:+ t = s2 +:+ t -> s1 = s2.
Proof.
  revert s2. induction s1 as [|a s1 IH]; intros [|b s2] H.
  - done.
  - apply (f_equal String.length) in H.
    rewrite !string_app_length in H. simpl in H. lia.
  - apply (f_equal String.length) in H.
    rewrite !string_app_length in H. simpl in H. lia.
  - rewrite !string_app_cons in H. injection H as -> H. f_equal. by apply IH.
Qed.

Lemma string_app_ne (s t : string) : t <> "" -> s +:+ t <> s.
Proof.
  intros Ht H. apply (f_equal String.length) in H.
  rewrite string_app_length in H. destruct t; [done|]. simpl in H. lia.
Qed.

Lemma segment_path_ne_filepath filepath i : segment_path filepath i <> filepath.
Proof. by apply string_app_ne. Qed.

Lemma progress_path_ne_filepath filepath : progress_path filepath <> filepath.
Proof. by apply string_app_ne. Qed.

Lemma segment_path_ne_progress_path filepath i :
  segment_path filepath i <> progress_path filepath.
Proof.
  unfold segment_path, progress_path. intros H%(inj _).
  assert (String.length (pretty i) = 0%nat) as Hl.
  { apply (f_equal String.length) in H.
    rewrite !string_app_length in H. simpl in H. lia. }
  destruct (pretty i); [|done]. vm_compute in H. discriminate H.
Qed.

Lemma segment_path_inj filepath i j :
  segment_path filepath i = segment_path filepath j -> i = j.
Proof.
  unfold segment_path. intros H%(inj _)%(inj _).
  apply string_app_inj_r in H. by apply (inj pretty).
Qed.

(** ** The loop over the segments *)

Lemma merge_segments_spec filepath indices : forall fs acc,
  NoDup indices ->
  fs !! filepath = Some acc ->
  (forall i, i ∈ indices -> is_Some (fs !! segment_path filepath i)) ->
  exists fs',
    merge_segments filepath indices fs = (fs', Ok tt) /\
    fs' !! filepath
    = Some (acc ++ concat ((fun i => default [] (fs !! segment_path filepath i))
                             <$> indices)) /\
    (forall i, i ∈ indices -> fs' !! segment_path filepath i = None) /\
    (forall p, p <> filepath ->
       (forall i, i ∈ indices -> p <> segment_path filepath i) ->
       fs' !! p = fs !! p).
Proof.
  induction indices as [|i indices IH]; intros fs acc Hnd Hacc Hseg.
  - exists fs. simpl. rewrite app_nil_r.
    split_and!; [done|done|by intros ? ?%elem_of_nil|done].
  - apply NoDup_cons in Hnd as [Hi Hnd].
    destruct (Hseg i ltac:(left)) as [src Hsrc].
    simpl merge_segments. rewrite Hsrc, copy_chunks_write.
    pose proof (segment_path_ne_filepath filepath i) as Hne.
    unfold unlink.
    assert (write filepath src fs !! segment_path filepath i = Some src) as ->.
    { unfold write. by rewrite lookup_alter_ne. }
    set (fs1 := delete (segment_path filepath i) (write filepath src fs)).
    assert (fs1 !! filepath = Some (acc ++ src)) as Hacc1.
    { unfold fs1, write. rewrite lookup_delete_ne by done.
      by rewrite lookup_alter_eq, Hacc. }
    assert (forall j, j ∈ indices ->
              fs1 !! segment_path filepath j = fs !! segment_path filepath j)
      as Hsame.
    { intros j Hj. unfold fs1, write.
      rewrite lookup_delete_ne by (intros ?%segment_path_inj; set_solver).
      rewrite lookup_alter_ne; [done|].
      intros Heq. by eapply segment_path_ne_filepath. }
    destruct (IH fs1 (acc ++ src) Hnd Hacc1) as (fs' & Hm & Hd & Hgone & Hother).
    { intros j Hj. rewrite Hsame by done. apply Hseg. by right. }
    exists fs'. split_and!.
    + done.
    + assert ((fun j => default [] (fs1 !! segment_path filepath j)) <$> indices
              = (fun j => default [] (fs !! segment_path filepath j)) <$> indices)
        as Hf.
      { apply list_fmap_ext. intros k j Hj.
        rewrite Hsame; [done|]. by eapply list_elem_of_lookup_2. }
      rewrite Hd, Hf, fmap_cons, Hsrc. simpl. by rewrite <- app_assoc.
    + intros j [->|Hj]%elem_of_cons; [|by apply Hgone].
      rewrite Hother; [|done|].
      * unfold fs1. by rewrite lookup_delete_eq.
      * intros k Hk ?%segment_path_inj. set_solver.
    + intros p Hp Hpi. rewrite Hother; [|done|].
      * unfold fs1, write.
        rewrite lookup_delete_ne by (intros ?; eapply Hpi; [left|done]).
        by rewrite lookup_alter_ne.
      * intros k Hk. apply Hpi. by right.
Qed.


(** The order of the indices decides the content: with the contents of the
    two segment files exchanged, the destination is exchanged too. *)
Example combine_files_by_index :
  (combine_files "f" 2
     {[ "f.0.bin" := [x03]; "f.1.bin" := [x01; x02]; "f.json" := [] ]}).1
  !! "f" = Some [x03; x01; x02].
Proof. vm_compute. reflexivity. Qed.

(** A missing segment file ends the merge with an exception; the manifest
    and the segment files that were not reached stay. *)
Example combine_files_missing_segment :
  combine_files "f" 2 {[ "f.1.bin" := [x01]; "f.json" := [] ]}
  = ({[ "f" := []; "f.1.bin" := [x01]; "f.json" := [] ]},
     Raise FileNotFoundError).
Proof. vm_compute. reflexivity. Qed.

(** * The workers *)



(** Keyword arguments that hold [mode]: the worker raises and leaves
    [completed] at 0 and the file as it was. *)
Example Simpledown_worker_mode_clash :
  Simpledown_worker (Trace true [Chunk [x01] false false])
    (Simpledown "u" "f" {[ "mode" := VStr "ab" ]}) init
    (World {[ "f" := [x09] ]} ∅ false)
  = (init, World {[ "f" := [x09] ]} ∅ false, Raise TypeError).
Proof. vm_compute. reflexivity. Qed.

(** ** [copy.deepcopy] leaves the heap it copies from as it is *)

Lemma copying_alloc h0 memo h :
  copying h0 memo h ->
  h0 !! (alloc ∅ h).1 = None /\ copying h0 memo (alloc ∅ h).2.
Proof.
  intros (Hsub & Hmemo & Hnew). unfold alloc. cbn [fst snd].
  set (y := fresh (dom h)).
  assert (h !! y = None) as Hy by (apply not_elem_of_dom, is_fresh).
  assert (h0 !! y = None) as Hy0 by (by eapply lookup_weaken_None).
  split; [done|]. split_and!.
  - by apply insert_subseteq_r.
  - done.
  - intros y' d key l Hy' Hd Hkey.
    destruct (decide (y = y')) as [<-|Hne].
    + rewrite lookup_insert_eq in Hd. injection Hd as <-. done.
    + rewrite lookup_insert_ne in Hd by done. by eapply Hnew.
Qed.

Lemma copying_store h0 memo h y key v :
  copying h0 memo h -> h0 !! y = None ->
  (forall l, v = VRef l -> h0 !! l = None) ->
  copying h0 memo (alter (insert key v) y h).
Proof.
  intros (Hsub & Hmemo & Hnew) Hy Hv. split_and!.
  - apply map_subseteq_spec. intros l d Hl.
    rewrite lookup_alter_ne by (intros ->; by rewrite Hy in Hl).
    by eapply lookup_weaken.
  - done.
  - intros y' d key' l Hy' Hd Hkey.
    destruct (decide (y = y')) as [<-|Hne].
    + rewrite lookup_alter_eq in Hd.
      destruct (h !! y) as [d0|] eqn:Hd0; [|done]. injection Hd as <-.
      destruct (decide (key = key')) as [<-|Hk].
      * rewrite lookup_insert_eq in Hkey. injection Hkey as ->. by apply Hv.
      * rewrite lookup_insert_ne in Hkey by done. by eapply Hnew.
    + rewrite lookup_alter_ne in Hd by done. by eapply Hnew.
Qed.

Lemma copying_memo h0 memo h l y :
  copying h0 memo h -> h0 !! y = None -> copying h0 (<[l := y]> memo) h.
Proof.
  intros (Hsub & Hmemo & Hnew) Hy. split_and!; [done| |done].
  intros l' y' Hl. destruct (decide (l = l')) as [<-|Hne].
  - rewrite lookup_insert_eq in Hl. by injection Hl as <-.
  - rewrite lookup_insert_ne in Hl by done. by eapply Hmemo.
Qed.

Lemma copy_item_raise copy y e items :
  foldl (copy_item copy y) (Raise e) items = Raise e.
Proof. induction items as [|item items IH]; [done|]. apply IH. Qed.

Lemma copy_items_copying h0 copy y items :
  (forall x memo h x' memo' h',
     copying h0 memo h -> copy x memo h = Ok (x', memo', h') ->
     copying h0 memo' h' /\ (forall l, x' = VRef l -> h0 !! l = None)) ->
  h0 !! y = None ->
  forall memo h memo' h',
    copying h0 memo h ->
    foldl (copy_item copy y) (Ok (memo, h)) items = Ok (memo', h') ->
    copying h0 memo' h'.
Proof.
  intros Hcopy Hy. induction items as [|[key value] items IH];
    intros memo h memo' h' Hinv; cbn [foldl].
  - by intros [= <- <-].
  - destruct (copy value memo h) as [[[v1 memo1] h1]|] eqn:Hc.
    + assert (copy_item copy y (Ok (memo, h)) (key, value)
              = Ok (memo1, alter (insert key v1) y h1)) as ->
        by (unfold copy_item; simpl; by rewrite Hc).
      destruct (Hcopy _ _ _ _ _ _ Hinv Hc) as [Hinv1 Hv1].
      apply IH. by apply copying_store.
    + assert (copy_item copy y (Ok (memo, h)) (key, value) = Raise e) as ->
        by (unfold copy_item; simpl; by rewrite Hc).
      by rewrite copy_item_raise.
Qed.

Lemma deepcopy_copying h0 depth : forall x memo h x' memo' h',
  copying h0 memo h ->
  deepcopy depth x memo h = Ok (x', memo', h') ->
  copying h0 memo' h' /\ (forall l, x' = VRef l -> h0 !! l = None).
Proof.
  induction depth as [|depth IH]; intros x memo h x' memo' h' Hinv;
    destruct x as [| | | |l]; cbn [deepcopy]; try (by intros [= <- <- <-]).
  - destruct (memo !! l) as [y|] eqn:Hm; [|done].
    intros [= <- <- <-]. split; [done|]. intros ? [= <-].
    destruct Hinv as (_ & Hmemo & _). by eapply Hmemo.
  - destruct (memo !! l) as [y|] eqn:Hm.
    { intros [= <- <- <-]. split; [done|]. intros ? [= <-].
      destruct Hinv as (_ & Hmemo & _). by eapply Hmemo. }
    destruct (h !! l) as [d|]; [|done].
    destruct (copying_alloc h0 memo h Hinv) as [Hy Hinv1].
    destruct (alloc ∅ h) as [y h1]. cbn [fst snd] in Hy, Hinv1.
    apply (copying_memo _ _ _ l y) in Hinv1; [|done].
    destruct (foldl _ _ _) as [[memo2 h2]|] eqn:Hf; [|done]. simpl rbind.
    intros [= <- <- <-]. split.
    + exact (copy_items_copying h0 (deepcopy depth) y _ IH Hy _ _ _ _ Hinv1 Hf).
    + by intros ? [= <-].
Qed.

Lemma copying_start h0 : copying h0 ∅ h0.
Proof.
  split_and!; [done|by intros ?? ?%lookup_empty_Some|].
  intros y d key l Hy Hd. by rewrite Hy in Hd.
Qed.

Lemma copying_subseteq h0 memo h : copying h0 memo h -> h0 ⊆ h.
Proof. by intros (? & _). Qed.

(** Setting the range header on a copy leaves the copied heap alone. *)
Lemma set_range_frame h0 memo h kwargs r h' :
  copying h0 memo h -> h0 !! kwargs = None ->
  set_range kwargs r h = Ok h' -> h0 ⊆ h'.
Proof.
  intros Hinv Hk. unfold set_range.
  destruct (h !! kwargs) as [d|] eqn:Hd; [|done].
  destruct (copying_alloc h0 memo h Hinv) as [Hy Hinv1].
  assert ((alloc ∅ h).2 !! kwargs = Some d) as Hd1.
  { unfold alloc. cbn [snd]. rewrite lookup_insert_ne; [done|].
    intros Heq. pose proof (is_fresh (dom h)) as Hf. rewrite Heq in Hf.
    apply Hf. by apply elem_of_dom. }
  destruct (alloc ∅ h) as [y h1]. cbn [fst snd] in Hy, Hinv1, Hd1.
  destruct (d !! "headers") as [v|] eqn:Hv.
  - destruct v as [| | | |l]; try done.
    destruct (h1 !! l); [|done]. intros [= <-].
    eapply copying_subseteq, copying_store; [done| |done].
    destruct Hinv1 as (_ & _ & Hnew).
    exact (Hnew kwargs d "headers" l Hk Hd1 Hv).
  - destruct (alter _ kwargs h1 !! y); [|done]. intros [= <-].
    eapply copying_subseteq, copying_store; [|done..].
    apply copying_store; [done..|]. by intros ? [= <-].
Qed.

Lemma iter_content_heap todo path : forall self w,
  heap (iter_content todo path self w).2 = heap w.
Proof.
  induction todo as [|[chunk s e|] todo IH]; intros self w; simpl; [done| |done].
  destruct (bool_decide (chunk <> [])); simpl.
  - destruct (s || e); [done|]. by rewrite IH.
  - done.
Qed.

Lemma download_heap t url path mode kwargs self w :
  heap (download t url path mode kwargs self w).2 = heap w.
Proof.
  unfold download. destruct (open_ok t); [|done]. simpl.
  destruct (_ || _); [done|]. by rewrite iter_content_heap.
Qed.

Lemma resume_file_heap row self w : heap (resume_file row self w).2 = heap w.
Proof.
  unfold resume_file. destruct (files w !! path row); [|done].
  by destruct (_ <? _).
Qed.

Lemma fetch_frame t depth md row self w :
  heap w ⊆ heap (fetch t depth md row self w).1.2.
Proof.
  unfold fetch. destruct (curr self <? segment_size row); [|done].
  destruct (deepcopy depth (VRef (md_kwargs md)) ∅ (heap w))
    as [[[x memo] h]|e] eqn:Hc; [|done].
  destruct (deepcopy_copying (heap w) _ _ _ _ _ _ _ (copying_start _) Hc)
    as [Hinv Hx].
  destruct x as [| | | |kwargs];
    try (by eapply copying_subseteq).
  destruct (set_range kwargs _ h) as [h'|e] eqn:Hr.
  - pose proof (set_range_frame _ _ _ _ _ _ Hinv (Hx _ eq_refl) Hr) as Hsub.
    destruct (binds_parameter _); [done|].
    pose proof (download_heap t (dic_url (segement_table md)) (path row) AB
                  (default ∅ (h' !! kwargs)) self (with_heap h' w)) as Hh.
    destruct (download _ _ _ _ _ _ _) as [self3 w3].
    cbn [fst snd heap with_heap] in *. by rewrite Hh.
  - by eapply copying_subseteq.
Qed.

(** C10.  Whatever the run, every object of the heap before
    [Multidown.worker] is the same object after it: the keyword arguments
    given at construction and every [dict] they share with other workers
    are unchanged; the range header goes into a deep copy. *)
Theorem Multidown_worker_kwargs_unchanged t depth md self w l d :
  heap w !! l = Some d ->
  heap (Multidown_worker t depth md self w).1.2 !! l = Some d.
Proof.
  intros Hl. unfold Multidown_worker.
  destruct (table_row _ _) as [row|]; [|done].
  pose proof (resume_file_heap row self w) as Hr.
  destruct (resume_file row self w) as [self1 w1]. cbn [snd] in Hr.
  pose proof (fetch_frame t depth md row self1 w1) as Hf.
  destruct (fetch t depth md row self1 w1) as [[self2 w2] [u|e]];
    cbn [fst snd] in *; rewrite Hr in Hf; by eapply lookup_weaken.
Qed.

Lemma Multidown_worker_kwargs_unchanged_witness :
  heap (World ∅ {[ 1%positive := {[ "user-agent" := VStr "x" ]};
                   2%positive := {[ "headers" := VRef 1 ]} ]} false)
    !! 2%positive = Some {[ "headers" := VRef 1 ]} /\
  heap (Multidown_worker (Trace true [Chunk [x01; x02] false false]) 8
          (Multidown (Table "u" 1 [Segment 0 2 2 "f.0.bin"]) 0 2) init
          (World ∅ {[ 1%positive := {[ "user-agent" := VStr "x" ]};
                      2%positive := {[ "headers" := VRef 1 ]} ]} false)).1.2
    !! 2%positive = Some {[ "headers" := VRef 1 ]}.
Proof.
  split; [reflexivity|].
  exact (Multidown_worker_kwargs_unchanged
           (Trace true [Chunk [x01; x02] false false]) 8
           (Multidown (Table "u" 1 [Segment 0 2 2 "f.0.bin"]) 0 2) init
           (World ∅ {[ 1%positive := {[ "user-agent" := VStr "x" ]};
                       2%positive := {[ "headers" := VRef 1 ]} ]} false)
           2%positive {[ "headers" := VRef 1 ]} eq_refl).
Defined.

(** The same run in full: the range header is in the copy of the headers,
    at a new location, and the shared headers at location 1 are as before. *)
Example Multidown_worker_run :
  let r := Multidown_worker (Trace true [Chunk [x01; x02] false false]) 8
             (Multidown (Table "u" 1 [Segment 0 2 2 "f.0.bin"]) 0 2) init
             (World ∅ {[ 1%positive := {[ "user-agent" := VStr "x" ]};
                         2%positive := {[ "headers" := VRef 1 ]} ]} false) in
  r.1.1 = {| curr := 2; completed := 1 |} /\
  files r.1.2 !! "f.0.bin" = Some [x01; x02] /\
  heap r.1.2 !! 1%positive = Some {[ "user-agent" := VStr "x" ]} /\
  heap r.1.2 !! 3%positive = Some {[ "headers" := VRef 4 ]} /\
  heap r.1.2 !! 4%positive
  = Some {[ "user-agent" := VStr "x"; "range" := VStr "bytes=0-2" ]}.
Proof. cbv zeta. repeat split; vm_compute; reflexivity. Qed.

(** * File names *)

Lemma string_app_nil_r (s : string) : s +:+ "" = s.
Proof. induction s as [|a s IH]; [done|]. by rewrite string_app_cons, IH. Qed.

Lemma string_app_assoc (s t u : string) : (s +:+ t) +:+ u = s +:+ t +:+ u.
Proof.
  induction s as [|a s IH]; [done|]. by rewrite !string_app_cons, IH.
Qed.

(** Two ways of cutting one string: the shorter head is a head of the
    longer one. *)
Lemma string_app_eq_app (s1 t1 s2 t2 : string) :
  s1 +:+ t1 = s2 +:+ t2 -> (String.length s2 <= String.length s1)%nat ->
  exists m, s1 = s2 +:+ m /\ t2 = m +:+ t1.
Proof.
  revert s1. induction s2 as [|a s2 IH]; intros s1 E Hl.
  - exists s1. done.
  - destruct s1 as [|b s1]; [simpl in Hl; lia|].
    rewrite !string_app_cons in E. injection E as -> E.
    destruct (IH s1 E ltac:(simpl in Hl; lia)) as (m & -> & ->).
    exists m. by rewrite string_app_cons.
Qed.

Lemma prefix_app (sub s : string) :
  String.prefix sub s = true <-> exists b, s = sub +:+ b.
Proof.
  revert s. induction sub as [|a sub IH]; intros s.
  - split; [intros _; by exists s|by destruct s].
  - destruct s as [|b s]; simpl.
    + split; [done|]. intros (t & E). by rewrite string_app_cons in E.
    + destruct (ascii_dec a b) as [->|Hne].
      * rewrite IH. split; intros (t & E); exists t.
        -- by rewrite string_app_cons, E.
        -- rewrite string_app_cons in E. by injection E.
      * split; [done|]. intros (t & E). rewrite string_app_cons in E.
        injection E as E _. by destruct Hne.
Qed.

Lemma find_Some sub s k :
  find sub s = Some k ->
  exists a b, s = a +:+ sub +:+ b /\ String.length a = k.
Proof.
  revert k. induction s as [|c s IH]; intros k; cbn [find].
  - destruct (String.prefix sub "") eqn:E; [|done]. intros [= <-].
    apply prefix_app in E as (b & E). by exists "", b.
  - destruct (String.prefix sub (String c s)) eqn:E.
    + intros [= <-]. apply prefix_app in E as (b & E). by exists "", b.
    + destruct (find sub s) as [k'|]; [|done]. intros [= <-].
      destruct (IH k' eq_refl) as (a & b & -> & <-).
      exists (String c a), b. by rewrite string_app_cons.
Qed.

Lemma find_first sub s k a b :
  find sub s = Some k -> s = a +:+ sub +:+ b -> (k <= String.length a)%nat.
Proof.
  revert k a. induction s as [|c s IH]; intros k a; cbn [find].
  - destruct (String.prefix sub ""); [intros [= <-]; lia|done].
  - destruct (String.prefix sub (String c s)) eqn:E; [intros [= <-]; lia|].
    destruct (find sub s) as [k'|]; [|done]. intros [= <-] Hs.
    destruct a as [|c' a].
    + assert (String.prefix sub (String c s) = true) as E'
        by (apply prefix_app; by exists b).
      congruence.
    + rewrite string_app_cons in Hs. injection Hs as -> ->.
      specialize (IH k' a eq_refl eq_refl). simpl. lia.
Qed.

Lemma find_None sub s a b : find sub s = None -> s <> a +:+ sub +:+ b.
Proof.
  revert a. induction s as [|c s IH]; intros a; cbn [find].
  - destruct (String.prefix sub "") eqn:E; [done|]. intros _ Hs.
    destruct a; [|by rewrite string_app_cons in Hs].
    assert (String.prefix sub "" = true) by (apply prefix_app; by exists b).
    congruence.
  - destruct (String.prefix sub (String c s)) eqn:E; [done|].
    destruct (find sub s) as [k'|] eqn:F; [done|]. intros _ Hs.
    destruct a as [|c' a].
    + assert (String.prefix sub (String c s) = true)
        by (apply prefix_app; by exists b).
      congruence.
    + rewrite string_app_cons in Hs. injection Hs as -> ->.
      by apply (IH a).
Qed.

(** The first occurrence, from its description. *)
Lemma find_app sub a b :
  (forall a' b', a +:+ sub +:+ b = a' +:+ sub +:+ b' ->
     (String.length a <= String.length a')%nat) ->
  find sub (a +:+ sub +:+ b) = Some (String.length a).
Proof.
  intros Hfirst. destruct (find sub (a +:+ sub +:+ b)) as [k|] eqn:F.
  - pose proof (find_first _ _ _ _ _ F eq_refl) as Hle.
    destruct (find_Some _ _ _ F) as (a' & b' & E & <-).
    specialize (Hfirst _ _ E). f_equal. lia.
  - by destruct (find_None _ _ a b F).
Qed.

Lemma drop_str_app (a s : string) : drop_str (String.length a) (a +:+ s) = s.
Proof.
  induction a as [|c a IH]; [done|].
  rewrite string_app_cons. simpl. done.
Qed.

Lemma lstrip_repeated c n s :
  (forall t, s <> String c t) -> lstrip c (repeated c n +:+ s) = s.
Proof.
  intros Hs. induction n as [|n IH]; simpl.
  - change ("" +:+ s) with s. destruct s as [|a s]; [done|]. simpl.
    case_bool_decide as E; [|done]. subst. by destruct (Hs s).
  - by rewrite bool_decide_eq_true_2.
Qed.

Lemma rstrip_repeated c n : rstrip c (repeated c n) = "".
Proof.
  induction n as [|n IH]; simpl; [done|].
  by rewrite IH, bool_decide_eq_true_2.
Qed.

Lemma rstrip_app_repeated c n s :
  (forall t, s <> t +:+ String c "") ->
  rstrip c (s +:+ repeated c n) = s.
Proof.
  induction s as [|a s IH]; intros Hs.
  - apply rstrip_repeated.
  - rewrite string_app_cons. simpl. destruct s as [|a' s].
    + change ("" +:+ repeated c n) with (repeated c n).
      rewrite rstrip_repeated. case_bool_decide as E; [|done].
      subst. by destruct (Hs "").
    + rewrite IH.
      * done.
      * intros t E. apply (Hs (String a t)). by rewrite string_app_cons, E.
Qed.

Lemma split_nonempty sep s : split sep s <> [].
Proof.
  induction s as [|a s IH]; simpl; [done|].
  case_bool_decide; [done|]. by destruct (split sep s).
Qed.

Lemma split_app sep d x :
  split sep (d +:+ String sep x) = split sep d ++ split sep x.
Proof.
  induction d as [|a d IH].
  - change ("" +:+ String sep x) with (String sep x). simpl.
    by rewrite bool_decide_eq_true_2.
  - rewrite string_app_cons. simpl. rewrite IH.
    case_bool_decide; [done|].
    pose proof (split_nonempty sep d). by destruct (split sep d).
Qed.

Lemma split_whole sep s :
  (forall a b, s <> a +:+ String sep b) -> split sep s = [s].
Proof.
  induction s as [|c s IH]; intros Hs; simpl; [done|].
  case_bool_decide as E.
  - subst. by destruct (Hs "" s).
  - rewrite IH; [done|]. intros a b ->. apply (Hs (String c a) b).
    by rewrite string_app_cons.
Qed.

Lemma split_last sep s :
  exists d, default "" (last (split sep s)) = d /\
            (forall a b, d <> a +:+ String sep b) /\
            (s = d \/ exists dir, s = dir +:+ String sep d).
Proof.
  induction s as [|c s (d & E & Hd & Hs)]; simpl.
  - exists "". split; [done|]. split; [|by left].
    intros a b. destruct a; [done|by rewrite string_app_cons].
  - case_bool_decide as Ec.
    + subst c. exists d. split.
      { pose proof (split_nonempty sep s).
        destruct (split sep s) as [|p ps] eqn:Es; [done|].
        by rewrite last_cons_cons. }
      split; [done|]. right. destruct Hs as [->|(dir & ->)].
      * by exists "".
      * exists (String sep dir). by rewrite string_app_cons.
    + pose proof (split_nonempty sep s).
      destruct (split sep s) as [|p ps] eqn:Es; [done|].
      destruct ps as [|p' ps].
      * simpl in E. subst p. exists (String c d). split; [done|].
        destruct Hs as [->|(dir & ->)].
        -- split; [|by left]. intros a b E.
           destruct a as [|c' a]; simpl in E.
           ++ change ("" +:+ String sep b) with (String sep b) in E.
              by injection E as -> _.
           ++ rewrite string_app_cons in E. injection E as -> E.
              by apply (Hd a b).
        -- exfalso.
           assert (length (split sep (dir +:+ String sep d)) >= 2)%nat.
           { rewrite split_app, length_app.
             pose proof (split_nonempty sep dir).
             pose proof (split_nonempty sep d).
             destruct (split sep dir), (split sep d); simpl; try done; lia. }
           rewrite Es in *. simpl in *. lia.
      * exists d. split; [by rewrite last_cons_cons in E |- *|].
        split; [done|]. right.
        destruct Hs as [->|(dir & ->)].
        -- rewrite (split_whole sep d) in Es by done. done.
        -- exists (String c dir). by rewrite string_app_cons.
Qed.

Lemma lstrip_all c n : lstrip c (repeated c n) = "".
Proof. induction n as [|n IH]; simpl; [done|]. by rewrite bool_decide_eq_true_2. Qed.

Lemma rstrip_length c s : (String.length (rstrip c s) <= String.length s)%nat.
Proof.
  induction s as [|a s IH]; simpl; [lia|].
  destruct (rstrip c s); [case_bool_decide|]; simpl in *; lia.
Qed.

Lemma rstrip_snoc c s : rstrip c (s +:+ String c "") = rstrip c s.
Proof.
  induction s as [|a s IH]; simpl; [by rewrite bool_decide_eq_true_2|].
  by rewrite IH.
Qed.

(** A string that [rstrip] leaves as it is does not end with the
    character. *)
Lemma rstrip_fixed c s :
  rstrip c s = s -> forall t, s <> t +:+ String c "".
Proof.
  intros E t ->. rewrite rstrip_snoc in E.
  pose proof (rstrip_length c t) as H. rewrite E, string_app_length in H.
  simpl in H. lia.
Qed.

Section get_filename_facts.
Variable unquote : string -> string.
Variable urlparse_path : string -> result string.

(** X1.  [get_filename] with a [Content-Disposition] header that holds
    [filename=]: the name is what follows the first [filename=], without
    the double quotes at its two ends, decoded by [unquote]; the [url] is
    not looked at. *)
Theorem get_filename_from_header url headers pre n1 name n2 :
  headers !! "Content-Disposition"
  = Some (pre +:+ "filename=" +:+ repeated dquote n1 +:+ name
          +:+ repeated dquote n2) ->
  (forall a b, pre +:+ "filename" <> a +:+ "filename=" +:+ b) ->
  (forall t, name <> String dquote t) ->
  (forall t, name <> t +:+ String dquote "") ->
  get_filename unquote urlparse_path url headers = Ok (unquote name).
Proof.
  intros Hcd Hfirst Hl Hr. unfold get_filename. rewrite Hcd.
  set (rest := repeated dquote n1 +:+ name +:+ repeated dquote n2).
  rewrite (find_app "filename=" pre rest).
  - change (String.length pre + String.length "filename=")%nat
      with (String.length pre + 9)%nat.
    replace (String.length pre + 9)%nat
      with (String.length (pre +:+ "filename=")) by (by rewrite string_app_length).
    rewrite <- string_app_assoc, drop_str_app. cbv zeta. do 2 f_equal.
    unfold strip, rest. destruct name as [|c name].
    + change ("" +:+ repeated dquote n2) with (repeated dquote n2).
      assert (forall n m, repeated dquote n +:+ repeated dquote m
                          = repeated dquote (n + m)) as Hq.
      { intros n m. induction n as [|n IH]; [done|].
        cbn [repeated Nat.add]. by rewrite string_app_cons, IH. }
      by rewrite Hq, lstrip_all.
    + rewrite lstrip_repeated.
      * by apply rstrip_app_repeated.
      * intros t E. rewrite string_app_cons in E. injection E as -> _.
        by destruct (Hl name).
  - intros a' b' E.
    destruct (Nat.le_gt_cases (String.length pre) (String.length a')) as [|Hlt];
      [done|exfalso].
    change "filename=" with ("filename" +:+ "=") in E at 1.
    rewrite <- !string_app_assoc in E. rewrite !string_app_assoc in E.
    rewrite <- (string_app_assoc pre "filename") in E.
    rewrite <- (string_app_assoc a' "filename=") in E.
    apply string_app_eq_app in E as (m & E & _).
    + rewrite string_app_assoc in E. by apply (Hfirst a' m).
    + rewrite !string_app_length. simpl. lia.
Qed.

(** X2.  [get_filename] without a usable header: the name is the last component
    of the path of the [url], the part after its last [/], decoded by
    [unquote]; what [urlparse] raises is raised. *)
Theorem get_filename_from_url url headers :
  (forall cd, headers !! "Content-Disposition" = Some cd ->
     forall a b, cd <> a +:+ "filename=" +:+ b) ->
  (forall e, urlparse_path url = Raise e ->
     get_filename unquote urlparse_path url headers = Raise e) /\
  (forall path, urlparse_path url = Ok path ->
     exists name,
       get_filename unquote urlparse_path url headers = Ok (unquote name) /\
       (forall a b, name <> a +:+ "/" +:+ b) /\
       (path = name \/ exists dir, path = dir +:+ "/" +:+ name)).
Proof.
  intros Hcd.
  assert (get_filename unquote urlparse_path url headers
          = name_from_url unquote urlparse_path url) as ->.
  { unfold get_filename. destruct (headers !! "Content-Disposition") as [cd|];
      [|done].
    destruct (find "filename=" cd) as [k|] eqn:F; [|done].
    destruct (find_Some _ _ _ F) as (a & b & E & _).
    by destruct (Hcd cd eq_refl a b). }
  unfold name_from_url. split.
  - by intros e ->.
  - intros path ->. simpl.
    destruct (split_last "/" path) as (name & E & Hname & Hpath).
    exists name. by rewrite E.
Qed.

End get_filename_facts.

Lemma get_filename_from_header_witness :
  let cd := "attachment; " +:+ "filename=" +:+ repeated dquote 1
            +:+ "a%20b.txt" +:+ repeated dquote 1 in
  let headers : gmap string string := {[ "Content-Disposition" := cd ]} in
  headers !! "Content-Disposition" = Some cd /\
  (forall a b, "attachment; " +:+ "filename" <> a +:+ "filename=" +:+ b) /\
  (forall t, "a%20b.txt" <> String dquote t) /\
  (forall t, "a%20b.txt" <> t +:+ String dquote "") /\
  get_filename (fun s => s) (fun _ => Raise ValueError) "http://h/x" headers
  = Ok "a%20b.txt".
Proof.
  intros cd headers.
  assert (forall a b, "attachment; " +:+ "filename" <> a +:+ "filename=" +:+ b)
    as H1 by (intros a b; by apply find_None).
  assert (forall t, "a%20b.txt" <> String dquote t) as H2 by done.
  assert (forall t, "a%20b.txt" <> t +:+ String dquote "") as H3
    by (by apply rstrip_fixed).
  split; [done|]. split; [exact H1|]. split; [exact H2|]. split; [exact H3|].
  exact (get_filename_from_header (fun s => s) (fun _ => Raise ValueError)
           "http://h/x" headers "attachment; " 1 "a%20b.txt" 1 eq_refl H1 H2 H3).
Defined.

Lemma get_filename_from_url_witness :
  let headers : gmap string string := {[ "Content-Disposition" := "inline" ]} in
  (forall cd, headers !! "Content-Disposition" = Some cd ->
     forall a b, cd <> a +:+ "filename=" +:+ b) /\
  exists name,
    get_filename (fun s => s) (fun _ => Ok "/dir/a.bin")
      "http://h/dir/a.bin?x=1" headers = Ok name /\
    (forall a b, name <> a +:+ "/" +:+ b) /\
    ("/dir/a.bin" = name \/ exists dir, "/dir/a.bin" = dir +:+ "/" +:+ name).
Proof.
  intros headers.
  assert (forall cd, headers !! "Content-Disposition" = Some cd ->
            forall a b, cd <> a +:+ "filename=" +:+ b) as Hcd.
  { intros cd Hcd a b. unfold headers in Hcd.
    rewrite lookup_singleton_eq in Hcd. injection Hcd as <-.
    by apply find_None. }
  split; [exact Hcd|].
  exact (proj2 (get_filename_from_url (fun s => s) (fun _ => Ok "/dir/a.bin")
                  "http://h/dir/a.bin?x=1" headers Hcd) _ eq_refl).
Defined.

(** What follows the closing quote is part of the name. *)
Example get_filename_keeps_parameters :
  get_filename (fun s => s) (fun u => Ok u) "http://h/x"
    {[ "Content-Disposition" :=
         "attachment; filename=" +:+ String dquote "a.txt"
         +:+ String dquote "; size=5" ]}
  = Ok ("a.txt" +:+ String dquote "; size=5").
Proof. vm_compute. reflexivity. Qed.

(** * Durations *)

Lemma pretty_N_go_length x s :
  (String.length s <= String.length (pretty_N_go x s))%nat.
Proof.
  revert s. induction (N.lt_wf_0 x) as [x _ IH]; intros s.
  destruct (decide (x = 0)%N) as [->|]; [by rewrite pretty_N_go_0|].
  rewrite pretty_N_go_step by lia.
  etrans; [|apply IH; apply N.div_lt; lia]. simpl. lia.
Qed.

Lemma pretty_N_digit (x : N) :
  (x < 10)%N -> pretty x = String (pretty_N_char x) "".
Proof.
  intros Hx. unfold pretty, pretty_N. case_decide as E; [by subst|].
  rewrite pretty_N_go_step by lia.
  by rewrite N.div_small, N.mod_small, pretty_N_go_0.
Qed.

Lemma pretty_N_two (x : N) :
  (10 <= x < 100)%N ->
  pretty x = String (pretty_N_char (x / 10))
               (String (pretty_N_char (x mod 10)) "").
Proof.
  intros Hx. unfold pretty, pretty_N. case_decide as E; [lia|].
  assert (0 < x / 10 < 10)%N as Hq.
  { split; [apply N.div_str_pos; lia|apply N.Div0.div_lt_upper_bound; lia]. }
  rewrite pretty_N_go_step by lia.
  rewrite pretty_N_go_step by lia.
  by rewrite (N.div_small (x / 10)), (N.mod_small (x / 10)), pretty_N_go_0 by lia.
Qed.

Lemma pretty_N_long (x : N) :
  (100 <= x)%N -> (3 <= String.length (pretty x))%nat.
Proof.
  intros Hx. unfold pretty, pretty_N. case_decide as E; [lia|].
  assert (10 <= x / 10)%N as Hq by (apply N.div_le_lower_bound; lia).
  assert (0 < x / 10 / 10)%N as Hq' by (apply N.div_str_pos; lia).
  rewrite pretty_N_go_step by lia.
  rewrite pretty_N_go_step by lia.
  rewrite pretty_N_go_step by lia.
  etrans; [|apply pretty_N_go_length]. simpl. lia.
Qed.

Lemma pretty_N_nonempty (x : N) : (1 <= String.length (pretty x))%nat.
Proof.
  destruct (decide (x < 10)%N) as [Hx|Hx].
  - by rewrite pretty_N_digit.
  - destruct (decide (x < 100)%N).
    + rewrite pretty_N_two by lia. simpl. lia.
    + pose proof (pretty_N_long x ltac:(lia)). lia.
Qed.

(** [f"{z:02d}"] is two digits from 0 to 99 and [str(z)] elsewhere. *)
Lemma format_02d_spec z :
  format_02d z
  = if (0 <=? z) && (z <? 100) then two_digits z else pretty z.
Proof.
  unfold format_02d, zfill.
  pose proof (pretty_N_nonempty (Z.abs_N z)) as Hne.
  destruct (Z.ltb_spec z 0) as [Hneg|Hpos].
  - rewrite (proj2 (Z.leb_gt 0 z)) by done. simpl andb. cbv iota.
    replace (1 - String.length (pretty (Z.abs_N z)))%nat with 0%nat by lia.
    destruct z as [|p|p]; try lia. done.
  - rewrite (proj2 (Z.leb_le 0 z)) by done. simpl andb.
    destruct (Z.ltb_spec z 100) as [Hlt|Hge].
    + unfold two_digits.
      assert (Z.abs_N z = Z.to_N z) as -> by lia.
      rewrite Z2N.inj_div, Z2N.inj_mod by lia.
      change (Z.to_N 10) with 10%N.
      destruct (decide (Z.to_N z < 10)%N) as [Hd|Hd].
      * rewrite pretty_N_digit by done.
        by rewrite N.div_small, N.mod_small by done.
      * by rewrite pretty_N_two by lia.
    + pose proof (pretty_N_long (Z.abs_N z) ltac:(lia)).
      replace (2 - String.length (pretty (Z.abs_N z)))%nat with 0%nat by lia.
      destruct z as [|p|p]; try lia. done.
Qed.

Lemma two_digits_inj a b :
  0 <= a < 100 -> 0 <= b < 100 -> two_digits a = two_digits b -> a = b.
Proof.
  intros Ha Hb [= H1 H2].
  apply pretty_N_char_inj in H1, H2.
  - apply (f_equal Z.of_N) in H1, H2.
    rewrite !Z2N.id in H1, H2
      by (try apply Z.div_pos; try apply Z.mod_pos_bound; lia).
    rewrite (Z.div_mod a 10), (Z.div_mod b 10) by lia. lia.
  - pose proof (Z.mod_pos_bound a 10). lia.
  - pose proof (Z.mod_pos_bound b 10). lia.
  - assert (a / 10 < 10) by (apply Z.div_lt_upper_bound; lia).
    pose proof (Z.div_pos a 10). lia.
  - assert (b / 10 < 10) by (apply Z.div_lt_upper_bound; lia).
    pose proof (Z.div_pos b 10). lia.
Qed.

(** The hours field. *)
Lemma hours_inj a b : format_02d a = format_02d b -> a = b.
Proof.
  rewrite !format_02d_spec.
  destruct ((0 <=? a) && (a <? 100)) eqn:Ea, ((0 <=? b) && (b <? 100)) eqn:Eb.
  - apply two_digits_inj; lia.
  - intros E. exfalso. destruct b as [|p|p]; try lia.
    + pose proof (pretty_N_long (N.pos p) ltac:(lia)) as Hl.
      change (pretty (Z.pos p)) with (pretty (N.pos p)) in E.
      rewrite <- E in Hl. simpl in Hl. lia.
    + change (pretty (Z.neg p)) with ("-" +:+ pretty (N.pos p)) in E.
      unfold two_digits in E. injection E as E _.
      unfold pretty_N_char in E. by repeat case_match.
  - intros E. exfalso. destruct a as [|p|p]; try lia.
    + pose proof (pretty_N_long (N.pos p) ltac:(lia)) as Hl.
      change (pretty (Z.pos p)) with (pretty (N.pos p)) in E.
      rewrite E in Hl. simpl in Hl. lia.
    + change (pretty (Z.neg p)) with ("-" +:+ pretty (N.pos p)) in E.
      unfold two_digits in E. injection E as E _.
      unfold pretty_N_char in E. by repeat case_match.
  - apply (inj pretty).
Qed.

Lemma string_app_inj_length (s1 t1 s2 t2 : string) :
  s1 +:+ t1 = s2 +:+ t2 -> String.length t1 = String.length t2 ->
  s1 = s2 /\ t1 = t2.
Proof.
  intros E Hl.
  assert (String.length s1 = String.length s2) as Hs.
  { apply (f_equal String.length) in E. rewrite !string_app_length in E. lia. }
  destruct (string_app_eq_app _ _ _ _ E ltac:(lia)) as (m & E1 & E2).
  destruct m as [|c m].
  - by rewrite string_app_nil_r in E1.
  - apply (f_equal String.length) in E1. rewrite string_app_length in E1.
    simpl in E1. lia.
Qed.

Lemma timestring_Int sec :
  timestring (Int sec)
  = Ok (format_02d (sec / 60 / 60) +:+ ":" +:+ format_02d (sec / 60 mod 60)
        +:+ ":" +:+ format_02d (sec mod 60)).
Proof. done. Qed.

(** X3.  [timestring] of [h] hours, [m] minutes and [s] seconds shows the three
    fields: minutes and seconds on two digits, hours on two digits up to
    99 and as [str(h)] beyond, which is longer for 100 hours and more and
    starts with the sign for a negative number. *)
Theorem timestring_fields h m s :
  0 <= m < 60 -> 0 <= s < 60 ->
  timestring (Int (3600 * h + 60 * m + s))
  = Ok ((if (0 <=? h) && (h <? 100) then two_digits h else pretty h)
        +:+ ":" +:+ two_digits m +:+ ":" +:+ two_digits s).
Proof.
  intros Hm Hs. rewrite timestring_Int.
  assert ((3600 * h + 60 * m + s) / 60 = 60 * h + m) as ->
    by (symmetry; apply (Z.div_unique _ _ _ s); lia).
  assert ((3600 * h + 60 * m + s) mod 60 = s) as ->
    by (symmetry; apply (Z.mod_unique _ _ (60 * h + m)); lia).
  assert ((60 * h + m) / 60 = h) as ->
    by (symmetry; apply (Z.div_unique _ _ _ m); lia).
  assert ((60 * h + m) mod 60 = m) as ->
    by (symmetry; apply (Z.mod_unique _ _ h); lia).
  rewrite !format_02d_spec.
  by rewrite (proj2 (andb_true_iff (0 <=? m) (m <? 100))),
             (proj2 (andb_true_iff (0 <=? s) (s <? 100))) by lia.
Qed.

Lemma timestring_fields_witness :
  0 <= 59 < 60 /\ 0 <= 59 < 60 /\
  timestring (Int (3600 * (-1) + 60 * 59 + 59)) = Ok "-1:59:59".
Proof.
  split; [lia|]. split; [lia|].
  exact (timestring_fields (-1) 59 59 ltac:(lia) ltac:(lia)).
Defined.

(** X4.  Two different numbers of seconds are never shown alike. *)
Theorem timestring_injective a b :
  a <> b -> timestring (Int a) <> timestring (Int b).
Proof.
  intros Hab. rewrite !timestring_Int. intros [= E].
  pose proof (Z.mod_pos_bound a 60 ltac:(lia)) as Hsa.
  pose proof (Z.mod_pos_bound b 60 ltac:(lia)) as Hsb.
  pose proof (Z.mod_pos_bound (a / 60) 60 ltac:(lia)) as Hma.
  pose proof (Z.mod_pos_bound (b / 60) 60 ltac:(lia)) as Hmb.
  rewrite (format_02d_spec (a mod 60)), (format_02d_spec (b mod 60)),
    (format_02d_spec (a / 60 mod 60)), (format_02d_spec (b / 60 mod 60)) in E.
  rewrite !(proj2 (andb_true_iff _ _)) in E by lia.
  apply string_app_inj_length in E as [Eh E]; [|done].
  apply hours_inj in Eh. unfold two_digits in E. cbn in E.
  injection E as E1 E2 E3 E4.
  assert (two_digits (a / 60 mod 60) = two_digits (b / 60 mod 60)) as Em
    by (unfold two_digits; congruence).
  assert (two_digits (a mod 60) = two_digits (b mod 60)) as Es
    by (unfold two_digits; congruence).
  apply two_digits_inj in Em, Es; [|lia..].
  apply Hab.
  rewrite (Z.div_mod a 60), (Z.div_mod b 60) by lia.
  rewrite (Z.div_mod (a / 60) 60), (Z.div_mod (b / 60) 60) by lia. lia.
Qed.

Lemma timestring_injective_witness :
  359999 <> 360000 /\
  timestring (Int 359999) <> timestring (Int 360000).
Proof.
  split; [lia|]. exact (timestring_injective 359999 360000 ltac:(lia)).
Defined.

(** X5.  A [float] argument is truncated towards zero, so that every fraction
    of a second between -1 and 1 is shown as zero; NaN and the infinities
    raise. *)
Theorem timestring_of_float :
  timestring (Float S754_nan) = Raise ValueError /\
  (forall sign, timestring (Float (S754_infinity sign)) = Raise OverflowError) /\
  (forall sign, timestring (Float (S754_zero sign)) = Ok "00:00:00") /\
  (forall sign m e, e < 0 -> Z.pos m < 2 ^ (- e) ->
     timestring (Float (S754_finite sign m e)) = Ok "00:00:00").
Proof.
  split; [done|]. split; [done|]. split; [done|].
  intros sign m e He Hm. destruct e as [|k|k]; try lia.
  unfold timestring. cbn [int PyFloat.int_of_float rbind].
  change (- Z.neg k) with (Z.pos k) in Hm.
  rewrite Z.div_small by lia. by destruct sign.
Qed.

Example timestring_examples :
  timestring (Int 3661) = Ok "01:01:01" /\
  timestring (Int 360000) = Ok "100:00:00" /\
  timestring (Int (-1)) = Ok "-1:59:59".
Proof. repeat split; vm_compute; reflexivity. Qed.

(** * More on the segment table *)

Section boundaries_near.
Variables size n : Z.
Hypothesis Hsize : 1 <= size < 2 ^ 52.
Hypothesis Hn : 1 <= n <= 2 ^ 52.

Lemma size_below_1023 : 1 <= size < 2 ^ 1023.
Proof.
  split; [lia|]. eapply Z.lt_le_trans; [apply Hsize|].
  apply Z.pow_le_mono_r; lia.
Qed.

(** The rounded product [partition_size * i] is less than one byte away
    from [size * i / n]. *)
Lemma product_near i :
  1 <= i <= n ->
  (size * i - n) * 2 ^ K < rnd (partition_value size n * i) 1 * n
  < (size * i + n) * 2 ^ K.
Proof.
  intros Hi. pose proof size_below_1023 as Hs.
  set (vp := partition_value size n).
  set (R := rnd (vp * i) 1).
  pose proof pow2_K_pos as HK. set (k := 2 ^ K) in *.
  pose proof (partition_size_lower size n Hs Hn) as Hl. fold vp in Hl.
  pose proof (pow2_pos (K - 52) ltac:(unfold K; lia)) as Hl'.
  assert (0 < vp) as Hvp by lia. clear Hl Hl'.
  assert (size * k * (2 ^ 53 - 1) <= vp * n * 2 ^ 53
          <= size * k * (2 ^ 53 + 1)) as [He1 He2].
  { apply rnd_error; [lia|]. by apply quotient_normal. }
  assert (vp * i * (2 ^ 53 - 1) <= R * 1 * 2 ^ 53
          <= vp * i * (2 ^ 53 + 1)) as [HR1 HR2].
  { apply rnd_error; [lia|]. apply product_normal; [done..|lia]. }
  rewrite Z.mul_1_r in HR1, HR2.
  assert (size * (2 * 2 ^ 53 + 1) < 2 ^ 53 * 2 ^ 53) as Hc.
  { assert ((2 ^ 52 - 1) * (2 * 2 ^ 53 + 1) < 2 ^ 53 * 2 ^ 53) by (by vm_compute).
    assert (size * (2 * 2 ^ 53 + 1) <= (2 ^ 52 - 1) * (2 * 2 ^ 53 + 1))
      by (apply Z.mul_le_mono_nonneg_r; [by vm_compute|lia]).
    lia. }
  assert (1 < 2 ^ 53) as Hc1 by (by vm_compute).
  remember (2 ^ 53) as c eqn:Ec. clear Ec.
  (* the slack of two roundings, in units of [k * n * c * c] *)
  assert (size * k * i * (2 * c + 1) < k * n * (c * c)) as Hslack.
  { apply Z.le_lt_trans with (k * n * (size * (2 * c + 1))).
    - replace (size * k * i * (2 * c + 1))
        with (k * i * (size * (2 * c + 1))) by ring.
      apply Z.mul_le_mono_nonneg_r; [nia|].
      apply Z.mul_le_mono_nonneg_l; lia.
    - apply Z.mul_lt_mono_pos_l; [nia|done]. }
  split.
  - (* from below *)
    assert (size * k * (c - 1) * (i * (c - 1)) <= vp * n * c * (i * (c - 1)))
      as A1 by (apply Z.mul_le_mono_nonneg_r; [nia|done]).
    assert (vp * i * (c - 1) * (n * c) <= R * c * (n * c))
      as A2 by (apply Z.mul_le_mono_nonneg_r; [nia|done]).
    assert (size * k * i * ((c - 1) * (c - 1)) <= R * n * (c * c)) as A3.
    { replace (size * k * i * ((c - 1) * (c - 1)))
        with (size * k * (c - 1) * (i * (c - 1))) by ring.
      replace (R * n * (c * c)) with (R * c * (n * c)) by ring.
      etransitivity; [exact A1|].
      replace (vp * n * c * (i * (c - 1)))
        with (vp * i * (c - 1) * (n * c)) by ring.
      exact A2. }
    assert ((size * i - n) * k * (c * c) < R * n * (c * c)) as A4.
    { eapply Z.lt_le_trans; [|exact A3].
      replace ((size * i - n) * k * (c * c))
        with (size * k * i * (c * c) - k * n * (c * c)) by ring.
      replace (size * k * i * ((c - 1) * (c - 1)))
        with (size * k * i * (c * c) - size * k * i * (2 * c - 1)) by ring.
      assert (size * k * i * (2 * c - 1) <= size * k * i * (2 * c + 1))
        by (apply Z.mul_le_mono_nonneg_l; nia).
      lia. }
    apply (Z.mul_lt_mono_pos_r (c * c)); [nia|done].
  - (* from above *)
    assert (R * c * (n * c) <= vp * i * (c + 1) * (n * c))
      as A1 by (apply Z.mul_le_mono_nonneg_r; [nia|done]).
    assert (vp * n * c * (i * (c + 1)) <= size * k * (c + 1) * (i * (c + 1)))
      as A2 by (apply Z.mul_le_mono_nonneg_r; [nia|done]).
    assert (R * n * (c * c) <= size * k * i * ((c + 1) * (c + 1))) as A3.
    { replace (R * n * (c * c)) with (R * c * (n * c)) by ring.
      etransitivity; [exact A1|].
      replace (vp * i * (c + 1) * (n * c))
        with (vp * n * c * (i * (c + 1))) by ring.
      etransitivity; [exact A2|].
      apply Z.eq_le_incl. ring. }
    assert (R * n * (c * c) < (size * i + n) * k * (c * c)) as A4.
    { eapply Z.le_lt_trans; [exact A3|].
      replace ((size * i + n) * k * (c * c))
        with (size * k * i * (c * c) + k * n * (c * c)) by ring.
      replace (size * k * i * ((c + 1) * (c + 1)))
        with (size * k * i * (c * c) + size * k * i * (2 * c + 1)) by ring.
      lia. }
    apply (Z.mul_lt_mono_pos_r (c * c)); [nia|done].
Qed.

(** Every boundary is where an even split puts it, up to two bytes. *)
Lemma boundary_near i :
  0 <= i <= n ->
  size * i - 2 * n < n * boundary size n i < size * i + n.
Proof.
  intros Hi. unfold boundary. destruct (i =? 0) eqn:Ei.
  { apply Z.eqb_eq in Ei. subst i. lia. }
  apply Z.eqb_neq in Ei.
  pose proof (product_near i ltac:(lia)) as [Hlo Hhi].
  set (R := rnd (partition_value size n * i) 1) in *.
  pose proof pow2_K_pos as HK. set (k := 2 ^ K) in *.
  pose proof (Z.div_mod R k ltac:(lia)) as Hdm.
  pose proof (Z.mod_pos_bound R k HK) as Hm.
  set (b := R / k) in *.
  split.
  - assert ((size * i - n) * k < (b + 1) * n * k) as H by nia.
    apply Z.mul_lt_mono_pos_r in H; [lia|done].
  - assert (b * n * k < (size * i + n) * k) as H by nia.
    apply Z.mul_lt_mono_pos_r in H; [lia|done].
Qed.

Lemma boundary_total : boundary size n n = size \/ boundary size n n = size - 1.
Proof.
  pose proof (boundary_near n ltac:(lia)) as [Hlo Hhi].
  assert (size - 2 < boundary size n n) by nia.
  assert (boundary size n n < size + 1) by nia.
  lia.
Qed.

End boundaries_near.

Lemma create_segment_table_planned url filepath segments size etag fs n :
  effective_segments url filepath segments size etag fs = Ok n ->
  1 <= size < 2 ^ 1023 -> 1 <= n <= 2 ^ 52 ->
  snd (create_segment_table url filepath segments size etag fs)
  = Ok {| dic_url := url; dic_segments := n;
          dic_rows := planned_row filepath size n <$> seqZ 0 n |}.
Proof.
  intros He Hs Hn. rewrite create_segment_table_effective, He. simpl.
  by apply build_table_planned.
Qed.

Lemma segment_entry_path filepath n p i row :
  segment_entry filepath n p i = Ok row -> path row = segment_path filepath i.
Proof.
  unfold segment_entry.
  destruct (PyFloat.mul_int p i) as [s|]; [simpl|done].
  destruct (PyFloat.int_of_float s) as [a|]; [simpl|done].
  destruct (PyFloat.mul_int p (i + 1)) as [e|]; [simpl|done].
  destruct (PyFloat.int_of_float e) as [b|]; [simpl|done].
  by intros [= <-].
Qed.

Lemma table_row_path url filepath segments size etag fs dic (i : nat) row :
  snd (create_segment_table url filepath segments size etag fs) = Ok dic ->
  dic_rows dic !! i = Some row ->
  path row = segment_path filepath (Z.of_nat i).
Proof.
  intros Hd Hi.
  destruct (create_segment_table_inv _ _ _ _ _ _ _ Hd) as (n & _ & Hb).
  destruct (build_table_inv _ _ _ _ _ Hb) as (p & _ & _ & _ & Hrows).
  destruct (rmap_lookup _ _ _ _ _ Hrows Hi) as (x & Hx & Hrow).
  apply lookup_seqZ in Hx as [-> _].
  by rewrite (segment_entry_path _ _ _ _ _ Hrow).
Qed.

(** X6.  The segments of a table are stored in files of their own: the
    file of segment [i] is [filepath.i.bin], no two segments share a file,
    and no segment is stored in the destination or in the manifest. *)
Theorem segment_paths_distinct url filepath segments size etag fs dic
    (i j : nat) ri rj :
  snd (create_segment_table url filepath segments size etag fs) = Ok dic ->
  dic_rows dic !! i = Some ri -> dic_rows dic !! j = Some rj ->
  path ri = segment_path filepath (Z.of_nat i) /\
  (path ri = path rj -> i = j) /\
  path ri <> filepath /\
  path ri <> progress_path filepath.
Proof.
  intros Hd Hi Hj.
  pose proof (table_row_path _ _ _ _ _ _ _ _ _ Hd Hi) as Ei.
  pose proof (table_row_path _ _ _ _ _ _ _ _ _ Hd Hj) as Ej.
  rewrite Ei, Ej. split; [done|]. split; [|split].
  - intros E. apply segment_path_inj in E. lia.
  - apply segment_path_ne_filepath.
  - apply segment_path_ne_progress_path.
Qed.

Lemma segment_paths_distinct_witness :
  let dic := {| dic_url := "u"; dic_segments := 2;
                dic_rows := [ Segment 0 4 5 "f.0.bin";
                              Segment 5 10 5 "f.1.bin" ] |} in
  snd (create_segment_table "u" "f" 2 10 EtagNone ∅) = Ok dic /\
  dic_rows dic !! 0%nat = Some (Segment 0 4 5 "f.0.bin") /\
  dic_rows dic !! 1%nat = Some (Segment 5 10 5 "f.1.bin") /\
  "f.0.bin" = segment_path "f" 0 /\
  ("f.0.bin" = "f.1.bin" -> 0%nat = 1%nat) /\
  "f.0.bin" <> "f" /\ "f.0.bin" <> progress_path "f".
Proof.
  intros dic.
  assert (snd (create_segment_table "u" "f" 2 10 EtagNone ∅) = Ok dic) as Hd
    by (vm_compute; reflexivity).
  split; [exact Hd|]. split; [reflexivity|]. split; [reflexivity|].
  exact (segment_paths_distinct "u" "f" 2 10 EtagNone ∅ dic 0 1
           (Segment 0 4 5 "f.0.bin") (Segment 5 10 5 "f.1.bin")
           Hd eq_refl eq_refl).
Defined.

(** X7.  The manifest that [create_segment_table] leaves on disk agrees
    with the table it returns: same [url], the [etag] of the call, and
    the segment count of the table, which has one row for each segment;
    no other manifest is touched. *)
Theorem create_segment_table_manifest url filepath segments size etag fs dic :
  snd (create_segment_table url filepath segments size etag fs) = Ok dic ->
  let fs' := fst (create_segment_table url filepath segments size etag fs) in
  fs' !! progress_path filepath
  = Some (Manifest url etag (dic_segments dic)) /\
  dic_url dic = url /\
  length (dic_rows dic) = Z.to_nat (dic_segments dic) /\
  forall p, p <> progress_path filepath -> fs' !! p = fs !! p.
Proof.
  intros Hd fs'.
  destruct (create_segment_table_inv _ _ _ _ _ _ _ Hd) as (n & He & Hb).
  destruct (build_table_inv _ _ _ _ _ Hb) as (p & _ & Hu & Hn & Hrows).
  subst fs'. rewrite create_segment_table_effective, He. simpl.
  rewrite Hn. split; [apply lookup_insert_eq|]. split; [done|]. split.
  - rewrite (rmap_length _ _ _ Hrows). apply length_seqZ.
  - intros q Hq. by apply lookup_insert_ne.
Qed.

Lemma create_segment_table_manifest_witness :
  let r := create_segment_table "u" "f" 9 10 (EtagStr "v")
             {[ "g.json" := Manifest "u" (EtagStr "v") 3 ]} in
  exists dic,
    snd r = Ok dic /\
    fst r !! progress_path "f" = Some (Manifest "u" (EtagStr "v") 5) /\
    dic_segments dic = 5 /\
    dic_url dic = "u" /\
    length (dic_rows dic) = 5%nat /\
    fst r !! "g.json" = Some (Manifest "u" (EtagStr "v") 3).
Proof.
  intros r. destruct (snd r) as [dic|] eqn:Hd; [|by vm_compute in Hd].
  exists dic. split; [done|].
  destruct (create_segment_table_manifest "u" "f" 9 10 (EtagStr "v")
              {[ "g.json" := Manifest "u" (EtagStr "v") 3 ]} dic Hd)
    as (Hm & Hu & Hl & Hf).
  assert (dic_segments dic = 5) as Hn.
  { vm_compute in Hd. by injection Hd as <-. }
  fold r in Hm, Hf. rewrite Hn in Hm, Hl.
  split; [exact Hm|]. split; [exact Hn|]. split; [exact Hu|].
  split; [exact Hl|]. by rewrite Hf.
Defined.

Lemma boundary_divisible n q i :
  1 <= n -> 1 <= q -> n * q < 2 ^ 52 -> 0 <= i <= n ->
  boundary (n * q) n i = i * q.
Proof.
  intros Hn Hq Hs Hi. unfold boundary. destruct (i =? 0) eqn:Ei.
  { apply Z.eqb_eq in Ei. by subst i. }
  apply Z.eqb_neq in Ei.
  pose proof pow2_K_pos as HK.
  assert (2 ^ 52 < 2 ^ 53) by (by vm_compute).
  assert (q <= n * q) by nia.
  assert (i * q <= n * q) by (apply Z.mul_le_mono_nonneg_r; lia).
  assert (partition_value (n * q) n = q * 2 ^ K) as ->.
  { unfold partition_value.
    replace (n * q * 2 ^ K) with (q * 2 ^ K * n) by ring.
    rewrite <- (Z.mul_1_l n) at 2. rewrite rnd_scale by lia.
    apply rnd_exact_int; [lia|unfold K; lia]. }
  replace (q * 2 ^ K * i) with (i * q * 2 ^ K) by ring.
  rewrite rnd_exact_int; [|nia|unfold K; lia].
  apply Z.div_mul. lia.
Qed.

(** X8.  When the segment count divides the size, floating point does not
    show: every segment has exactly [size / segments] bytes and starts at
    a multiple of it. *)
Theorem create_segment_table_divisible url filepath segments size etag fs n q :
  effective_segments url filepath segments size etag fs = Ok n ->
  1 <= n -> 1 <= q -> size = n * q -> size < 2 ^ 52 ->
  snd (create_segment_table url filepath segments size etag fs)
  = Ok {| dic_url := url; dic_segments := n;
          dic_rows :=
            (fun i => {| start := i * q;
                         end_ := if bool_decide (i <> n - 1)
                                 then (i + 1) * q - 1 else (i + 1) * q;
                         segment_size := q;
                         path := segment_path filepath i |}) <$> seqZ 0 n |}.
Proof.
  intros He Hn Hq -> Hs.
  assert (n <= n * q) by nia.
  rewrite (create_segment_table_planned _ _ _ _ _ _ n He).
  - do 2 f_equal. apply list_fmap_ext. intros k i Hk.
    apply lookup_seqZ in Hk as [-> Hk]. unfold planned_row.
    rewrite !boundary_divisible by lia. f_equal. ring.
  - split; [nia|]. eapply Z.lt_le_trans; [exact Hs|].
    apply Z.pow_le_mono_r; lia.
  - lia.
Qed.

Lemma create_segment_table_divisible_witness :
  effective_segments "u" "f" 3 (3 * 7) EtagNone ∅ = Ok 3 /\
  1 <= 3 /\ 1 <= 7 /\ 3 * 7 = 3 * 7 /\ 3 * 7 < 2 ^ 52 /\
  snd (create_segment_table "u" "f" 3 (3 * 7) EtagNone ∅)
  = Ok {| dic_url := "u"; dic_segments := 3;
          dic_rows := [ Segment 0 6 7 "f.0.bin"; Segment 7 13 7 "f.1.bin";
                        Segment 14 21 7 "f.2.bin" ] |}.
Proof.
  split; [reflexivity|]. split; [lia|]. split; [lia|]. split; [lia|].
  split; [lia|].
  exact (create_segment_table_divisible "u" "f" 3 (3 * 7) EtagNone ∅ 3 7
           eq_refl ltac:(lia) ltac:(lia) eq_refl ltac:(lia)).
Defined.

Lemma total_size_planned filepath size n (m : nat) : forall k,
  total_size (planned_row filepath size n <$> seqZ k (Z.of_nat m))
  = boundary size n (k + Z.of_nat m) - boundary size n k.
Proof.
  unfold total_size. induction m as [|m IH]; intros k.
  - simpl. rewrite Z.add_0_r. lia.
  - rewrite seqZ_cons by lia. rewrite !fmap_cons. cbn [foldr].
    replace (Z.pred (Z.of_nat (S m))) with (Z.of_nat m) by lia.
    rewrite (IH (Z.succ k)). unfold planned_row at 1. cbn [segment_size].
    replace (Z.succ k + Z.of_nat m) with (k + Z.of_nat (S m)) by lia.
    replace (Z.succ k) with (k + 1) by lia. lia.
Qed.

(** X9.  The segment sizes of a table add up to the stored end of its
    last segment, which is the size of the resource or one byte less:
    the rounding of [size / segments] and of its multiples can lose the
    last byte. *)
Theorem segment_sizes_total url filepath segments size etag fs n dic :
  1 <= size < 2 ^ 52 ->
  effective_segments url filepath segments size etag fs = Ok n ->
  1 <= n <= 2 ^ 52 ->
  snd (create_segment_table url filepath segments size etag fs) = Ok dic ->
  (total_size (dic_rows dic) = size \/ total_size (dic_rows dic) = size - 1) /\
  exists last,
    dic_rows dic !! Z.to_nat (n - 1) = Some last /\
    end_ last = total_size (dic_rows dic).
Proof.
  intros Hs He Hn Hd.
  rewrite (create_segment_table_planned _ _ _ _ _ _ n He) in Hd;
    [|by apply size_below_1023|done].
  injection Hd as <-. cbn [dic_rows].
  assert (total_size (planned_row filepath size n <$> seqZ 0 n)
          = boundary size n n) as ->.
  { rewrite <- (Z2Nat.id n) at 2 by lia. rewrite total_size_planned.
    rewrite Z2Nat.id by lia. rewrite Z.add_0_l.
    change (boundary size n 0) with 0. lia. }
  split; [by apply boundary_total|].
  exists (planned_row filepath size n (n - 1)). split.
  - rewrite list_lookup_fmap.
    rewrite (proj2 (lookup_seqZ 0 n (Z.to_nat (n - 1)) (n - 1))) by lia. done.
  - unfold planned_row. cbn [end_].
    rewrite bool_decide_eq_false_2 by lia. f_equal. lia.
Qed.

Lemma segment_sizes_total_witness :
  1 <= 52428810 < 2 ^ 52 /\
  effective_segments "u" "f" 11 52428810 EtagNone ∅ = Ok 11 /\
  1 <= 11 <= 2 ^ 52 /\
  exists dic,
    snd (create_segment_table "u" "f" 11 52428810 EtagNone ∅) = Ok dic /\
    total_size (dic_rows dic) = 52428810 - 1.
Proof.
  assert (effective_segments "u" "f" 11 52428810 EtagNone ∅ = Ok 11) as He
    by (vm_compute; reflexivity).
  split; [lia|]. split; [exact He|]. split; [lia|].
  destruct (snd (create_segment_table "u" "f" 11 52428810 EtagNone ∅))
    as [dic|] eqn:Hd; [|by vm_compute in Hd].
  exists dic. split; [done|].
  destruct (segment_sizes_total "u" "f" 11 52428810 EtagNone ∅ 11 dic
              ltac:(lia) He ltac:(lia) Hd) as [[H|H] _]; [|exact H].
  exfalso. vm_compute in Hd. injection Hd as <-. by vm_compute in H.
Defined.

(** X10.  The segments are balanced: every segment size is within three
    bytes of [size / segments], and none is negative. *)
Theorem segment_sizes_balanced url filepath segments size etag fs n dic
    (i : nat) row :
  1 <= size < 2 ^ 52 ->
  effective_segments url filepath segments size etag fs = Ok n ->
  1 <= n <= 2 ^ 52 ->
  snd (create_segment_table url filepath segments size etag fs) = Ok dic ->
  dic_rows dic !! i = Some row ->
  0 <= segment_size row /\
  size - 3 * n < n * segment_size row < size + 3 * n.
Proof.
  intros Hs He Hn Hd Hi.
  pose proof (size_below_1023 size Hs) as Hs'.
  rewrite (create_segment_table_planned _ _ _ _ _ _ n He) in Hd by done.
  injection Hd as <-. cbn [dic_rows] in Hi.
  rewrite list_lookup_fmap in Hi.
  destruct (seqZ 0 n !! i) as [k|] eqn:Hk; [|done].
  apply lookup_seqZ in Hk as [-> Hk]. injection Hi as <-.
  unfold planned_row. cbn [segment_size]. rewrite Z.add_0_l.
  pose proof (boundary_near size n Hs Hn (Z.of_nat i) ltac:(lia)) as [L1 U1].
  pose proof (boundary_near size n Hs Hn (Z.of_nat i + 1) ltac:(lia))
    as [L2 U2].
  pose proof (boundary_mono size n Hs' Hn (Z.of_nat i) (Z.of_nat i + 1)
                ltac:(lia)).
  split; [lia|]. lia.
Qed.

Lemma segment_sizes_balanced_witness :
  1 <= 10 < 2 ^ 52 /\
  effective_segments "u" "f" 3 10 EtagNone ∅ = Ok 3 /\
  1 <= 3 <= 2 ^ 52 /\
  snd (create_segment_table "u" "f" 3 10 EtagNone ∅)
  = Ok {| dic_url := "u"; dic_segments := 3;
          dic_rows := [ Segment 0 2 3 "f.0.bin"; Segment 3 5 3 "f.1.bin";
                        Segment 6 10 4 "f.2.bin" ] |} /\
  0 <= 4 /\ 10 - 3 * 3 < 3 * 4 < 10 + 3 * 3.
Proof.
  split; [lia|]. split; [reflexivity|]. split; [lia|].
  assert (snd (create_segment_table "u" "f" 3 10 EtagNone ∅)
          = Ok {| dic_url := "u"; dic_segments := 3;
                  dic_rows := [ Segment 0 2 3 "f.0.bin";
                                Segment 3 5 3 "f.1.bin";
                                Segment 6 10 4 "f.2.bin" ] |}) as Hd
    by (vm_compute; reflexivity).
  split; [exact Hd|].
  exact (segment_sizes_balanced "u" "f" 3 10 EtagNone ∅ 3 _ 2
           (Segment 6 10 4 "f.2.bin") ltac:(lia) eq_refl ltac:(lia) Hd eq_refl).
Defined.

Lemma sum_below_length (sizes : list Z) :
  Forall (fun s => 0 <= s) sizes ->
  foldr Z.add 0 sizes < Z.of_nat (length sizes) ->
  exists i, sizes !! i = Some 0.
Proof.
  induction sizes as [|s sizes IH]; intros Hpos Hsum; simpl in *; [lia|].
  apply Forall_cons in Hpos as [Hs Hpos].
  destruct (decide (s = 0)) as [->|Hne]; [by exists 0%nat|].
  destruct IH as (i & Hi); [done|lia|]. by exists (S i).
Qed.

(** X11.  With more segments than bytes some segment is empty: its size
    is 0, so that its worker has nothing to download. *)
Theorem more_segments_than_bytes url filepath segments size etag fs n dic :
  1 <= size < n ->
  effective_segments url filepath segments size etag fs = Ok n ->
  n <= 2 ^ 52 ->
  snd (create_segment_table url filepath segments size etag fs) = Ok dic ->
  exists (i : nat) row,
    dic_rows dic !! i = Some row /\ segment_size row = 0.
Proof.
  intros Hs He Hn Hd.
  assert (1 <= size < 2 ^ 52) as Hs52 by lia.
  pose proof (size_below_1023 size Hs52) as Hs'.
  rewrite (create_segment_table_planned _ _ _ _ _ _ n He) in Hd by (done || lia).
  injection Hd as <-. cbn [dic_rows].
  set (rows := planned_row filepath size n <$> seqZ 0 n).
  destruct (sum_below_length (segment_size <$> rows)) as (i & Hi).
  - apply Forall_fmap, Forall_fmap, Forall_forall. intros k Hk.
    apply elem_of_seqZ in Hk. simpl.
    pose proof (boundary_mono size n Hs' ltac:(lia) k (k + 1) ltac:(lia)).
    lia.
  - rewrite length_fmap. unfold rows. rewrite length_fmap, length_seqZ.
    change (foldr Z.add 0 (segment_size <$> _))
      with (total_size (planned_row filepath size n <$> seqZ 0 n)).
    rewrite <- (Z2Nat.id n) at 2 by lia. rewrite total_size_planned.
    rewrite !Z2Nat.id by lia. rewrite Z.add_0_l.
    destruct (boundary_total size n Hs52 ltac:(lia)) as [-> | ->];
      change (boundary size n 0) with 0; lia.
  - rewrite list_lookup_fmap in Hi.
    destruct (rows !! i) as [row|] eqn:Hrow; [|done].
    injection Hi as Hi. by exists i, row.
Qed.

Lemma more_segments_than_bytes_witness :
  1 <= 3 < 4 /\
  effective_segments "u" "f" 4 3 EtagNone ∅ = Ok 4 /\
  4 <= 2 ^ 52 /\
  exists dic (i : nat) row,
    snd (create_segment_table "u" "f" 4 3 EtagNone ∅) = Ok dic /\
    dic_rows dic !! i = Some row /\ segment_size row = 0.
Proof.
  assert (effective_segments "u" "f" 4 3 EtagNone ∅ = Ok 4) as He
    by reflexivity.
  split; [lia|]. split; [exact He|]. split; [lia|].
  destruct (snd (create_segment_table "u" "f" 4 3 EtagNone ∅))
    as [dic|] eqn:Hd; [|by vm_compute in Hd].
  destruct (more_segments_than_bytes "u" "f" 4 3 EtagNone ∅ 4 dic
              ltac:(lia) He ltac:(lia) Hd) as (i & row & Hi & Hrow).
  by exists dic, i, row.
Defined.

(** * The merge step and the table *)










(** * More on the merge step *)

Lemma merge_segments_app filepath pre post fs :
  merge_segments filepath (pre ++ post) fs
  = match merge_segments filepath pre fs with
    | (fs', Ok _) => merge_segments filepath post fs'
    | (fs', Raise e) => (fs', Raise e)
    end.
Proof.
  revert fs. induction pre as [|i pre IH]; intros fs; [done|].
  cbn [app merge_segments].
  destruct (fs !! segment_path filepath i) as [src|]; [|done].
  destruct (unlink _ _) as [fs1 [[]|e]]; [|done]. apply IH.
Qed.

(** The loop touches the destination and the segment files it reaches. *)
Lemma merge_segments_frame filepath indices p : forall fs,
  p <> filepath ->
  (forall i, i ∈ indices -> p <> segment_path filepath i) ->
  (merge_segments filepath indices fs).1 !! p = fs !! p.
Proof.
  induction indices as [|i indices IH]; intros fs Hp Hpi; [done|].
  cbn [merge_segments].
  destruct (fs !! segment_path filepath i) as [src|] eqn:Hsrc; [|done].
  rewrite copy_chunks_write. unfold unlink.
  assert (write filepath src fs !! segment_path filepath i = Some src) as ->.
  { unfold write. rewrite lookup_alter_ne; [done|].
    intros E. by eapply segment_path_ne_filepath. }
  rewrite IH.
  - rewrite lookup_delete_ne by (intros ?; eapply Hpi; [left|done]).
    unfold write. by rewrite lookup_alter_ne.
  - done.
  - intros j Hj. apply Hpi. by right.
Qed.

(** The loop ends well only if it found every segment file. *)
Lemma merge_segments_Ok filepath indices : forall fs i,
  NoDup indices ->
  (merge_segments filepath indices fs).2 = Ok tt ->
  i ∈ indices -> is_Some (fs !! segment_path filepath i).
Proof.
  induction indices as [|j indices IH]; intros fs i Hnd Hok Hi.
  { by apply elem_of_nil in Hi. }
  apply NoDup_cons in Hnd as [Hj Hnd]. cbn [merge_segments] in Hok.
  destruct (fs !! segment_path filepath j) as [src|] eqn:Hsrc; [|done].
  apply elem_of_cons in Hi as [->|Hi]; [by rewrite Hsrc|].
  rewrite copy_chunks_write in Hok. unfold unlink in Hok.
  assert (write filepath src fs !! segment_path filepath j = Some src) as E.
  { unfold write. rewrite lookup_alter_ne; [done|].
    intros E. by eapply segment_path_ne_filepath. }
  rewrite E in Hok.
  specialize (IH _ i Hnd Hok Hi).
  rewrite lookup_delete_ne in IH by (intros ?%segment_path_inj; set_solver).
  unfold write in IH. rewrite lookup_alter_ne in IH; [done|].
  intros E'. by eapply segment_path_ne_filepath.
Qed.

Lemma segment_contents_insert filepath n content fs :
  (fun i => default [] (<[filepath := content]> fs !! segment_path filepath i))
    <$> seqZ 0 n
  = segment_contents filepath n fs.
Proof.
  apply list_fmap_ext. intros k i _.
  by rewrite lookup_insert_ne by (symmetry; apply segment_path_ne_filepath).
Qed.

(** X12.  [combine_files] returns without an exception exactly when the
    segment files [0 .. segments - 1] and the manifest all exist; with a
    segment count of 0 or less only the manifest is asked for. *)
Theorem combine_files_succeeds_iff filepath n fs :
  (combine_files filepath n fs).2 = Ok tt <->
  (forall i, 0 <= i < n -> is_Some (fs !! segment_path filepath i)) /\
  is_Some (fs !! progress_path filepath).
Proof.
  unfold combine_files.
  pose proof (merge_segments_frame filepath (seqZ 0 n)
                (progress_path filepath) (<[filepath := []]> fs)
                (progress_path_ne_filepath filepath)) as Hm.
  rewrite lookup_insert_ne in Hm
    by (symmetry; apply progress_path_ne_filepath).
  specialize (Hm ltac:(intros i _ E; by eapply segment_path_ne_progress_path)).
  pose proof (merge_segments_Ok filepath (seqZ 0 n) (<[filepath := []]> fs))
    as Hok.
  destruct (merge_segments filepath (seqZ 0 n) (<[filepath := []]> fs))
    as [fs1 [[]|e]] eqn:Hmerge; cbn [fst snd] in *.
  - unfold unlink. rewrite Hm. split.
    + intros Hu. split.
      * intros i Hi.
        specialize (Hok i (NoDup_seqZ _ _) eq_refl
                      ltac:(apply elem_of_seqZ; lia)).
        by rewrite lookup_insert_ne in Hok
          by (symmetry; apply segment_path_ne_filepath).
      * by destruct (fs !! progress_path filepath).
    + intros [_ [m ->]]. done.
  - split; [done|]. intros [Hseg _]. exfalso.
    destruct (merge_segments_spec filepath (seqZ 0 n) (<[filepath := []]> fs) [])
      as (fs' & Hmerge' & _).
    + apply NoDup_seqZ.
    + by rewrite lookup_insert_eq.
    + intros i Hi%elem_of_seqZ.
      rewrite lookup_insert_ne by (symmetry; apply segment_path_ne_filepath).
      apply Hseg. lia.
    + congruence.
Qed.

(** X13.  A missing segment file ends [combine_files] with
    [FileNotFoundError] and the merge half done: the destination holds
    the segments before the missing one and nothing of what it held
    before, their files are gone, and everything else, the manifest
    included, is as it was. *)
Theorem combine_files_stops_at_missing_segment filepath n fs k :
  0 <= k < n ->
  (forall i, 0 <= i < k -> is_Some (fs !! segment_path filepath i)) ->
  fs !! segment_path filepath k = None ->
  exists fs',
    combine_files filepath n fs = (fs', Raise FileNotFoundError) /\
    fs' !! filepath = Some (concat (segment_contents filepath k fs)) /\
    (forall i, 0 <= i < k -> fs' !! segment_path filepath i = None) /\
    (forall p, p <> filepath ->
       (forall i, 0 <= i < k -> p <> segment_path filepath i) ->
       fs' !! p = fs !! p).
Proof.
  intros Hk Hseg Hmiss. unfold combine_files.
  replace n with (k + (n - k)) by lia.
  rewrite seqZ_app by lia. rewrite Z.add_0_l.
  rewrite (seqZ_cons k) by lia. rewrite merge_segments_app.
  destruct (merge_segments_spec filepath (seqZ 0 k) (<[filepath := []]> fs) [])
    as (fs1 & -> & Hdest & Hgone & Hother).
  { apply NoDup_seqZ. }
  { by rewrite lookup_insert_eq. }
  { intros i Hi%elem_of_seqZ.
    rewrite lookup_insert_ne by (symmetry; apply segment_path_ne_filepath).
    apply Hseg. lia. }
  assert (fs1 !! segment_path filepath k = None) as Hk1.
  { rewrite Hother.
    - by rewrite lookup_insert_ne by (symmetry; apply segment_path_ne_filepath).
    - apply segment_path_ne_filepath.
    - intros i Hi%elem_of_seqZ E%segment_path_inj. lia. }
  cbn [merge_segments]. rewrite Hk1. exists fs1. split; [done|]. split_and!.
  - by rewrite Hdest, segment_contents_insert.
  - intros i Hi. apply Hgone. apply elem_of_seqZ. lia.
  - intros p Hp Hpi. rewrite Hother.
    + by rewrite lookup_insert_ne.
    + done.
    + intros i Hi%elem_of_seqZ. apply Hpi. lia.
Qed.

Lemma combine_files_stops_at_missing_segment_witness :
  let fs : gmap string (list byte) :=
    {[ "f" := [x09; x09]; "f.0.bin" := [x01]; "f.2.bin" := [x03];
       "f.json" := [] ]} in
  0 <= 1 < 3 /\
  (forall i, 0 <= i < 1 -> is_Some (fs !! segment_path "f" i)) /\
  fs !! segment_path "f" 1 = None /\
  exists fs',
    combine_files "f" 3 fs = (fs', Raise FileNotFoundError) /\
    fs' !! "f" = Some [x01] /\
    fs' !! "f.0.bin" = None /\
    fs' !! "f.2.bin" = Some [x03] /\
    fs' !! "f.json" = Some [].
Proof.
  intros fs.
  assert (forall i, 0 <= i < 1 -> is_Some (fs !! segment_path "f" i)) as Hseg.
  { intros i Hi. assert (i = 0) as -> by lia. by eexists. }
  split; [lia|]. split; [exact Hseg|]. split; [reflexivity|].
  destruct (combine_files_stops_at_missing_segment "f" 3 fs 1 ltac:(lia) Hseg eq_refl)
    as (fs' & Hc & Hd & Hg & Ho).
  exists fs'. split; [exact Hc|]. split; [exact Hd|]. split.
  { apply (Hg 0). lia. }
  split.
  - rewrite (Ho "f.2.bin"); [reflexivity|done|].
    intros i Hi. assert (i = 0) as -> by lia. done.
  - rewrite (Ho "f.json"); [reflexivity|done|].
    intros i Hi. assert (i = 0) as -> by lia. done.
Defined.

(** X14.  [combine_files] changes no file but the destination, the
    segment files [0 .. segments - 1] and the manifest, however it
    ends. *)
Theorem combine_files_frame filepath n fs p :
  p <> filepath ->
  (forall i, 0 <= i < n -> p <> segment_path filepath i) ->
  p <> progress_path filepath ->
  (combine_files filepath n fs).1 !! p = fs !! p.
Proof.
  intros Hp Hpi Hpm. unfold combine_files.
  pose proof (merge_segments_frame filepath (seqZ 0 n) p
                (<[filepath := []]> fs) Hp) as Hm.
  rewrite lookup_insert_ne in Hm by done.
  specialize (Hm ltac:(intros i Hi%elem_of_seqZ; apply Hpi; lia)).
  destruct (merge_segments filepath (seqZ 0 n) (<[filepath := []]> fs))
    as [fs1 [[]|e]]; cbn [fst] in *; [|done].
  unfold unlink. destruct (fs1 !! progress_path filepath); cbn [fst]; [|done].
  by rewrite lookup_delete_ne.
Qed.

Lemma combine_files_frame_witness :
  let fs : gmap string (list byte) :=
    {[ "f.0.bin" := [x01]; "f.json" := []; "f.1.bin" := [x02];
       "g" := [x07] ]} in
  "g" <> "f" /\
  (forall i, 0 <= i < 1 -> "g" <> segment_path "f" i) /\
  "g" <> progress_path "f" /\
  (combine_files "f" 1 fs).1 !! "g" = Some [x07].
Proof.
  intros fs.
  assert (forall i, 0 <= i < 1 -> "g" <> segment_path "f" i) as H.
  { intros i Hi. assert (i = 0) as -> by lia. done. }
  split; [done|]. split; [exact H|]. split; [done|].
  exact (combine_files_frame "f" 1 fs "g" ltac:(done) H ltac:(done)).
Defined.

(** X15.  Without a manifest [combine_files] merges every segment and
    deletes the segment files before it raises [FileNotFoundError]: the
    destination is complete although the call fails. *)
Theorem combine_files_missing_manifest filepath n fs :
  (forall i, 0 <= i < n -> is_Some (fs !! segment_path filepath i)) ->
  fs !! progress_path filepath = None ->
  exists fs',
    combine_files filepath n fs = (fs', Raise FileNotFoundError) /\
    fs' !! filepath = Some (concat (segment_contents filepath n fs)) /\
    (forall i, 0 <= i < n -> fs' !! segment_path filepath i = None).
Proof.
  intros Hseg Hm. unfold combine_files.
  destruct (merge_segments_spec filepath (seqZ 0 n) (<[filepath := []]> fs) [])
    as (fs1 & -> & Hdest & Hgone & Hother).
  { apply NoDup_seqZ. }
  { by rewrite lookup_insert_eq. }
  { intros i Hi%elem_of_seqZ.
    rewrite lookup_insert_ne by (symmetry; apply segment_path_ne_filepath).
    apply Hseg. lia. }
  unfold unlink.
  assert (fs1 !! progress_path filepath = None) as ->.
  { rewrite Hother.
    - by rewrite lookup_insert_ne
        by (symmetry; apply progress_path_ne_filepath).
    - apply progress_path_ne_filepath.
    - intros i _ E. by eapply segment_path_ne_progress_path. }
  exists fs1. split; [done|]. split.
  - by rewrite Hdest, segment_contents_insert.
  - intros i Hi. apply Hgone. apply elem_of_seqZ. lia.
Qed.

Lemma combine_files_missing_manifest_witness :
  let fs : gmap string (list byte) :=
    {[ "f.0.bin" := [x01]; "f.1.bin" := [x02; x03] ]} in
  (forall i, 0 <= i < 2 -> is_Some (fs !! segment_path "f" i)) /\
  fs !! progress_path "f" = None /\
  exists fs',
    combine_files "f" 2 fs = (fs', Raise FileNotFoundError) /\
    fs' !! "f" = Some [x01; x02; x03] /\
    fs' !! "f.0.bin" = None /\ fs' !! "f.1.bin" = None.
Proof.
  intros fs.
  assert (forall i, 0 <= i < 2 -> is_Some (fs !! segment_path "f" i)) as Hseg.
  { intros i Hi. assert (i = 0 \/ i = 1) as [-> | ->] by lia; by eexists. }
  split; [exact Hseg|]. split; [reflexivity|].
  destruct (combine_files_missing_manifest "f" 2 fs Hseg eq_refl)
    as (fs' & Hc & Hd & Hg).
  exists fs'. split; [exact Hc|]. split; [exact Hd|]. split.
  - apply (Hg 0). lia.
  - apply (Hg 1). lia.
Defined.

(** * More on the workers *)

Lemma write_insert path chunk c (fs : gmap string (list byte)) :
  fs !! path = Some c -> write path chunk fs = <[path := c ++ chunk]> fs.
Proof.
  intros Hc. apply map_eq. intros p. unfold write.
  destruct (decide (p = path)) as [->|Hp].
  - by rewrite lookup_alter_eq, lookup_insert_eq, Hc.
  - by rewrite lookup_alter_ne, lookup_insert_ne.
Qed.

Lemma open_file_insert path mode (fs : gmap string (list byte)) :
  open_file path mode fs = <[path := opened mode (fs !! path)]> fs.
Proof.
  destruct mode; simpl; [done|].
  destruct (fs !! path) as [c|] eqn:E; simpl; [|done].
  by rewrite insert_id.
Qed.

(** The loop of [download]: what it writes and counts. *)
Lemma iter_content_spec todo path : forall self w c,
  files w !! path = Some c ->
  iter_content todo path self w
  = ({| curr := curr self + Z.of_nat (length (delivered todo));
        completed := completed self |},
     {| files := <[path := c ++ delivered todo]> (files w);
        heap := heap w;
        error_set := error_set w || raises todo |}).
Proof.
  induction todo as [|[chunk stop err|] todo IH]; intros [cu co] [fs h e] c Hc;
    simpl in *.
  - by rewrite Z.add_0_r, app_nil_r, insert_id, orb_false_r.
  - case_bool_decide as Hchunk; simpl.
    + destruct (stop || err) eqn:Hflag; simpl.
      * unfold with_files. simpl.
        by rewrite (write_insert _ _ _ _ Hc), orb_false_r.
      * unfold with_files. simpl. rewrite (write_insert _ _ _ _ Hc).
        rewrite (IH _ _ (c ++ chunk)) by (simpl; apply lookup_insert_eq).
        simpl. rewrite insert_insert_eq, length_app, <- app_assoc.
        by rewrite Nat2Z.inj_add, Z.add_assoc.
    + assert (chunk = []) as -> by (by destruct chunk).
      by rewrite Z.add_0_r, app_nil_r, insert_id, orb_false_r.
  - by rewrite Z.add_0_r, app_nil_r, insert_id, orb_true_r.
Qed.

Lemma download_spec t url path mode kwargs self w :
  download t url path mode kwargs self w
  = if negb (open_ok t) then (self, set_error w)
    else if bool_decide (is_Some (kwargs !! "stream"))
            || bool_decide (is_Some (kwargs !! "timeout"))
    then (self,
          {| files := <[path := opened mode (files w !! path)]> (files w);
             heap := heap w; error_set := true |})
    else
      let data := delivered (steps t) in
      ({| curr := curr self + Z.of_nat (length data);
          completed := completed self |},
       {| files := <[path := opened mode (files w !! path) ++ data]> (files w);
          heap := heap w;
          error_set := error_set w || raises (steps t) |}).
Proof.
  unfold download. destruct (open_ok t); simpl; [|done].
  destruct (_ || _); simpl.
  - unfold set_error, with_files. simpl. by rewrite open_file_insert.
  - rewrite (iter_content_spec _ _ _ _ (opened mode (files w !! path))).
    + unfold with_files. simpl.
      by rewrite open_file_insert, insert_insert_eq.
    + unfold with_files. simpl. rewrite open_file_insert.
      apply lookup_insert_eq.
Qed.

Lemma delivered_chunks ds rest :
  Forall (fun d => d <> []) ds ->
  delivered (chunks ds ++ rest) = concat ds ++ delivered rest /\
  raises (chunks ds ++ rest) = raises rest.
Proof.
  induction 1 as [|d ds Hd _ [IH1 IH2]]; [done|]. simpl.
  rewrite bool_decide_eq_true_2 by done. simpl.
  by rewrite IH1, IH2, app_assoc.
Qed.

(** X16.  [download] counts what it writes: [curr] grows by the number of
    bytes that the file grows by from what it held when it was opened,
    nothing for mode [wb].  No other file, no object, and not
    [completed] is changed, and the error flag is never cleared; when the
    file cannot be opened nothing changes but the error flag. *)
Theorem download_accounting t url path mode kwargs self w :
  let self' := (download t url path mode kwargs self w).1 in
  let w' := (download t url path mode kwargs self w).2 in
  heap w' = heap w /\
  completed self' = completed self /\
  (error_set w = true -> error_set w' = true) /\
  (forall p, p <> path -> files w' !! p = files w !! p) /\
  (if open_ok t
   then exists data,
          files w' !! path = Some (opened mode (files w !! path) ++ data) /\
          curr self' = curr self + Z.of_nat (length data)
   else files w' = files w /\ curr self' = curr self /\ error_set w' = true).
Proof.
  cbv zeta. rewrite download_spec.
  destruct (open_ok t); simpl; [|by split_and!].
  destruct (_ || _); simpl.
  - split_and!; [done|done|done|..].
    + intros p Hp. by rewrite lookup_insert_ne.
    + exists []. rewrite app_nil_r, lookup_insert_eq. split; [done|simpl; lia].
  - split_and!; [done|done|by intros ->|..].
    + intros p Hp. by rewrite lookup_insert_ne.
    + eexists. by rewrite lookup_insert_eq.
Qed.

(** X17.  The flags are looked at after the chunk is written: the chunk
    during which [stop] or [error] is set is still written and counted,
    and nothing is read after it; that is no error. *)
Theorem download_stops_after_chunk t url path mode kwargs self w ds d
    stop_is_set error_is_set rest :
  open_ok t = true ->
  kwargs !! "stream" = None -> kwargs !! "timeout" = None ->
  steps t = chunks ds ++ Chunk d stop_is_set error_is_set :: rest ->
  Forall (fun d => d <> []) ds ->
  stop_is_set || error_is_set = true ->
  download t url path mode kwargs self w
  = ({| curr := curr self + Z.of_nat (length (concat ds ++ d));
        completed := completed self |},
     {| files := <[path := opened mode (files w !! path) ++ concat ds ++ d]>
                   (files w);
        heap := heap w;
        error_set := error_set w |}).
Proof.
  intros Hopen Hs Ht Hsteps Hds Hflag. rewrite download_spec, Hopen, Hs, Ht.
  simpl. rewrite Hsteps.
  destruct (delivered_chunks ds (Chunk d stop_is_set error_is_set :: rest) Hds)
    as [-> ->].
  simpl. rewrite <- orb_assoc, Hflag, orb_true_r. by rewrite orb_false_r.
Qed.

Lemma download_stops_after_chunk_witness :
  let t := Trace true [Chunk [x01] false false; Chunk [x02] true false;
                       Chunk [x03] false false] in
  open_ok t = true /\
  (∅ : gmap string val) !! "stream" = None /\
  (∅ : gmap string val) !! "timeout" = None /\
  steps t = chunks [[x01]] ++ Chunk [x02] true false :: [Chunk [x03] false false] /\
  Forall (fun d : list byte => d <> []) [[x01]] /\
  true || false = true /\
  download t "u" "f" AB ∅ init (World {[ "f" := [x00] ]} ∅ false)
  = ({| curr := 2; completed := 0 |},
     World {[ "f" := [x00; x01; x02] ]} ∅ false).
Proof.
  intros t.
  assert (Forall (fun d : list byte => d <> []) [[x01]]) as Hds
    by (by repeat constructor).
  split; [reflexivity|]. split; [reflexivity|]. split; [reflexivity|].
  split; [reflexivity|]. split; [exact Hds|]. split; [reflexivity|].
  rewrite (download_stops_after_chunk t "u" "f" AB ∅ init
             (World {[ "f" := [x00] ]} ∅ false) [[x01]] [x02] true false
             [Chunk [x03] false false] eq_refl (lookup_empty _)
             (lookup_empty _) eq_refl Hds eq_refl).
  simpl. by rewrite insert_singleton_eq.
Defined.

(** X18.  A transport error keeps what was written before it: the file
    holds the chunks received so far, [curr] counts them, and the error
    flag is set. *)
Theorem download_keeps_partial_data t url path mode kwargs self w ds rest :
  open_ok t = true ->
  kwargs !! "stream" = None -> kwargs !! "timeout" = None ->
  steps t = chunks ds ++ Fail :: rest ->
  Forall (fun d => d <> []) ds ->
  download t url path mode kwargs self w
  = ({| curr := curr self + Z.of_nat (length (concat ds));
        completed := completed self |},
     {| files := <[path := opened mode (files w !! path) ++ concat ds]>
                   (files w);
        heap := heap w;
        error_set := true |}).
Proof.
  intros Hopen Hs Ht Hsteps Hds. rewrite download_spec, Hopen, Hs, Ht.
  simpl. rewrite Hsteps.
  destruct (delivered_chunks ds (Fail :: rest) Hds) as [-> ->].
  simpl. by rewrite app_nil_r, orb_true_r.
Qed.

Lemma download_keeps_partial_data_witness :
  let t := Trace true [Chunk [x01; x02] false false; Fail;
                       Chunk [x03] false false] in
  open_ok t = true /\
  (∅ : gmap string val) !! "stream" = None /\
  (∅ : gmap string val) !! "timeout" = None /\
  steps t = chunks [[x01; x02]] ++ Fail :: [Chunk [x03] false false] /\
  Forall (fun d : list byte => d <> []) [[x01; x02]] /\
  download t "u" "f" WB ∅ init (World {[ "f" := [x00] ]} ∅ false)
  = ({| curr := 2; completed := 0 |}, World {[ "f" := [x01; x02] ]} ∅ true).
Proof.
  intros t.
  assert (Forall (fun d : list byte => d <> []) [[x01; x02]]) as Hds
    by (by repeat constructor).
  split; [reflexivity|]. split; [reflexivity|]. split; [reflexivity|].
  split; [reflexivity|]. split; [exact Hds|].
  rewrite (download_keeps_partial_data t "u" "f" WB ∅ init
             (World {[ "f" := [x00] ]} ∅ false) [[x01; x02]]
             [Chunk [x03] false false] eq_refl (lookup_empty _)
             (lookup_empty _) eq_refl Hds).
  simpl. by rewrite insert_singleton_eq.
Defined.

(** X19.  A stream that ends by itself, with keyword arguments that name
    no parameter of [download] and neither [stream] nor [timeout]:
    whatever the file held, [Simpledown.worker] leaves in it the chunks
    received, in their order, [curr] has grown by their length, and the
    error flag is as it was. *)
Theorem Simpledown_worker_full_stream t sd self w ds :
  open_ok t = true ->
  binds_parameter (sd_kwargs sd) = false ->
  sd_kwargs sd !! "stream" = None -> sd_kwargs sd !! "timeout" = None ->
  steps t = chunks ds ->
  Forall (fun d => d <> []) ds ->
  Simpledown_worker t sd self w
  = ({| curr := curr self + Z.of_nat (length (concat ds)); completed := 1 |},
     {| files := <[sd_path sd := concat ds]> (files w);
        heap := heap w;
        error_set := error_set w |},
     Ok tt).
Proof.
  intros Hopen Hbinds Hs Ht Hsteps Hds. unfold Simpledown_worker.
  rewrite Hbinds, download_spec, Hopen, Hs, Ht. simpl. rewrite Hsteps.
  destruct (delivered_chunks ds [] Hds) as [E1 E2].
  rewrite app_nil_r in E1, E2. rewrite E1, E2. simpl.
  by rewrite app_nil_r, orb_false_r.
Qed.

Lemma Simpledown_worker_full_stream_witness :
  let t := Trace true (chunks [[x01; x02]; [x03]]) in
  let sd := Simpledown "u" "f" {[ "verify" := VBool false ]} in
  open_ok t = true /\
  binds_parameter (sd_kwargs sd) = false /\
  sd_kwargs sd !! "stream" = None /\ sd_kwargs sd !! "timeout" = None /\
  steps t = chunks [[x01; x02]; [x03]] /\
  Forall (fun d : list byte => d <> []) [[x01; x02]; [x03]] /\
  Simpledown_worker t sd init (World {[ "f" := [x09; x09; x09; x09] ]} ∅ false)
  = ({| curr := 3; completed := 1 |},
     World {[ "f" := [x01; x02; x03] ]} ∅ false, Ok tt).
Proof.
  intros t sd.
  assert (Forall (fun d : list byte => d <> []) [[x01; x02]; [x03]]) as Hds
    by (by repeat constructor).
  assert (binds_parameter (sd_kwargs sd) = false) as Hb by reflexivity.
  assert (sd_kwargs sd !! "stream" = None) as Hs by reflexivity.
  assert (sd_kwargs sd !! "timeout" = None) as Ht by reflexivity.
  split; [reflexivity|]. split; [exact Hb|]. split; [exact Hs|].
  split; [exact Ht|]. split; [reflexivity|]. split; [exact Hds|].
  rewrite (Simpledown_worker_full_stream t sd init
             (World {[ "f" := [x09; x09; x09; x09] ]} ∅ false)
             [[x01; x02]; [x03]] eq_refl Hb Hs Ht eq_refl Hds).
  simpl. by rewrite insert_singleton_eq.
Defined.

(** What [Multidown.worker] finds on disk, for a worker that has not
    downloaded yet. *)
Lemma resume_file_kept row self w :
  curr self = 0 ->
  let self1 := (resume_file row self w).1 in
  let w1 := (resume_file row self w).2 in
  curr self1 = Z.of_nat (length (kept row (files w !! path row))) /\
  completed self1 = completed self /\
  opened AB (files w1 !! path row) = kept row (files w !! path row) /\
  (files w1 !! path row = None /\ kept row (files w !! path row) = [] \/
   files w1 !! path row = Some (kept row (files w !! path row))) /\
  heap w1 = heap w /\ error_set w1 = error_set w /\
  (forall p, p <> path row -> files w1 !! p = files w !! p).
Proof.
  intros Hc. unfold resume_file, kept.
  destruct (files w !! path row) as [c|] eqn:Hf; simpl.
  - destruct (segment_size row <? Z.of_nat (length c)); simpl.
    + rewrite lookup_delete_eq. split_and!; try done; [by left|].
      intros p Hp. by rewrite lookup_delete_ne.
    + rewrite Hf. split_and!; try done. by right.
  - rewrite Hf. split_and!; try done. by left.
Qed.

Lemma alloc_fresh o (h : gmap positive (gmap string val)) :
  h !! (alloc o h).1 = None.
Proof. unfold alloc. simpl. apply not_elem_of_dom, is_fresh. Qed.

(** The copy of the keyword arguments after [set_range]. *)
Lemma set_range_spec kwargs r h h' :
  set_range kwargs r h = Ok h' ->
  exists headers kd hd,
    h' !! kwargs = Some kd /\ kd !! "headers" = Some (VRef headers) /\
    h' !! headers = Some hd /\ hd !! "range" = Some (VStr r).
Proof.
  unfold set_range. destruct (h !! kwargs) as [d|] eqn:Hd; [|done].
  pose proof (alloc_fresh ∅ h) as Hfresh. unfold alloc in *. simpl in *.
  set (f := fresh (dom h)) in *.
  assert (f <> kwargs) as Hne by congruence.
  destruct (d !! "headers") as [v|] eqn:Hv.
  - destruct v as [| | | |l]; try done.
    destruct (<[f := ∅]> h !! l) as [o|] eqn:Ho; [|done]. intros [= <-].
    destruct (decide (l = kwargs)) as [->|Hl].
    + rewrite lookup_insert_ne in Ho by done. rewrite Hd in Ho.
      injection Ho as <-.
      exists kwargs, (<["range" := VStr r]> d), (<["range" := VStr r]> d).
      rewrite lookup_alter_eq, lookup_insert_ne, Hd by done. simpl.
      rewrite lookup_insert_ne by done. by rewrite lookup_insert_eq.
    + exists l, d, (<["range" := VStr r]> o).
      rewrite lookup_alter_ne, lookup_insert_ne, Hd by done.
      rewrite lookup_alter_eq, Ho. simpl. by rewrite lookup_insert_eq.
  - rewrite lookup_alter_ne, lookup_insert_eq by done. intros [= <-].
    exists f, (<["headers" := VRef f]> d), (<["range" := VStr r]> ∅).
    rewrite lookup_alter_ne by done.
    rewrite lookup_alter_eq, lookup_insert_ne, Hd by done. simpl.
    rewrite lookup_insert_eq.
    rewrite lookup_alter_eq, lookup_alter_ne, lookup_insert_eq by done.
    simpl. by rewrite lookup_insert_eq.
Qed.

(** The ranged request of [fetch], when it is made and does not raise. *)
Lemma fetch_Ok t depth md row self w self' w' :
  fetch t depth md row self w = (self', w', Ok tt) ->
  curr self < segment_size row ->
  exists kwargs h kd,
    heap w !! kwargs = None /\
    h !! kwargs = Some kd /\
    (exists headers hd,
       kd !! "headers" = Some (VRef headers) /\
       h !! headers = Some hd /\
       hd !! "range"
       = Some (VStr (range_header (start row + curr self) (end_ row)))) /\
    binds_parameter kd = false /\
    (self', w')
    = download t (dic_url (segement_table md)) (path row) AB kd self
        (with_heap h w).
Proof.
  unfold fetch. intros Hf Hlt.
  rewrite (proj2 (Z.ltb_lt _ _) Hlt) in Hf.
  destruct (deepcopy depth (VRef (md_kwargs md)) ∅ (heap w))
    as [[[x memo] h]|e] eqn:Hcopy; [|done].
  destruct (deepcopy_copying (heap w) depth _ _ _ _ _ _
              (copying_start (heap w)) Hcopy) as [_ Hnew].
  destruct x as [| | | |kwargs]; try done.
  destruct (set_range kwargs _ h) as [h1|e] eqn:Hset; [|done].
  destruct (set_range_spec _ _ _ _ Hset) as (l & kd & hd & H1 & H2 & H3 & H4).
  rewrite H1 in Hf. simpl in Hf.
  destruct (binds_parameter kd) eqn:Hb; [done|].
  destruct (download _ _ _ _ _ _ _) as [self2 w2] eqn:Hdl.
  injection Hf as <- <-.
  exists kwargs, h1, kd. split; [by apply Hnew|]. split; [done|].
  split; [by exists l, hd|]. by split.
Qed.

Lemma Multidown_worker_unfold t depth md self w row :
  table_row (segement_table md) (segment_id md) = Some row ->
  Multidown_worker t depth md self w
  = match fetch t depth md row (resume_file row self w).1
            (resume_file row self w).2 with
    | (self2, w2, Raise e) => (self2, w2, Raise e)
    | (self2, w2, Ok _) => (finish row self2, w2, Ok tt)
    end.
Proof.
  intros Hrow. unfold Multidown_worker. rewrite Hrow.
  by destruct (resume_file row self w).
Qed.

Lemma fetch_skip t depth md row self w :
  segment_size row <= curr self ->
  fetch t depth md row self w = (self, w, Ok tt).
Proof.
  intros H. unfold fetch. by rewrite (proj2 (Z.ltb_ge _ _) H).
Qed.

Lemma fetch_Raise t depth md row self w self' w' e :
  fetch t depth md row self w = (self', w', Raise e) ->
  self' = self /\ files w' = files w /\ error_set w' = error_set w.
Proof.
  unfold fetch. destruct (curr self <? segment_size row); [|done].
  destruct (deepcopy _ _ _ _) as [[[x memo] h]|e']; [|by intros [= <- <- _]].
  destruct x as [| | | |kwargs]; try by intros [= <- <- _].
  destruct (set_range _ _ _) as [h1|e'']; [|by intros [= <- <- _]].
  destruct (binds_parameter _); [by intros [= <- <- _]|].
  by destruct (download _ _ _ _ _ _ _).
Qed.

(** X20.  A segment whose file is already complete is not requested
    again: the worker sets [curr] to the segment size and [completed] to
    1, and leaves the files, the objects and the error flag as they
    are. *)
Theorem Multidown_worker_complete_file t depth md self w row c :
  table_row (segement_table md) (segment_id md) = Some row ->
  files w !! path row = Some c ->
  Z.of_nat (length c) = segment_size row ->
  Multidown_worker t depth md self w
  = ({| curr := segment_size row; completed := 1 |}, w, Ok tt).
Proof.
  intros Hrow Hc Hlen. rewrite (Multidown_worker_unfold _ _ _ _ _ _ Hrow).
  unfold resume_file. rewrite Hc.
  rewrite (proj2 (Z.ltb_ge _ _)) by lia. simpl.
  rewrite fetch_skip by (simpl; lia).
  unfold finish. simpl. rewrite Hlen. by rewrite Z.eqb_refl.
Qed.

Lemma Multidown_worker_complete_file_witness :
  let md := Multidown (Table "u" 2 [Segment 0 1 2 "f.0.bin";
                                    Segment 2 4 2 "f.1.bin"]) 0 1 in
  let w := World {[ "f.0.bin" := [x01; x02] ]} ∅ false in
  table_row (segement_table md) (segment_id md)
  = Some (Segment 0 1 2 "f.0.bin") /\
  files w !! "f.0.bin" = Some [x01; x02] /\
  Z.of_nat (length [x01; x02]) = 2 /\
  Multidown_worker (Trace false [Fail]) 0 md init w
  = ({| curr := 2; completed := 1 |}, w, Ok tt).
Proof.
  intros md w. split; [reflexivity|]. split; [reflexivity|].
  split; [reflexivity|].
  exact (Multidown_worker_complete_file (Trace false [Fail]) 0 md init w
           (Segment 0 1 2 "f.0.bin") [x01; x02] eq_refl eq_refl eq_refl).
Defined.

(** X21.  A worker that starts with [curr = 0] sets [completed] only when
    the file of its segment holds exactly [segment_size] bytes, whatever
    the transport did; the one exception is an empty segment, which is
    complete without a file. *)
Theorem Multidown_worker_completed_file t depth md self w row :
  table_row (segement_table md) (segment_id md) = Some row ->
  curr self = 0 -> completed self = 0 ->
  let self' := (Multidown_worker t depth md self w).1.1 in
  let w' := (Multidown_worker t depth md self w).1.2 in
  completed self' = 1 ->
  curr self' = segment_size row /\
  (segment_size row = 0 \/
   exists c, files w' !! path row = Some c /\
             Z.of_nat (length c) = segment_size row).
Proof.
  intros Hrow Hcurr Hcomp. cbv zeta.
  rewrite (Multidown_worker_unfold _ _ _ _ _ _ Hrow).
  destruct (resume_file_kept row self w Hcurr)
    as (Hc1 & Hco1 & Hopen & Hfile & _).
  destruct (resume_file row self w) as [self1 w1]. simpl in *.
  set (k := kept row (files w !! path row)) in *.
  destruct (fetch t depth md row self1 w1) as [[self2 w2] [[]|e]] eqn:Hf;
    simpl.
  - assert (forall s, completed (finish row s) = 1 ->
              completed s = 1 \/ curr s = segment_size row) as Hfin.
    { intros s. unfold finish.
      destruct (Z.eqb_spec (curr s) (segment_size row)); auto. }
    assert (curr (finish row self2) = curr self2) as ->
      by (unfold finish; by destruct (_ =? _)).
    intros Hdone.
    destruct (Z.lt_ge_cases (curr self1) (segment_size row)) as [Hlt|Hge].
    + destruct (fetch_Ok _ _ _ _ _ _ _ _ Hf Hlt)
        as (kw & h & kd & _ & _ & _ & _ & Hdl).
      rewrite download_spec in Hdl. simpl in Hdl.
      destruct (open_ok t); simpl in Hdl.
      * destruct (_ || _); simpl in Hdl; injection Hdl as -> ->.
        -- apply Hfin in Hdone. exfalso. lia.
        -- apply Hfin in Hdone. simpl in Hdone.
           destruct Hdone as [|Hdone]; [lia|]. split; [done|]. right.
           simpl. rewrite lookup_insert_eq. eexists. split; [done|].
           rewrite Hopen, length_app, Nat2Z.inj_add. simpl in Hdone. lia.
      * injection Hdl as -> ->. apply Hfin in Hdone. exfalso. lia.
    + rewrite fetch_skip in Hf by done. injection Hf as <- <-.
      apply Hfin in Hdone. destruct Hdone as [|Hdone]; [lia|].
      split; [done|].
      destruct Hfile as [[_ Hnil]|Hsome].
      * left. fold k in Hnil. rewrite Hnil in Hc1. simpl in Hc1. lia.
      * right. exists k. split; [done|lia].
  - apply fetch_Raise in Hf as (-> & _). intros H. exfalso. lia.
Qed.

Lemma Multidown_worker_completed_file_witness :
  let md := Multidown (Table "u" 1 [Segment 0 2 2 "f.0.bin"]) 0 1 in
  let w := World {[ "f.0.bin" := [x01] ]} {[ 1%positive := ∅ ]} false in
  let t := Trace true [Chunk [x02] false false] in
  table_row (segement_table md) (segment_id md)
  = Some (Segment 0 2 2 "f.0.bin") /\
  curr init = 0 /\ completed init = 0 /\
  completed (Multidown_worker t 8 md init w).1.1 = 1 /\
  curr (Multidown_worker t 8 md init w).1.1 = 2 /\
  (2 = 0 \/
   exists c, files (Multidown_worker t 8 md init w).1.2 !! "f.0.bin" = Some c /\
             Z.of_nat (length c) = 2).
Proof.
  intros md w t.
  assert (completed (Multidown_worker t 8 md init w).1.1 = 1) as Hdone
    by (vm_compute; reflexivity).
  split; [reflexivity|]. split; [reflexivity|]. split; [reflexivity|].
  split; [exact Hdone|].
  exact (Multidown_worker_completed_file t 8 md init w
           (Segment 0 2 2 "f.0.bin") eq_refl eq_refl eq_refl Hdone).
Defined.

(** X22.  A worker that starts with [curr = 0] and ends without the error
    flag has appended what it received to what it kept of the file of its
    segment (all of it, or nothing when it was longer than the segment),
    [curr] is the length of the file, and no other file is changed. *)
Theorem Multidown_worker_appends t depth md self w row self' w' :
  table_row (segement_table md) (segment_id md) = Some row ->
  curr self = 0 ->
  let k := kept row (files w !! path row) in
  Z.of_nat (length k) < segment_size row ->
  Multidown_worker t depth md self w = (self', w', Ok tt) ->
  error_set w' = false ->
  files w' !! path row = Some (k ++ delivered (steps t)) /\
  curr self' = Z.of_nat (length (k ++ delivered (steps t))) /\
  (forall p, p <> path row -> files w' !! p = files w !! p).
Proof.
  intros Hrow Hcurr k Hk Hrun Herr.
  rewrite (Multidown_worker_unfold _ _ _ _ _ _ Hrow) in Hrun.
  destruct (resume_file_kept row self w Hcurr)
    as (Hc1 & _ & Hopen & _ & _ & _ & Hother).
  destruct (resume_file row self w) as [self1 w1]. simpl in *. fold k in Hc1, Hopen.
  destruct (fetch t depth md row self1 w1) as [[self2 w2] [[]|e]] eqn:Hf;
    [|done].
  injection Hrun as <- <-.
  destruct (fetch_Ok _ _ _ _ _ _ _ _ Hf ltac:(lia))
    as (kw & h & kd & _ & _ & _ & _ & Hdl).
  rewrite download_spec in Hdl. simpl in Hdl.
  destruct (open_ok t); simpl in Hdl;
    [|injection Hdl as -> ->; simpl in Herr; done].
  destruct (_ || _); simpl in Hdl; injection Hdl as -> ->;
    [simpl in Herr; done|].
  simpl. rewrite lookup_insert_eq, Hopen. split; [done|]. split.
  - unfold finish. destruct (_ =? _); simpl;
      rewrite length_app, Nat2Z.inj_add; lia.
  - intros p Hp. rewrite lookup_insert_ne by done. by apply Hother.
Qed.

Lemma Multidown_worker_appends_witness :
  let md := Multidown (Table "u" 1 [Segment 0 3 3 "f.0.bin"]) 0 1 in
  let w := World {[ "f.0.bin" := [x01] ]} {[ 1%positive := ∅ ]} false in
  let t := Trace true [Chunk [x02] false false; Chunk [x03] false false] in
  let row := Segment 0 3 3 "f.0.bin" in
  exists self' w',
    table_row (segement_table md) (segment_id md) = Some row /\
    curr init = 0 /\
    Z.of_nat (length (kept row (files w !! path row))) < segment_size row /\
    Multidown_worker t 8 md init w = (self', w', Ok tt) /\
    error_set w' = false /\
    files w' !! "f.0.bin" = Some [x01; x02; x03] /\
    curr self' = 3.
Proof.
  intros md w t row.
  set (res := Multidown_worker t 8 md init w).
  assert (res = (res.1.1, res.1.2, Ok tt)) as Hrun
    by (vm_compute; reflexivity).
  assert (error_set res.1.2 = false) as Herr by (vm_compute; reflexivity).
  exists res.1.1, res.1.2.
  destruct (Multidown_worker_appends t 8 md init w row res.1.1 res.1.2
              eq_refl eq_refl ltac:(by vm_compute) Hrun Herr) as (Hf & Hc & _).
  split; [reflexivity|]. split; [reflexivity|]. split; [by vm_compute|].
  split; [exact Hrun|]. split; [exact Herr|]. split; [exact Hf|exact Hc].
Defined.



Lemma merge_segments_missing filepath indices i : forall fs,
  NoDup indices -> i ∈ indices ->
  fs !! segment_path filepath i = None ->
  (merge_segments filepath indices fs).2 = Raise FileNotFoundError.
Proof.
  induction indices as [|j indices IH]; intros fs Hnd Hi Hmiss.
  { by apply elem_of_nil in Hi. }
  apply NoDup_cons in Hnd as [Hj Hnd]. cbn [merge_segments].
  destruct (fs !! segment_path filepath j) as [src|] eqn:Hsrc; [|done].
  apply elem_of_cons in Hi as [->|Hi]; [congruence|].
  rewrite copy_chunks_write. unfold unlink.
  assert (write filepath src fs !! segment_path filepath j = Some src) as ->.
  { unfold write. rewrite lookup_alter_ne; [done|].
    intros E. by eapply segment_path_ne_filepath. }
  apply IH; [done..|].
  rewrite lookup_delete_ne by (intros ?%segment_path_inj; set_solver).
  unfold write. rewrite lookup_alter_ne; [done|].
  intros E. by eapply segment_path_ne_filepath.
Qed.

(** X24.  The worker of an empty segment is complete at once and creates
    no file, and [combine_files], which opens the file of every segment,
    then raises [FileNotFoundError]. *)
Theorem empty_segment_breaks_merge t depth md self w row filepath n i :
  table_row (segement_table md) (segment_id md) = Some row ->
  segment_size row = 0 -> curr self = 0 ->
  files w !! path row = None ->
  path row = segment_path filepath i -> 0 <= i < n ->
  Multidown_worker t depth md self w
  = ({| curr := 0; completed := 1 |}, w, Ok tt) /\
  (combine_files filepath n (files w)).2 = Raise FileNotFoundError.
Proof.
  intros Hrow Hsize Hcurr Hfile Hpath Hi. split.
  - rewrite (Multidown_worker_unfold _ _ _ _ _ _ Hrow).
    unfold resume_file. rewrite Hfile. simpl.
    rewrite fetch_skip by lia. unfold finish.
    by rewrite Hcurr, Hsize.
  - unfold combine_files.
    pose proof (merge_segments_missing filepath (seqZ 0 n) i
                  (<[filepath := []]> (files w)) (NoDup_seqZ _ _)) as Hm.
    destruct (merge_segments filepath (seqZ 0 n) _) as [fs1 r]. simpl in Hm.
    rewrite Hm; [done|apply elem_of_seqZ; lia|].
    rewrite lookup_insert_ne by (symmetry; apply segment_path_ne_filepath).
    by rewrite <- Hpath.
Qed.

Lemma empty_segment_breaks_merge_witness :
  let dic := {| dic_url := "u"; dic_segments := 2;
                dic_rows := [ Segment 0 (-1) 0 "f.0.bin";
                              Segment 0 1 1 "f.1.bin" ] |} in
  let md := Multidown dic 0 1 in
  let w := World {[ "f.1.bin" := [x01]; "f.json" := [] ]}
             {[ 1%positive := ∅ ]} false in
  snd (create_segment_table "u" "f" 2 1 EtagNone ∅) = Ok dic /\
  table_row (segement_table md) (segment_id md)
  = Some (Segment 0 (-1) 0 "f.0.bin") /\
  files w !! "f.0.bin" = None /\
  Multidown_worker (Trace true []) 8 md init w
  = ({| curr := 0; completed := 1 |}, w, Ok tt) /\
  (combine_files "f" 2 (files w)).2 = Raise FileNotFoundError.
Proof.
  intros dic md w.
  split; [vm_compute; reflexivity|]. split; [reflexivity|].
  split; [reflexivity|].
  exact (empty_segment_breaks_merge (Trace true []) 8 md init w
           (Segment 0 (-1) 0 "f.0.bin") "f" 2 0
           eq_refl eq_refl eq_refl eq_refl eq_refl ltac:(lia)).
Defined.

Lemma download_files_ne t url path mode kwargs self w p :
  p <> path ->
  files (download t url path mode kwargs self w).2 !! p = files w !! p.
Proof.
  intros Hp. rewrite download_spec.
  destruct (open_ok t); simpl; [|done].
  destruct (_ || _); simpl; by rewrite lookup_insert_ne.
Qed.

(** X25.  A worker writes to the file of its own download only: no run of
    [Simpledown.worker] changes a file other than its [path], and no run
    of [Multidown.worker] a file other than the one of its segment. *)
Theorem workers_touch_own_file t depth sd md self w p :
  (p <> sd_path sd ->
   files (Simpledown_worker t sd self w).1.2 !! p = files w !! p) /\
  (forall row,
     table_row (segement_table md) (segment_id md) = Some row ->
     p <> path row ->
     files (Multidown_worker t depth md self w).1.2 !! p = files w !! p).
Proof.
  split.
  - intros Hp. unfold Simpledown_worker.
    destruct (binds_parameter _); [done|].
    pose proof (download_files_ne t (sd_url sd) (sd_path sd) WB (sd_kwargs sd)
                  self w p Hp) as H.
    by destruct (download _ _ _ _ _ _ _).
  - intros row Hrow Hp. rewrite (Multidown_worker_unfold _ _ _ _ _ _ Hrow).
    assert (files (resume_file row self w).2 !! p = files w !! p) as Hr.
    { unfold resume_file. destruct (files w !! path row) as [c|]; [|done].
      destruct (_ <? _); simpl; [|done]. by rewrite lookup_delete_ne. }
    destruct (resume_file row self w) as [self1 w1]. simpl in *.
    rewrite <- Hr. clear Hr.
    unfold fetch. destruct (_ <? _); [|done].
    destruct (deepcopy _ _ _ _) as [[[x memo] h]|e]; [|done].
    destruct x as [| | | |kwargs]; try done.
    destruct (set_range _ _ _) as [h1|e]; [|done].
    destruct (binds_parameter _); [done|].
    pose proof (download_files_ne t (dic_url (segement_table md)) (path row)
                  AB (default ∅ (h1 !! kwargs)) self1 (with_heap h1 w1) p Hp)
      as H.
    by destruct (download _ _ _ _ _ _ _).
Qed.

(** Keyword arguments that hold [url]: line 198 raises [TypeError], after
    the copy was made and before anything is downloaded. *)
Example Multidown_worker_url_clash :
  let r := Multidown_worker (Trace true [Chunk [x01; x02] false false]) 8
             (Multidown (Table "u" 1 [Segment 0 2 2 "f.0.bin"]) 0 1) init
             (World ∅ {[ 1%positive := {[ "url" := VStr "x" ]} ]} false) in
  r.2 = Raise TypeError /\ r.1.1 = init /\ files r.1.2 = ∅ /\
  heap r.1.2 !! 1%positive = Some {[ "url" := VStr "x" ]}.
Proof. cbv zeta. repeat split; vm_compute; reflexivity. Qed.

(** X26.  [to_mb] does not round below 8 PiB: for a size from 1 byte up
    to [2^53 - 1] the result is the binary64 number whose value is
    exactly [size / 1048576]. *)
Theorem to_mb_exact size :
  1 <= size < 2 ^ 53 ->
  exists mb, to_mb size = Ok mb /\ fnormal mb /\
             fval mb * MEGABYTE = size * 2 ^ K.
Proof.
  intros Hs.
  assert (1 <= size < 2 ^ 1023) as Hs'.
  { split; [lia|]. eapply Z.lt_le_trans; [apply Hs|].
    apply Z.pow_le_mono_r; lia. }
  destruct (partition_size_normal size MEGABYTE Hs' ltac:(by vm_compute))
    as (mb & Hmb & Hn & Hv).
  exists mb. split; [exact Hmb|]. split; [exact Hn|]. rewrite Hv.
  unfold partition_value.
  assert (2 ^ K = 2 ^ (K - 20) * MEGABYTE) as HK.
  { change MEGABYTE with (2 ^ 20). rewrite <- Z.pow_add_r by (unfold K; lia).
    f_equal; lia. }
  rewrite HK at 1. rewrite Z.mul_assoc.
  rewrite <- (Z.mul_1_l MEGABYTE) at 2.
  rewrite rnd_scale by (by vm_compute).
  rewrite rnd_exact_int by (unfold K; lia).
  rewrite HK. ring.
Qed.

Lemma to_mb_exact_witness :
  1 <= 3 * MEGABYTE < 2 ^ 53 /\
  exists mb, to_mb (3 * MEGABYTE) = Ok mb /\ fnormal mb /\
             fval mb * MEGABYTE = 3 * MEGABYTE * 2 ^ K.
Proof.
  split; [by vm_compute|].
  exact (to_mb_exact (3 * MEGABYTE) ltac:(by vm_compute)).
Defined.
